(** * podplaytest: the tic-tac-toe frame of [src/api/index.tsx]

    A shallow embedding of the game engine of the frame server: the run-time
    values the handler manipulates, win detection ([checkWin]), the computer
    opponent ([getBestMove]), the state codec ([encodeState], [decodeState])
    and the move handling of [app.frame('/game')], followed by the
    properties of the engine.  Around the engine: the buttons of a response
    ([shuffleArray], the [intents]), the user records and the POD score
    ([getUserRecord], [updateUserRecord], [updateUserTie],
    [getTotalGamesPlayed], [calculatePODScore]) and the board a shared game
    shows ([renderBoard], [app.frame('/shared-game')]).

    Conventions of the embedding.
    - JavaScript values are the inductive [value]; an array is a
      [list value] read with stdpp's lookup and written with [array_set].
      Numbers are integers.  A string is the sequence of its bytes.
    - A call that may throw returns a [completion].
    - [Math.random()] is an explicit source of draws [RNG]; a draw is a
      rational in place of the double the platform returns.
    - In-place mutation of the board is explicit state passing: a function
      that writes to its [board] argument returns the board it leaves.
    - The [users] collection of the database is a function from user ids
      to documents; a write that is started and not awaited is applied.
      The numbers of a score are rationals.
    - [JSON.stringify], [JSON.parse], [Buffer] and [parseInt] belong to the
      platform, not to the repository.  They are defined here after their
      documented behaviour, on the texts the server exchanges: ASCII text,
      integer number literals.
    - The sources hold the server at three stages.  The main text follows
      the latest one, the second half of [src/api/index.tsx].  The first one
      ([src/unnamed/part_000], also the first half of [src/api/index.tsx]) is
      [Module Legacy].  [src/unnamed/part_001] stands between them: the
      handler of the latest stage on the states and the codec of the first. *)

From Stdlib Require Import ZArith QArith Qround String Ascii List Bool Lia Lqa.
From Stdlib Require Import Decimal DecimalString DecimalNat.
From stdpp Require Import base list.
Import ListNotations.

Local Open Scope string_scope.
Local Open Scope nat_scope.
Local Open Scope list_scope.

(** ** Runtime values *)

#[warnings="-register-all"]
Inductive value : Type :=
| VUndefined
| VNull
| VBool (b : bool)
| VNum (n : Z)
| VStr (s : string)
| VArr (elems : list value)
| VObj (fields : list (string * value)).

(** Truthiness, as used by [&&], [||], [!] and [if]. *)
Definition truthy (v : value) : bool :=
  match v with
  | VUndefined | VNull => false
  | VBool b => b
  | VNum n => negb (n =? 0)%Z
  | VStr s => negb (s =? "")%string
  | VArr _ | VObj _ => true
  end.

(** [a === b].  Arrays and objects compare by identity; the engine only
    compares the contents of two different cells of a board, or a cell with
    [null], so two arrays or two objects met here are never the same object. *)
Definition strict_eq (a b : value) : bool :=
  match a, b with
  | VUndefined, VUndefined => true
  | VNull, VNull => true
  | VBool x, VBool y => Bool.eqb x y
  | VNum x, VNum y => (x =? y)%Z
  | VStr x, VStr y => (x =? y)%string
  | _, _ => false
  end.

(** [board[i]]: reading past the end of an array gives [undefined]. *)
Definition index (a : list value) (i : nat) : value :=
  default VUndefined (a !! i).

(** [a[i] = v]: writing past the end extends the array; the skipped
    positions read as [undefined]. *)
Definition array_set (a : list value) (i : nat) (v : value) : list value :=
  if decide (i < length a) then <[i:=v]> a
  else a ++ replicate (i - length a) VUndefined ++ [v].

(** ** Completions *)

(** A call either returns or throws. *)
Inductive exn := SyntaxError | TypeError.

Inductive completion (A : Type) : Type :=
| Normal (a : A)
| Throw (e : exn).
Arguments Normal {A} a.
Arguments Throw {A} e.

Definition bind {A B} (c : completion A) (k : A -> completion B) : completion B :=
  match c with
  | Normal a => k a
  | Throw e => Throw e
  end.

Notation "'let*' x := c 'in' k" := (bind c (fun x => k))
  (at level 10, x name, c at level 100, k at level 200).

(** ** Win detection *)

Definition winPatterns : list (nat * nat * nat) :=
  [ (0, 1, 2); (3, 4, 5); (6, 7, 8);   (* rows *)
    (0, 3, 6); (1, 4, 7); (2, 5, 8);   (* columns *)
    (0, 4, 8); (2, 4, 6) ].            (* diagonals *)

Definition checkWin (board : list value) : bool :=
  existsb (fun pattern : nat * nat * nat =>
             let '(p0, p1, p2) := pattern in
             truthy (index board p0)
             && strict_eq (index board p0) (index board p1)
             && strict_eq (index board p0) (index board p2))
          winPatterns.

(** ** The computer opponent *)

(** The source of [Math.random()] draws: draw number [k] of a run is [g k].
    The comparisons of a draw with [0.2] and [0.7] and its product with a
    length are exact operations on rationals. *)
Definition RNG : Type := nat -> Q.

Definition Math_random (g : RNG) : Q * RNG := (g 0, fun k => g (S k)).

(** [board.reduce((acc, cell, index) => { if (cell === null) acc.push(index);
    return acc }, [])] *)
Definition availableMoves (board : list value) : list nat :=
  fst (fold_left
         (fun (st : list nat * nat) (cell : value) =>
            let '(acc, i) := st in
            (if strict_eq cell VNull then acc ++ [i] else acc, S i))
         board ([], 0)).

(** [moves[Math.floor(r * moves.length)]]; [None] stands for [undefined]. *)
Definition pickMove (moves : list nat) (r : Q) : option nat :=
  let k := Qfloor (r * inject_Z (Z.of_nat (length moves))) in
  if (k <? 0)%Z then None else moves !! Z.to_nat k.

(** [board.filter(cell => cell !== null).length] *)
Definition marksOnBoard (board : list value) : nat :=
  length (List.filter (fun cell => negb (strict_eq cell VNull)) board).

(** One of the two [for (let i = 0; i < 9; i++)] loops: [todo] cells remain
    to be tried from index [i] on.  Each empty cell receives [mark], the board
    is tested, and the cell is set back to [null]; the result is the cell
    returned from inside the loop, if any, and the board the loop leaves. *)
Fixpoint tryCells (mark : string) (todo i : nat) (board : list value)
  : option nat * list value :=
  match todo with
  | 0 => (None, board)
  | S todo' =>
      if strict_eq (index board i) VNull then
        let board1 := array_set board i (VStr mark) in
        if checkWin board1 then (Some i, array_set board1 i VNull)
        else tryCells mark todo' (S i) (array_set board1 i VNull)
      else tryCells mark todo' (S i) board
  end.

(** The [return] statement of [getBestMove] a call leaves by.  This label is
    not computed by the source; it names the branch for the statements below. *)
Inductive Rule := Mistake | Opening | Win | Block | Center | Fallback.

Record Choice := mkChoice {
  returned : option nat;      (* the returned index, [None] for [undefined] *)
  rule : Rule;
  boardAfter : list value;    (* the contents of the [board] argument on return *)
  rngAfter : RNG
}.

(** [player === 'X' ? 'O' : 'X'] *)
Definition opponentOf (player : string) : string :=
  if (player =? "X")%string then "O" else "X".

Definition getBestMove (board : list value) (player : string) (g : RNG) : Choice :=
  let opponent := opponentOf player in
  let '(r, g) := Math_random g in
  if Qlt_le_dec r (2 # 10) then
    let '(r, g) := Math_random g in
    mkChoice (pickMove (availableMoves board) r) Mistake board g
  else if marksOnBoard board =? 1 then
    let '(r, g) := Math_random g in
    mkChoice (pickMove (availableMoves board) r) Opening board g
  else
    match tryCells player 9 0 board with
    | (Some i, board) => mkChoice (Some i) Win board g
    | (None, board) =>
        match tryCells opponent 9 0 board with
        | (Some i, board) => mkChoice (Some i) Block board g
        | (None, board) =>
            let fallback (g : RNG) :=
              let '(r, g) := Math_random g in
              mkChoice (pickMove (availableMoves board) r) Fallback board g in
            if strict_eq (index board 4) VNull then
              let '(r, g) := Math_random g in
              if Qlt_le_dec r (7 # 10) then mkChoice (Some 4) Center board g
              else fallback g
            else fallback g
        end
    end.

(** ** Text *)

(** A string is the sequence of its bytes; text is ASCII (more generally
    well-formed UTF-8), on which [Buffer.from(s)] and [buf.toString()] are
    the identity. *)

Definition dquote : ascii := "034"%char.
Definition backslash : ascii := "092"%char.

(** [s.startsWith(p)], returning what follows the prefix. *)
Fixpoint strip_prefix (p s : string) : option string :=
  match p, s with
  | EmptyString, _ => Some s
  | String a p', String b s' =>
      if (a =? b)%char then strip_prefix p' s' else None
  | String _ _, EmptyString => None
  end.

(** [s.split(sep)] for a one-character separator. *)
Fixpoint split (sep : ascii) (s : string) : list string :=
  match s with
  | EmptyString => [EmptyString]
  | String c s' =>
      if (c =? sep)%char then EmptyString :: split sep s'
      else match split sep s' with
           | x :: xs => String c x :: xs
           | [] => [String c EmptyString]
           end
  end.

Definition digitValue (c : ascii) : option Z :=
  let n := Z.of_N (N_of_ascii c) in
  if (48 <=? n)%Z && (n <=? 57)%Z then Some (n - 48)%Z else None.

Definition hexValue (c : ascii) : option Z :=
  let n := Z.of_N (N_of_ascii c) in
  if (48 <=? n)%Z && (n <=? 57)%Z then Some (n - 48)%Z
  else if (97 <=? n)%Z && (n <=? 102)%Z then Some (n - 87)%Z
  else if (65 <=? n)%Z && (n <=? 70)%Z then Some (n - 55)%Z
  else None.

(** The leading digits of [s] in base [radix], read after [acc], and what
    follows them. *)
Fixpoint readDigits (digit : ascii -> option Z) (radix acc : Z) (s : string)
  : Z * string :=
  match s with
  | EmptyString => (acc, s)
  | String c s' =>
      match digit c with
      | Some d => readDigits digit radix (radix * acc + d)%Z s'
      | None => (acc, s)
      end
  end.

Definition startsWithDigit (digit : ascii -> option Z) (s : string) : bool :=
  match s with
  | String c _ => match digit c with Some _ => true | None => false end
  | EmptyString => false
  end.

Definition isSpace (c : ascii) : bool :=
  let n := N_of_ascii c in
  ((9 <=? n) && (n <=? 13) || (n =? 32))%N.

Fixpoint trimStart (s : string) : string :=
  match s with
  | String c s' => if isSpace c then trimStart s' else s
  | EmptyString => s
  end.

(** [parseInt(s)]: leading white space, a sign, an optional [0x] prefix and
    the longest run of digits; [None] stands for [NaN].  The argument
    [undefined] reads as the text "undefined", which has no digits. *)
Definition parseInt (arg : option string) : option Z :=
  match arg with
  | None => None
  | Some s =>
      let s := trimStart s in
      let '(sign, s) :=
        match s with
        | String "-" s' => ((-1)%Z, s')
        | String "+" s' => (1%Z, s')
        | _ => (1%Z, s)
        end in
      let '(digit, radix, s) :=
        match s with
        | String "0" (String "x" s') | String "0" (String "X" s') =>
            (hexValue, 16%Z, s')
        | _ => (digitValue, 10%Z, s)
        end in
      if startsWithDigit digit s
      then Some (sign * fst (readDigits digit radix 0 s))%Z
      else None
  end.

(** ** [Buffer]: base64 *)

(** The platform's base64 codec, on byte strings. *)

Definition base64Alphabet : list ascii :=
  list_ascii_of_string
    "ABCDEFGHIJKLMNOPQRSTUVWXYZabcdefghijklmnopqrstuvwxyz0123456789+/".

Definition base64Char (n : N) : ascii := nth (N.to_nat n) base64Alphabet "="%char.

(** [buf.toString('base64')]: three bytes give four characters; a last group
    of one or two bytes is padded with [=]. *)
Fixpoint base64_encode (bytes : string) : string :=
  match bytes with
  | String a (String b (String c rest)) =>
      let '(a, b, c) := (N_of_ascii a, N_of_ascii b, N_of_ascii c) in
      String (base64Char (a / 4))
        (String (base64Char ((a mod 4) * 16 + b / 16))
           (String (base64Char ((b mod 16) * 4 + c / 64))
              (String (base64Char (c mod 64)) (base64_encode rest))))
  | String a (String b EmptyString) =>
      let '(a, b) := (N_of_ascii a, N_of_ascii b) in
      String (base64Char (a / 4))
        (String (base64Char ((a mod 4) * 16 + b / 16))
           (String (base64Char ((b mod 16) * 4)) "="))
  | String a EmptyString =>
      let a := N_of_ascii a in
      String (base64Char (a / 4)) (String (base64Char ((a mod 4) * 16)) "==")
  | EmptyString => EmptyString
  end%N.

(** The value of a base64 character; the URL-safe [-] and [_] are accepted
    for [+] and [/]. *)
Definition unbase64 (c : ascii) : option N :=
  let n := N_of_ascii c in
  (if (65 <=? n) && (n <=? 90) then Some (n - 65)
   else if (97 <=? n) && (n <=? 122) then Some (n - 71)
   else if (48 <=? n) && (n <=? 57) then Some (n + 4)
   else if (n =? 43) || (n =? 45) then Some 62
   else if (n =? 47) || (n =? 95) then Some 63
   else None)%N.

(** The decoder is lenient: characters outside the alphabet are skipped and
    decoding stops at the first [=]. *)
Fixpoint sextets (s : string) : list N :=
  match s with
  | EmptyString => []
  | String c s' =>
      if (c =? "=")%char then []
      else match unbase64 c with
           | Some n => n :: sextets s'
           | None => sextets s'
           end
  end.

Fixpoint bytesOfSextets (l : list N) : string :=
  match l with
  | s0 :: s1 :: s2 :: s3 :: rest =>
      String (ascii_of_N (s0 * 4 + s1 / 16))
        (String (ascii_of_N ((s1 mod 16) * 16 + s2 / 4))
           (String (ascii_of_N ((s2 mod 4) * 64 + s3)) (bytesOfSextets rest)))
  | [s0; s1; s2] =>
      String (ascii_of_N (s0 * 4 + s1 / 16))
        (String (ascii_of_N ((s1 mod 16) * 16 + s2 / 4)) EmptyString)
  | [s0; s1] => String (ascii_of_N (s0 * 4 + s1 / 16)) EmptyString
  | _ => EmptyString
  end%N.

(** [Buffer.from(s, 'base64').toString()] *)
Definition base64_decode (s : string) : string := bytesOfSextets (sextets s).

(** ** [JSON.stringify] *)

(** The platform's serializer, without indentation or replacer. *)

Definition hexDigit (n : N) : ascii :=
  nth (N.to_nat n) (list_ascii_of_string "0123456789abcdef") "0"%char.

(** The text of one character inside a JSON string. *)
Definition escapeChar (c : ascii) : string :=
  let n := N_of_ascii c in
  (if n =? 8 then "\b"
   else if n =? 9 then "\t"
   else if n =? 10 then "\n"
   else if n =? 12 then "\f"
   else if n =? 13 then "\r"
   else if n =? 34 then String backslash (String dquote EmptyString)
   else if n =? 92 then String backslash (String backslash EmptyString)
   else if n <? 32 then
     String.append "\u00"
       (String (hexDigit (n / 16)) (String (hexDigit (n mod 16)) EmptyString))
   else String c EmptyString)%N.

Fixpoint escape (s : string) : string :=
  match s with
  | EmptyString => EmptyString
  | String c s' => (escapeChar c ++ escape s')%string
  end.

Definition quote (s : string) : string :=
  String dquote (escape s ++ String dquote EmptyString)%string.

Fixpoint join (sep : string) (l : list string) : string :=
  match l with
  | [] => EmptyString
  | [x] => x
  | x :: l' => (x ++ sep ++ join sep l')%string
  end.

Definition string_of_Z (n : Z) : string := NilZero.string_of_int (Z.to_int n).
Definition string_of_nat (n : nat) : string := NilZero.string_of_uint (Nat.to_uint n).

Definition is_undefined (v : value) : bool :=
  match v with VUndefined => true | _ => false end.

(** The texts [key:value] of the members of an object. *)
Fixpoint memberTexts (text : value -> string) (fields : list (string * value))
  : list string :=
  match fields with
  | [] => []
  | (k, v) :: fields' =>
      if is_undefined v then memberTexts text fields'
      else (quote k ++ ":" ++ text v)%string :: memberTexts text fields'
  end.

(** The text of a value.  An [undefined] array element is written [null];
    an object member whose value is [undefined] is left out. *)
Fixpoint stringify (v : value) : string :=
  match v with
  | VUndefined | VNull => "null"
  | VBool true => "true"
  | VBool false => "false"
  | VNum n => string_of_Z n
  | VStr s => quote s
  | VArr elems => ("[" ++ join "," (List.map stringify elems) ++ "]")%string
  | VObj fields =>
      ("{" ++ join "," (memberTexts stringify fields) ++ "}")%string
  end.

(** [JSON.stringify(v)]; the result for [undefined] is [undefined]. *)
Definition JSON_stringify (v : value) : option string :=
  match v with
  | VUndefined => None
  | _ => Some (stringify v)
  end.

(** ** [JSON.parse] *)

(** The platform's parser as a recursive descent on the text.  A parsing
    function returns the value read and the text that follows it, or [None]
    for a syntax error. *)

Definition is_ws (c : ascii) : bool :=
  let n := N_of_ascii c in
  ((n =? 32) || (n =? 9) || (n =? 10) || (n =? 13))%N.

Fixpoint skip_ws (s : string) : string :=
  match s with
  | String c s' => if is_ws c then skip_ws s' else s
  | EmptyString => s
  end.

(** The bytes of the code unit of a [\uXXXX] escape. *)
Definition utf8 (cu : Z) : string :=
  (if cu <? 128 then String (ascii_of_N (Z.to_N cu)) EmptyString
   else if cu <? 2048 then
     String (ascii_of_N (Z.to_N (192 + cu / 64)))
       (String (ascii_of_N (Z.to_N (128 + cu mod 64))) EmptyString)
   else
     String (ascii_of_N (Z.to_N (224 + cu / 4096)))
       (String (ascii_of_N (Z.to_N (128 + (cu / 64) mod 64)))
          (String (ascii_of_N (Z.to_N (128 + cu mod 64))) EmptyString)))%Z.

Definition hex4 (a b c d : ascii) : option Z :=
  match hexValue a, hexValue b, hexValue c, hexValue d with
  | Some a, Some b, Some c, Some d => Some (((a * 16 + b) * 16 + c) * 16 + d)%Z
  | _, _, _, _ => None
  end.

Definition prepend (p : string) (r : option (string * string))
  : option (string * string) :=
  match r with
  | Some (s, rest) => Some ((p ++ s)%string, rest)
  | None => None
  end.

(** The characters of a string literal after its opening quote, up to the
    closing quote, and the text that follows. *)
Fixpoint parse_string (s : string) : option (string * string) :=
  match s with
  | EmptyString => None
  | String c s' =>
      if (c =? dquote)%char then Some (EmptyString, s')
      else if (c =? backslash)%char then
        match s' with
        | String e s'' =>
            if (e =? dquote)%char then prepend (String dquote "") (parse_string s'')
            else if (e =? backslash)%char then prepend "\" (parse_string s'')
            else if (e =? "/")%char then prepend "/" (parse_string s'')
            else if (e =? "b")%char then prepend (String "008" "") (parse_string s'')
            else if (e =? "f")%char then prepend (String "012" "") (parse_string s'')
            else if (e =? "n")%char then prepend (String "010" "") (parse_string s'')
            else if (e =? "r")%char then prepend (String "013" "") (parse_string s'')
            else if (e =? "t")%char then prepend (String "009" "") (parse_string s'')
            else if (e =? "u")%char then
              match s'' with
              | String h1 (String h2 (String h3 (String h4 r))) =>
                  match hex4 h1 h2 h3 h4 with
                  | Some cu => prepend (utf8 cu) (parse_string r)
                  | None => None
                  end
              | _ => None
              end
            else None
        | EmptyString => None
        end
      else if (N_of_ascii c <? 32)%N then None
      else prepend (String c "") (parse_string s')
  end.

(** A fraction or an exponent follows. *)
Definition startsFraction (s : string) : bool :=
  match s with
  | String c _ => (c =? ".")%char || (c =? "e")%char || (c =? "E")%char
  | EmptyString => false
  end.

(** An unsigned integer literal: a single zero, or a run of digits that does
    not start with zero. *)
Definition parse_digits (s : string) : option (Z * string) :=
  match s with
  | String c s' =>
      match digitValue c with
      | Some d =>
          Some (if (d =? 0)%Z then (0%Z, s') else readDigits digitValue 10 d s')
      | None => None
      end
  | EmptyString => None
  end.

(** An integer literal, with an optional minus sign.  Literals with a
    fraction or an exponent are outside the embedding and are reported as
    errors. *)
Definition parse_number (s : string) : option (value * string) :=
  let '(sign, s) :=
    match s with
    | String c s' => if (c =? "-")%char then ((-1)%Z, s') else (1%Z, s)
    | EmptyString => (1%Z, s)
    end in
  match parse_digits s with
  | Some (n, rest) =>
      if startsFraction rest then None else Some (VNum (sign * n), rest)
  | None => None
  end.

(** [o[k] = v] on an object: an existing member keeps its place. *)
Fixpoint obj_set (fields : list (string * value)) (k : string) (v : value)
  : list (string * value) :=
  match fields with
  | [] => [(k, v)]
  | (k', v') :: fields' =>
      if (k' =? k)%string then (k, v) :: fields'
      else (k', v') :: obj_set fields' k v
  end.

(** [o[k]] on an object; members are kept in insertion order. *)
Fixpoint obj_get (fields : list (string * value)) (k : string) : value :=
  match fields with
  | [] => VUndefined
  | (k', v) :: fields' => if (k' =? k)%string then v else obj_get fields' k
  end.

(** The elements of an array after the first one has been announced: a value,
    then [,] and more, or the closing bracket. *)
Fixpoint parse_elements (parse : string -> option (value * string))
    (n : nat) (s : string) : option (list value * string) :=
  match n with
  | 0 => None
  | S n' =>
      match parse s with
      | Some (v, r) =>
          match skip_ws r with
          | String c r' =>
              if (c =? ",")%char then
                match parse_elements parse n' r' with
                | Some (vs, r'') => Some (v :: vs, r'')
                | None => None
                end
              else if (c =? "]")%char then Some ([v], r')
              else None
          | EmptyString => None
          end
      | None => None
      end
  end.

(** The members of an object: a key, [:], a value, then [,] and more, or the
    closing brace.  A repeated key overwrites the earlier member. *)
Fixpoint parse_members (parse : string -> option (value * string))
    (n : nat) (acc : list (string * value)) (s : string)
  : option (list (string * value) * string) :=
  match n with
  | 0 => None
  | S n' =>
      match skip_ws s with
      | String q s1 =>
          if (q =? dquote)%char then
            match parse_string s1 with
            | Some (k, s2) =>
                match skip_ws s2 with
                | String colon s3 =>
                    if (colon =? ":")%char then
                      match parse s3 with
                      | Some (v, r) =>
                          let acc := obj_set acc k v in
                          match skip_ws r with
                          | String c r' =>
                              if (c =? ",")%char then parse_members parse n' acc r'
                              else if (c =? "}")%char then Some (acc, r')
                              else None
                          | EmptyString => None
                          end
                      | None => None
                      end
                    else None
                | EmptyString => None
                end
            | None => None
            end
          else None
      | EmptyString => None
      end
  end.

(** One JSON value at the head of [s], after optional white space, and the
    text that follows it.  [fuel] bounds the nesting depth and the number of
    elements of an array or object. *)
Fixpoint parse_value (fuel : nat) (s : string) : option (value * string) :=
  match fuel with
  | 0 => None
  | S fuel' =>
      match skip_ws s with
      | EmptyString => None
      | String c r =>
          if (c =? "n")%char then
            match strip_prefix "ull" r with Some r' => Some (VNull, r') | None => None end
          else if (c =? "t")%char then
            match strip_prefix "rue" r with Some r' => Some (VBool true, r') | None => None end
          else if (c =? "f")%char then
            match strip_prefix "alse" r with Some r' => Some (VBool false, r') | None => None end
          else if (c =? dquote)%char then
            match parse_string r with
            | Some (str, r') => Some (VStr str, r')
            | None => None
            end
          else if (c =? "[")%char then
            match strip_prefix "]" (skip_ws r) with
            | Some r' => Some (VArr [], r')
            | None =>
                match parse_elements (parse_value fuel') fuel' r with
                | Some (vs, r') => Some (VArr vs, r')
                | None => None
                end
            end
          else if (c =? "{")%char then
            match strip_prefix "}" (skip_ws r) with
            | Some r' => Some (VObj [], r')
            | None =>
                match parse_members (parse_value fuel') fuel' [] r with
                | Some (fs, r') => Some (VObj fs, r')
                | None => None
                end
            end
          else parse_number (String c r)
      end
  end.

(** [JSON.parse(text)]: one value, then nothing but white space. *)
Definition JSON_parse (text : string) : completion value :=
  match parse_value (S (String.length text)) text with
  | Some (v, rest) =>
      match skip_ws rest with
      | EmptyString => Normal v
      | String _ _ => Throw SyntaxError
      end
  | None => Throw SyntaxError
  end.

(** ** The state codec *)

(** [Buffer.from(JSON.stringify(state)).toString('base64')] *)
Definition encodeState (state : value) : completion string :=
  match JSON_stringify state with
  | Some text => Normal (base64_encode text)
  | None => Throw TypeError
  end.

(** [v.k] for one of the keys the server reads ([board], [currentPlayer],
    [isGameOver], [difficulty]): a member of an object, [undefined] on any
    other value that has properties, an error on [undefined] and [null]. *)
Definition get (v : value) (k : string) : completion value :=
  match v with
  | VUndefined | VNull => Throw TypeError
  | VObj fields => Normal (obj_get fields k)
  | _ => Normal VUndefined
  end.

Fixpoint indexed {A} (i : nat) (l : list A) : list (string * A) :=
  match l with
  | [] => []
  | x :: l' => (string_of_nat i, x) :: indexed (S i) l'
  end.

(** The members [{...v}] copies: those of an object, the elements of an
    array, the characters of a string, none otherwise. *)
Definition spread (v : value) : list (string * value) :=
  match v with
  | VObj fields => fields
  | VArr elems => indexed 0 elems
  | VStr s => indexed 0 (List.map (fun c => VStr (String c EmptyString))
                                  (list_ascii_of_string s))
  | _ => []
  end.

Definition decodeState (encodedState : string) : completion value :=
  let* decoded := JSON_parse (base64_decode encodedState) in
  let* d := get decoded "difficulty" in
  Normal (VObj (obj_set (spread decoded) "difficulty"
                        (if truthy d then d else VStr "medium"))).

(** ** [GameState] *)

Inductive Player := PlayerO | PlayerX.
Inductive Difficulty := easy | medium | hard.

Record GameState := mkGameState {
  board : list (option string);
  currentPlayer : Player;
  isGameOver : bool;
  difficulty : Difficulty
}.

Definition cellValue (c : option string) : value :=
  match c with
  | Some s => VStr s
  | None => VNull
  end.

Definition playerText (p : Player) : string :=
  match p with PlayerO => "O" | PlayerX => "X" end.

Definition difficultyText (d : Difficulty) : string :=
  match d with easy => "easy" | medium => "medium" | hard => "hard" end.

(** The object a [GameState] is at run time, members in the order of the
    object literal that creates it. *)
Definition toValue (p : GameState) : value :=
  VObj [ ("board", VArr (List.map cellValue (board p)));
         ("currentPlayer", VStr (playerText (currentPlayer p)));
         ("isGameOver", VBool (isGameOver p));
         ("difficulty", VStr (difficultyText (difficulty p))) ].

(** ** The [/game] frame *)

Definition COORDINATES : list string :=
  ["A1"; "A2"; "A3"; "B1"; "B2"; "B3"; "C1"; "C2"; "C3"].

(** The text of [COORDINATES[i]] inside a template string. *)
Definition coordinate (i : option nat) : string :=
  match i with
  | Some i => nth i COORDINATES "undefined"
  | None => "undefined"
  end.

Inductive GameResult := win | lose | draw.

(** The variables of the handler a move request updates. *)
Record Store := mkStore {
  state : value;
  message : string;
  gameResult : option GameResult
}.

(** [board[move]] for [move = parseInt(...)]. *)
Definition cellAt (board : list value) (move : option Z) : value :=
  match move with
  | Some z => if (0 <=? z)%Z then index board (Z.to_nat z) else VUndefined
  | None => VUndefined
  end.

(** [board.every(cell => cell !== null)] *)
Definition boardFull (board : list value) : bool :=
  forallb (fun cell => negb (strict_eq cell VNull)) board.

(** [board[computerMove] = 'X']; with [computerMove] undefined the write
    adds a property named [undefined] and no element. *)
Definition placeComputer (board : list value) (computerMove : option nat)
  : list value :=
  match computerMove with
  | Some i => array_set board i (VStr "X")
  | None => board
  end.

(** [state.k = v] on the state object. *)
Definition assign (st : value) (k : string) (v : value) : value :=
  match st with
  | VObj fields => VObj (obj_set fields k v)
  | _ => st
  end.

Definition takenMessage : string := "That spot is already taken! Choose another.".
Definition gameOverMessage : string := "Game is over. Start a new game!".
Definition errorMessage : string :=
  "An error occurred while processing your move. Please try again.".

(** The [if / else if / else] of the move request, for a state [st] whose
    [board] is the array [board] and whose [isGameOver] is [isGameOver]. *)
Definition playMove (username : string) (st : value) (board : list value)
    (isGameOver : value) (move : option Z) (g : RNG) : Store :=
  if strict_eq (cellAt board move) VNull && negb (truthy isGameOver) then
    let i := Z.to_nat (default 0%Z move) in
    let board := array_set board i (VStr "O") in
    let st := assign st "board" (VArr board) in
    let message := (username ++ " moved at " ++ coordinate (Some i) ++ ".")%string in
    if checkWin board then
      mkStore (assign st "isGameOver" (VBool true))
              (username ++ " wins! Game over.")%string (Some win)
    else if boardFull board then
      mkStore (assign st "isGameOver" (VBool true))
              "Game over! It's a Tie." (Some draw)
    else
      let c := getBestMove board "X" g in
      let board := placeComputer (boardAfter c) (returned c) in
      let st := assign st "board" (VArr board) in
      let message :=
        (message ++ " Computer moved at " ++ coordinate (returned c) ++ ".")%string in
      if checkWin board then
        mkStore (assign st "isGameOver" (VBool true))
                (message ++ " Computer wins! Game over.")%string (Some lose)
      else if boardFull board then
        mkStore (assign st "isGameOver" (VBool true))
                (message ++ " It's a draw. Game over.")%string (Some draw)
      else
        mkStore st (message ++ " Your turn, " ++ username ++ ".")%string None
  else if truthy isGameOver then mkStore st gameOverMessage None
  else mkStore st takenMessage None.

(** The statements of the [try] block after [state = decodeState(...)].
    [state.board[move]] fails on a state without a board.  A board that is
    a string, a number, a boolean or an object is not followed through the
    block: whatever the block does with it, [state.board.reduce] after the
    block fails (see [frame_game]). *)
Definition moveStep (username : string) (st : value) (move : option Z) (g : RNG)
  : completion Store :=
  let* b := get st "board" in
  let* isGameOver := get st "isGameOver" in
  match b with
  | VArr board => Normal (playMove username st board isGameOver move g)
  | _ => Throw TypeError
  end.

Record Response := mkResponse {
  store : Store;
  encodedState : string;        (* the token of the move buttons *)
  available : list nat          (* the cells offered, before the shuffle *)
}.

(** The fresh state of the handler. *)
Definition freshState : value :=
  VObj [ ("board", VArr (replicate 9 VNull));
         ("currentPlayer", VStr "O");
         ("isGameOver", VBool false);
         ("difficulty", VStr "easy") ].

(** The [try { ... } catch] of a move request: what the variables hold when
    the statement is left.  An error raised by [decodeState] leaves [state]
    fresh; a later one leaves it as decoded. *)
Definition tryMove (username buttonValue : string) (g : RNG) (st0 : Store) : Store :=
  let parts := split ":" buttonValue in
  let decoded :=
    match parts !! 1 with
    | Some encodedState => decodeState encodedState
    | None => Throw TypeError
    end in
  match decoded with
  | Throw _ => mkStore (state st0) errorMessage (gameResult st0)
  | Normal st =>
      match moveStep username st (parseInt (parts !! 2)) g with
      | Normal result => result
      | Throw _ => mkStore st errorMessage (gameResult st0)
      end
  end.

(** [app.frame('/game', ...)] up to the list of cells offered as buttons.
    The user statistics written on a win, a loss or a draw, the shuffle of
    the buttons and the rendering are not part of the embedding.  The
    completion is the handler's own: [Throw] is an error that leaves the
    handler uncaught. *)
Definition frame_game (status : string) (buttonValue : option string)
    (username : string) (g : RNG) : completion Response :=
  let st0 :=
    mkStore freshState ("New game started! Your turn, " ++ username)%string None in
  let st :=
    match buttonValue with
    | Some bv =>
        if (status =? "response")%string && negb (bv =? "")%string
           && match strip_prefix "move:" bv with Some _ => true | None => false end
        then tryMove username bv g st0
        else st0
    | None => st0
    end in
  let* token := encodeState (state st) in
  let* b := get (state st) "board" in
  match b with
  | VArr board => Normal (mkResponse st token (availableMoves board))
  | _ => Throw TypeError
  end.

(** The value of a move button: [`move:${encodedState}:${index}`]. *)
Definition moveButtonValue (encodedState index : string) : string :=
  ("move:" ++ encodedState ++ ":" ++ index)%string.

(** ** The first version of the server *)

(** [src/unnamed/part_000], which is also the first half of
    [src/api/index.tsx]: a state has no [difficulty], it is decoded as it is
    parsed, and the handler has no [try] block. *)
Module Legacy.

Definition decodeState (encodedState : string) : completion value :=
  JSON_parse (base64_decode encodedState).

Record GameState := mkGameState {
  board : list (option string);
  currentPlayer : Player;
  isGameOver : bool
}.

Definition toValue (p : GameState) : value :=
  VObj [ ("board", VArr (List.map cellValue (board p)));
         ("currentPlayer", VStr (playerText (currentPlayer p)));
         ("isGameOver", VBool (isGameOver p)) ].

Definition freshState : value :=
  VObj [ ("board", VArr (replicate 9 VNull));
         ("currentPlayer", VStr "O");
         ("isGameOver", VBool false) ].

(** The [if / else if / else] of the move request on the locals [board] and
    [isGameOver]: their values and the message when it is left.  The test
    [computerMove !== -1] always passes, [getBestMove] returning an index or
    [undefined]. *)
Definition playMove (username : string) (board : list value)
    (isGameOver : value) (move : option Z) (g : RNG)
  : list value * value * string :=
  if strict_eq (cellAt board move) VNull && negb (truthy isGameOver) then
    let i := Z.to_nat (default 0%Z move) in
    let board := array_set board i (VStr "O") in
    let message := (username ++ " moved at " ++ coordinate (Some i) ++ ".")%string in
    if checkWin board then
      (board, VBool true, (username ++ " wins! Game over.")%string)
    else if boardFull board then
      (board, VBool true, "Game over! It's a draw.")
    else
      let c := getBestMove board "X" g in
      let board := placeComputer (boardAfter c) (returned c) in
      let message :=
        (message ++ " Computer moved at " ++ coordinate (returned c) ++ ".")%string in
      if checkWin board then
        (board, VBool true, (message ++ " Computer wins! Game over.")%string)
      else if boardFull board then
        (board, VBool true, (message ++ " It's a draw. Game over.")%string)
      else
        (board, isGameOver, (message ++ " Your turn, " ++ username ++ ".")%string)
  else if truthy isGameOver then (board, isGameOver, gameOverMessage)
  else (board, isGameOver, takenMessage).

(** The body of [if (status === 'response' && ...)]: the state is decoded,
    its members are bound to locals, the move is played and the state is
    built again from the locals.  As in [moveStep], a board that is not an
    array is not followed further. *)
Definition moveRequest (username buttonValue : string) (g : RNG) : completion Store :=
  let parts := split ":" buttonValue in
  let* st :=
    match parts !! 1 with
    | Some encodedState => decodeState encodedState
    | None => Throw TypeError
    end in
  let* b := get st "board" in
  let* currentPlayer := get st "currentPlayer" in
  let* isGameOver := get st "isGameOver" in
  match b with
  | VArr board =>
      let '(board, isGameOver, message) :=
        playMove username board isGameOver (parseInt (parts !! 2)) g in
      Normal (mkStore (VObj [ ("board", VArr board);
                              ("currentPlayer", currentPlayer);
                              ("isGameOver", isGameOver) ])
                      message None)
  | _ => Throw TypeError
  end.

(** [app.frame('/game', ...)] of the first version, as far as [frame_game];
    this version has no [gameResult], the field stays empty. *)
Definition frame_game (status : string) (buttonValue : option string)
    (username : string) (g : RNG) : completion Response :=
  let st0 :=
    mkStore freshState ("New game started! Your turn, " ++ username)%string None in
  let* st :=
    match buttonValue with
    | Some bv =>
        if (status =? "response")%string && negb (bv =? "")%string
           && match strip_prefix "move:" bv with Some _ => true | None => false end
        then moveRequest username bv g
        else Normal st0
    | None => Normal st0
    end in
  let* token := encodeState (state st) in
  let* b := get (state st) "board" in
  match b with
  | VArr board => Normal (mkResponse st token (availableMoves board))
  | _ => Throw TypeError
  end.

End Legacy.

(** ** Vocabulary of the statements *)

(** A cell of a game board: [null], ['O'] or ['X']. *)
Definition cell_ok (c : value) : Prop :=
  c = VNull \/ c = VStr "O" \/ c = VStr "X".

Definition is_mark (c : value) : Prop := c = VStr "O" \/ c = VStr "X".

(** A board of nine cells. *)
Definition valid_board (board : list value) : Prop :=
  length board = 9 /\ Forall cell_ok board.

(** [mark] wins at once by taking cell [i]: the cell is empty and the board
    with [mark] placed there passes [checkWin]. *)
Definition winningCell (board : list value) (mark : string) (i : nat) : Prop :=
  board !! i = Some VNull /\ checkWin (<[i:=VStr mark]> board) = true.

(** The empty cells of an array from position [n] on, in ascending order. *)
Fixpoint emptyFrom (n : nat) (cells : list value) : list nat :=
  match cells with
  | [] => []
  | c :: cells' =>
      if strict_eq c VNull then n :: emptyFrom (S n) cells'
      else emptyFrom (S n) cells'
  end.

(** [Math.random() < 0.2] on the first draw: the mistake branch triggers. *)
Definition mistakeTriggers (g : RNG) : Prop := (g 0%nat < 2 # 10)%Q.

(** Every mark of [before] is still there in [after]. *)
Definition keepsMarks (before after : list value) : Prop :=
  forall j c, before !! j = Some c -> c <> VNull -> after !! j = Some c.

(** A run of move requests on one game: each request carries the token of
    the response before it.  A request is the text of the cell index and the
    draws of the interaction. *)
Fixpoint playRequests (username token : string) (requests : list (string * RNG))
  : completion (list Response) :=
  match requests with
  | [] => Normal []
  | (idx, g) :: rest =>
      let* r := frame_game "response" (Some (moveButtonValue token idx)) username g in
      let* rs := playRequests username (encodedState r) rest in
      Normal (r :: rs)
  end.

(** [state.isGameOver] in a response, as a condition. *)
Definition isOver (r : Response) : bool :=
  match get (state (store r)) "isGameOver" with
  | Normal v => truthy v
  | Throw _ => false
  end.

(** Along the responses [isGameOver] never goes from true to false; [over]
    is its value before the first response. *)
Fixpoint neverReverts (over : bool) (responses : list Response) : Prop :=
  match responses with
  | [] => True
  | r :: rest => (over = true -> isOver r = true) /\ neverReverts (isOver r) rest
  end.

(** The number of values in a value. *)
Fixpoint size (v : value) : nat :=
  match v with
  | VArr elems =>
      S ((fix sum (l : list value) : nat :=
            match l with
            | [] => 0
            | x :: l' => size x + sum l'
            end) elems)
  | VObj fields =>
      S ((fix sum (l : list (string * value)) : nat :=
            match l with
            | [] => 0
            | (_, x) :: l' => size x + sum l'
            end) fields)
  | _ => 1
  end.

(** The values [JSON.stringify] writes without loss: no [undefined] inside,
    no repeated key.  (Numbers are left out: their texts are not needed for
    a game state.) *)
Fixpoint printable (v : value) : Prop :=
  match v with
  | VUndefined | VNum _ => False
  | VNull | VBool _ | VStr _ => True
  | VArr elems =>
      (fix all (l : list value) : Prop :=
         match l with
         | [] => True
         | x :: l' => printable x /\ all l'
         end) elems
  | VObj fields =>
      List.NoDup (List.map fst fields)
      /\ (fix all (l : list (string * value)) : Prop :=
            match l with
            | [] => True
            | (_, x) :: l' => printable x /\ all l'
            end) fields
  end.

(** A cell of a [GameState]: [null], ['O'] or ['X']. *)
Definition validCell (c : option string) : Prop :=
  c = None \/ c = Some "O" \/ c = Some "X".

(** A valid [GameState]: a board of nine cells. *)
Definition validGameState (p : GameState) : Prop :=
  length (board p) = 9 /\ Forall validCell (board p).

Definition validLegacyGameState (p : Legacy.GameState) : Prop :=
  length (Legacy.board p) = 9 /\ Forall validCell (Legacy.board p).

(** The text of [v] parses back to [v], whatever follows it, with fuel for
    the values it holds. *)
Definition parses (v : value) : Prop :=
  forall fuel rest, size v <= fuel ->
    parse_value fuel (stringify v ++ rest) = Some (v, rest).

(** A parser that uses up at least one character of its input. *)
Definition consumes (parse : string -> option (value * string)) : Prop :=
  forall s v r, parse s = Some (v, r) -> String.length r < String.length s.

(** ** The move buttons *)

(** [a[j]] on an array whose elements are [A]s; [undefined] stands for the
    value read out of range or at a negative [j]. *)
Definition elementAt {A} (undefined : A) (a : list A) (j : Z) : A :=
  if (j <? 0)%Z then undefined else nth (Z.to_nat j) a undefined.

(** [a[j] = x]: in range the element is replaced, past the end the array
    grows up to [j], and a negative [j] names a property, not an element. *)
Definition elementSet {A} (undefined : A) (a : list A) (j : Z) (x : A) : list A :=
  if (j <? 0)%Z then a
  else if decide (Z.to_nat j < length a) then <[Z.to_nat j:=x]> a
  else a ++ replicate (Z.to_nat j - length a) undefined ++ [x].

(** The loop of [shuffleArray], about to run with counter [i]:
    [j = Math.floor(Math.random() * (i + 1))], then
    [[array[i], array[j]] = [array[j], array[i]]], which reads both elements
    before it writes [array[i]] and then [array[j]]. *)
Fixpoint shuffleLoop {A} (undefined : A) (i : nat) (array : list A) (g : RNG)
  : list A * RNG :=
  match i with
  | 0 => (array, g)
  | S i' =>
      let '(r, g) := Math_random g in
      let j := Qfloor (r * inject_Z (Z.of_nat (i + 1))) in
      let aj := elementAt undefined array j in
      let ai := elementAt undefined array (Z.of_nat i) in
      let array := elementSet undefined array (Z.of_nat i) aj in
      let array := elementSet undefined array j ai in
      shuffleLoop undefined i' array g
  end.

Definition shuffleArray {A} (undefined : A) (array : list A) (g : RNG)
  : list A * RNG :=
  shuffleLoop undefined (length array - 1) array g.

(** The buttons of a [/game] response, by what each one carries; the label
    of a move button is [COORDINATES[index]], [None] for [undefined]. *)
Inductive Intent :=
  | MoveButton (buttonValue : string) (label : option string)
  | NewGame
  | Next (result : option GameResult)
  | YourStats
  | ShareResults (encodedState : string) (result : option GameResult).

(** [`${index}`] for an element of the shuffled moves. *)
Definition indexText (index : option nat) : string :=
  match index with
  | Some i => string_of_nat i
  | None => "undefined"
  end.

(** [shuffleArray(availableMoves).slice(0, 4)]; an element is an index or
    [undefined]. *)
Definition shuffledMoves (availableMoves : list nat) (g : RNG) : list (option nat) :=
  take 4 (fst (shuffleArray None (List.map Some availableMoves) g)).

(** The [intents] of the [/game] response [r]; [g] holds the draws of the
    shuffle. *)
Definition intents (r : Response) (g : RNG) : list Intent :=
  if isOver r then
    [ NewGame; Next (gameResult (store r)); YourStats;
      ShareResults (encodedState r) (gameResult (store r)) ]
  else
    List.map (fun index =>
                MoveButton (moveButtonValue (encodedState r) (indexText index))
                           (index ≫= (COORDINATES !!.)))
             (shuffledMoves (available r) g).

(** ** Vocabulary of the further statements *)

(** Draws as [Math.random()] gives them: in [[0, 1)]. *)
Definition unitDraws (g : RNG) : Prop := forall k, (0 <= g k)%Q /\ (g k < 1)%Q.

(** The number of cells that hold [mark]. *)
Definition countMark (mark : string) (cells : list (option string)) : nat :=
  length (List.filter (fun c => match c with
                                | Some s => (s =? mark)%string
                                | None => false
                                end) cells).

(** The response that carries the game state [p]. *)
Definition respond (p : GameState) (message : string) (result : option GameResult)
  : Response :=
  mkResponse (mkStore (toValue p) message result)
             (base64_encode (stringify (toValue p)))
             (availableMoves (List.map cellValue (board p))).

(** The token of a game state. *)
Definition tokenOf (p : GameState) : string :=
  base64_encode (stringify (toValue p)).

(** The game state a request that is not a move starts from. *)
Definition freshGame : GameState :=
  mkGameState (replicate 9 None) PlayerO false easy.

(** What holds of the state of a game in progress or finished: nine valid
    cells, ['O'] to move, difficulty ['easy'], as many ['X'] as ['O'] or one
    less, and [isGameOver] set exactly on a board with a line or with no
    empty cell; before the end both players have placed the same number of
    marks. *)
Definition consistent (p : GameState) : Prop :=
  validGameState p
  /\ currentPlayer p = PlayerO
  /\ difficulty p = easy
  /\ (countMark "O" (board p) = countMark "X" (board p)
      \/ countMark "O" (board p) = S (countMark "X" (board p)))
  /\ (isGameOver p = false ->
      countMark "O" (board p) = countMark "X" (board p))
  /\ (isGameOver p = true <->
      checkWin (List.map cellValue (board p)) = true
      \/ boardFull (List.map cellValue (board p)) = true).


(** The cells after the reply of the computer, [None] for [undefined]. *)
Definition replyOn (cells : list (option string)) (reply : option nat)
  : list (option string) :=
  match reply with
  | Some k => <[k:=Some "X"]> cells
  | None => cells
  end.


(** ** User records *)

(** The collection [users] of the database: a document for some user ids,
    and in a document a number for some field names.  The fields are
    counters: in this program documents are only written by the increments
    below. *)
Definition Doc : Type := string -> option Z.
Definition Users : Type := string -> option Doc.

(** What [getDb()] gives: the collection, or [None] when the call raises
    (each function below catches that error). *)
Definition Db : Type := option Users.

Record UserRecord := mkUserRecord {
  wins : Z;
  losses : Z;
  ties : Z;
  easyWins : Z;
  mediumWins : Z;
  hardWins : Z
}.

(** [userData?.field || 0] on a counter. *)
Definition orZero (field : option Z) : Z :=
  match field with
  | Some n => n
  | None => 0%Z
  end.

Definition noRecord : UserRecord := mkUserRecord 0 0 0 0 0 0.

Definition getUserRecord (db : Db) (fid : string) : UserRecord :=
  match db with
  | None => noRecord
  | Some users =>
      match users fid with
      | None => noRecord
      | Some userData =>
          mkUserRecord (orZero (userData "wins")) (orZero (userData "losses"))
                       (orZero (userData "ties")) (orZero (userData "easyWins"))
                       (orZero (userData "mediumWins"))
                       (orZero (userData "hardWins"))
      end
  end.

Definition getTotalGamesPlayed (db : Db) (fid : string) : Z :=
  match db with
  | None => 0%Z
  | Some users =>
      match users fid with
      | None => 0%Z
      | Some userData =>
          let wins := orZero (userData "wins") in
          let losses := orZero (userData "losses") in
          let ties := orZero (userData "ties") in
          (wins + losses + ties)%Z
      end
  end.

(** [userRef.set(update, { merge: true })] for an [update] that holds
    [FieldValue.increment(1)] under each of the names [update]: the document
    is created if there is none, each named field goes up by one, a missing
    one counting as zero, and the other fields stay. *)
Definition set_merge (users : Users) (fid : string) (update : list string) : Users :=
  fun id =>
    if (id =? fid)%string then
      let doc : Doc :=
        match users fid with
        | Some doc => doc
        | None => fun _ => None
        end in
      Some (fun field =>
              if existsb (String.eqb field) update
              then Some (orZero (doc field) + 1)%Z
              else doc field)
    else users id.

Definition updateUserRecord (db : Db) (fid : string) (isWin : bool)
    (difficulty : string) : Db :=
  match db with
  | None => None
  | Some users =>
      let update := [if isWin then "wins"%string else "losses"%string] in
      let update :=
        if isWin then update ++ [(difficulty ++ "Wins")%string] else update in
      Some (set_merge users fid update)
  end.

Definition updateUserTie (db : Db) (fid : string) : Db :=
  match db with
  | None => None
  | Some users => Some (set_merge users fid ["ties"%string])
  end.

(** ** The POD score *)

(** Numbers are rationals here; [Math.floor] and [Math.round] (half up). *)
Definition Math_floor (x : Q) : Q := inject_Z (Qfloor x).
Definition Math_round (x : Q) : Q := inject_Z (Qfloor (x + (1 # 2))).

Definition calculatePODScore (wins ties losses totalGames tokenBalance : Q) : Q :=
  let baseScore := (wins * 2 + ties + losses * (5 # 10))%Q in
  let gamesBonusScore := if Qle_bool 25 totalGames then 10%Q else 0%Q in
  let tokenBonusScore := (Math_floor tokenBalance * 25)%Q in
  let totalScore := (baseScore + gamesBonusScore + tokenBonusScore)%Q in
  (Math_round (totalScore * 10) / 10)%Q.

(** The score the [/share] frame shows for the user [fid], who holds
    [thepodTokenBalance] tokens; without a user it stays at its initial
    value. *)
Definition share_podScore (db : Db) (fid : option string) (thepodTokenBalance : Q)
  : Q :=
  match fid with
  | None => 0%Q
  | Some fid =>
      let userRecord := getUserRecord db fid in
      let totalGamesPlayed := getTotalGamesPlayed db fid in
      calculatePODScore (inject_Z (wins userRecord)) (inject_Z (ties userRecord))
                        (inject_Z (losses userRecord)) (inject_Z totalGamesPlayed)
                        thepodTokenBalance
  end.

(** A write of the statistics, as the [/game] handler makes them:
    [updateUserRecord(fid, isWin, difficulty)] or [updateUserTie(fid)]. *)
Inductive StatsCall :=
  | RecordResult (fid : string) (isWin : bool) (difficulty : string)
  | RecordTie (fid : string).

Definition runCall (db : Db) (call : StatsCall) : Db :=
  match call with
  | RecordResult fid isWin difficulty => updateUserRecord db fid isWin difficulty
  | RecordTie fid => updateUserTie db fid
  end.

(** The user a write is for. *)
Definition userOf (call : StatsCall) : string :=
  match call with
  | RecordResult fid _ _ => fid
  | RecordTie fid => fid
  end.

(** A field of a document of the database, if any. *)
Definition readField (db : Db) (fid field : string) : option Z :=
  match db with
  | Some users =>
      match users fid with
      | Some doc => doc field
      | None => None
      end
  | None => None
  end.

(** A write whose difficulty is one of the three of the type
    [GameState]. *)
Definition typedCall (call : StatsCall) : Prop :=
  match call with
  | RecordResult _ _ difficulty => exists level, difficulty = difficultyText level
  | RecordTie _ => True
  end.

(** The database with no document. *)
Definition emptyDb : Db := Some (fun _ => None).

(** ** The statistics of a game *)

(** The text of a value inside a template string. *)
Fixpoint templateText (v : value) : string :=
  match v with
  | VUndefined => "undefined"
  | VNull => "null"
  | VBool true => "true"
  | VBool false => "false"
  | VNum n => string_of_Z n
  | VStr s => s
  | VArr elems =>
      join "," (List.map (fun e => match e with
                                   | VUndefined | VNull => ""%string
                                   | _ => templateText e
                                   end) elems)
  | VObj _ => "[object Object]"
  end.

(** The write the [/game] handler starts in the branch that sets
    [gameResult], for a user [fid] that is set:
    [updateUserRecordAsync(fid, true, state.difficulty)] with ['win'],
    [updateUserRecordAsync(fid, false, state.difficulty)] with ['lose'],
    [updateUserTieAsync(fid)] with ['draw'].  The call is not awaited.
    [st] holds the variables at the end of the move request, on a state
    whose board is an array (see [moveStep]). *)
Definition statsCall (fid : option string) (st : Store) : option StatsCall :=
  match fid, gameResult st with
  | Some fid, Some result =>
      let difficulty :=
        match get (state st) "difficulty" with
        | Normal d => templateText d
        | Throw _ => "undefined"%string
        end in
      Some match result with
           | win => RecordResult fid true difficulty
           | lose => RecordResult fid false difficulty
           | draw => RecordTie fid
           end
  | _, _ => None
  end.

(** ** Showing a board *)




(** * Properties *)

(** ** Values and arrays *)

Lemma strict_eq_null v : strict_eq v VNull = true <-> v = VNull.
Proof. destruct v; simpl; split; congruence. Qed.

Lemma index_null_lookup (a : list value) i :
  index a i = VNull <-> a !! i = Some VNull.
Proof.
  unfold index. destruct (a !! i) as [v|]; simpl; split; congruence.
Qed.

Lemma array_set_in_range (a : list value) i v :
  i < length a -> array_set a i v = <[i:=v]> a.
Proof. intros H. unfold array_set. destruct (decide (i < length a)); [done | lia]. Qed.

(** Placing a mark on an empty cell and setting the cell back to [null]
    gives the array back. *)
Lemma array_set_restore (a : list value) i v :
  a !! i = Some VNull -> array_set (array_set a i v) i VNull = a.
Proof.
  intros H. pose proof (lookup_lt_Some _ _ _ H) as Hlt.
  rewrite (array_set_in_range a) by done.
  rewrite array_set_in_range by (rewrite length_insert; done).
  rewrite list_insert_insert_eq. by apply list_insert_id.
Qed.

(** ** The search loops of [getBestMove] *)

Lemma tryCells_board mark todo : forall i board,
  snd (tryCells mark todo i board) = board.
Proof.
  induction todo as [|todo IH]; intros i board; simpl; [done|].
  destruct (strict_eq (index board i) VNull) eqn:E; [|apply IH].
  apply strict_eq_null, index_null_lookup in E.
  destruct (checkWin _); simpl.
  - by apply array_set_restore.
  - rewrite array_set_restore by done. apply IH.
Qed.

Lemma tryCells_step mark todo i board :
  tryCells mark (S todo) i board =
    if strict_eq (index board i) VNull then
      if checkWin (array_set board i (VStr mark)) then (Some i, board)
      else tryCells mark todo (S i) board
    else tryCells mark todo (S i) board.
Proof.
  simpl. destruct (strict_eq (index board i) VNull) eqn:E; [|done].
  apply strict_eq_null, index_null_lookup in E.
  by rewrite array_set_restore.
Qed.

Lemma winningCell_test board mark i :
  winningCell board mark i <->
  strict_eq (index board i) VNull = true
  /\ checkWin (array_set board i (VStr mark)) = true.
Proof.
  unfold winningCell. rewrite strict_eq_null, index_null_lookup.
  split; intros [H1 H2]; split; try done.
  - rewrite array_set_in_range; [done | by eapply lookup_lt_Some].
  - rewrite array_set_in_range in H2; [done | by eapply lookup_lt_Some].
Qed.

Lemma tryCells_found mark todo : forall i board k,
  fst (tryCells mark todo i board) = Some k ->
  i <= k < i + todo /\ winningCell board mark k
  /\ forall j, i <= j < k -> ~ winningCell board mark j.
Proof.
  induction todo as [|todo IH]; intros i board k; [done|].
  rewrite tryCells_step. intros H.
  destruct (strict_eq (index board i) VNull) eqn:E1;
    [destruct (checkWin (array_set board i (VStr mark))) eqn:E2|].
  - simpl in H. injection H as <-. split; [lia|]. split.
    + by apply winningCell_test.
    + intros j Hj. lia.
  - apply IH in H as (Hk & Hw & Hmin). split; [lia|]. split; [done|].
    intros j Hj. destruct (decide (j = i)) as [->|Hne].
    + rewrite winningCell_test. intros [_ ?]. congruence.
    + apply Hmin. lia.
  - apply IH in H as (Hk & Hw & Hmin). split; [lia|]. split; [done|].
    intros j Hj. destruct (decide (j = i)) as [->|Hne].
    + rewrite winningCell_test. intros [? _]. congruence.
    + apply Hmin. lia.
Qed.

Lemma tryCells_none mark todo : forall i board,
  fst (tryCells mark todo i board) = None ->
  forall j, i <= j < i + todo -> ~ winningCell board mark j.
Proof.
  induction todo as [|todo IH]; intros i board H j Hj; [lia|].
  rewrite tryCells_step in H.
  destruct (strict_eq (index board i) VNull) eqn:E1;
    [destruct (checkWin (array_set board i (VStr mark))) eqn:E2|];
    [done| |];
    (destruct (decide (j = i)) as [->|Hne];
     [rewrite winningCell_test; intros [? ?]; congruence
     | apply (IH _ _ H); lia]).
Qed.

Lemma tryCells_eq mark todo i board :
  tryCells mark todo i board = (fst (tryCells mark todo i board), board).
Proof.
  rewrite <- (tryCells_board mark todo i board) at 3. apply surjective_pairing.
Qed.

(** On a board of nine cells the loop finds the least winning cell, if there
    is one. *)
Lemma tryCells_least mark board :
  length board = 9 ->
  (exists i, winningCell board mark i) ->
  exists i, fst (tryCells mark 9 0 board) = Some i
            /\ winningCell board mark i
            /\ forall j, winningCell board mark j -> i <= j.
Proof.
  intros Hlen [i0 Hi0].
  destruct (fst (tryCells mark 9 0 board)) as [k|] eqn:E.
  - apply tryCells_found in E as (_ & Hw & Hmin).
    exists k. repeat split; try apply Hw.
    intros j Hj. destruct (decide (k <= j)) as [|Hn]; [done|].
    exfalso. apply (Hmin j); [lia | done].
  - exfalso. apply (tryCells_none _ _ _ _ E i0); [|done].
    destruct Hi0 as [H _]. apply lookup_lt_Some in H. lia.
Qed.

Lemma tryCells_no_win mark board :
  (forall i, ~ winningCell board mark i) ->
  fst (tryCells mark 9 0 board) = None.
Proof.
  intros H. destruct (fst (tryCells mark 9 0 board)) as [k|] eqn:E; [|done].
  apply tryCells_found in E as (_ & Hw & _). by destruct (H k).
Qed.

(** ** Win detection *)

Lemma strict_eq_str s v : strict_eq (VStr s) v = true <-> v = VStr s.
Proof.
  destruct v; simpl; split; try congruence.
  - intros H. apply String.eqb_eq in H. by subst.
  - intros [= ->]. apply String.eqb_refl.
Qed.

Lemma index_str_lookup (a : list value) i s :
  index a i = VStr s <-> a !! i = Some (VStr s).
Proof.
  unfold index. destruct (a !! i) as [v|]; simpl; split; congruence.
Qed.

Lemma line_test board p0 p1 p2 :
  Forall cell_ok board ->
  truthy (index board p0)
  && strict_eq (index board p0) (index board p1)
  && strict_eq (index board p0) (index board p2) = true
  <-> exists m, is_mark m /\ board !! p0 = Some m
                /\ board !! p1 = Some m /\ board !! p2 = Some m.
Proof.
  intros Hok. rewrite !andb_true_iff. split.
  - intros [[Ht H1] H2].
    assert (Hi : index board p0 = default VUndefined (board !! p0)) by done.
    destruct (board !! p0) as [c|] eqn:E0; simpl in Hi; rewrite Hi in *;
      [|done].
    assert (Hc : cell_ok c).
    { rewrite Forall_forall in Hok. apply Hok, list_elem_of_lookup. eauto. }
    destruct Hc as [-> | [-> | ->]]; [done| |].
    + apply strict_eq_str, index_str_lookup in H1, H2.
      exists (VStr "O"). unfold is_mark. auto.
    + apply strict_eq_str, index_str_lookup in H1, H2.
      exists (VStr "X"). unfold is_mark. auto.
  - intros (m & Hm & E0 & E1 & E2). unfold index. rewrite E0, E1, E2. simpl.
    destruct Hm as [-> | ->]; done.
Qed.

(** C2.  On a board of nine cells, each [null], ['O'] or ['X'], [checkWin]
    answers [true] exactly when one of the eight fixed triples (three rows,
    three columns, two diagonals) holds the same mark ['O'] or ['X'] three
    times; three empty cells in a row are no win, and the empty board has
    none. *)
Theorem checkWin_iff_three_in_line (board : list value) :
  valid_board board ->
  (checkWin board = true <->
   exists p0 p1 p2 m,
     In (p0, p1, p2)
        [ (0, 1, 2); (3, 4, 5); (6, 7, 8);
          (0, 3, 6); (1, 4, 7); (2, 5, 8);
          (0, 4, 8); (2, 4, 6) ]
     /\ is_mark m
     /\ board !! p0 = Some m /\ board !! p1 = Some m /\ board !! p2 = Some m)
  /\ (forall p0 p1 p2,
        board !! p0 = Some VNull -> board !! p1 = Some VNull ->
        board !! p2 = Some VNull ->
        ~ exists m, is_mark m /\ board !! p0 = Some m
                    /\ board !! p1 = Some m /\ board !! p2 = Some m)
  /\ checkWin (replicate 9 VNull) = false.
Proof.
  intros [_ Hok]. split; [|split; [|reflexivity]].
  - unfold checkWin. rewrite existsb_exists. split.
    + intros ([[p0 p1] p2] & Hin & Ht).
      apply (line_test _ _ _ _ Hok) in Ht as (m & Hm).
      exists p0, p1, p2, m. split; [exact Hin | exact Hm].
    + intros (p0 & p1 & p2 & m & Hin & Hm).
      exists (p0, p1, p2). split; [exact Hin|].
      apply (line_test _ _ _ _ Hok). by exists m.
  - intros p0 p1 p2 E0 _ _ (m & Hm & E0' & _).
    rewrite E0 in E0'. injection E0' as <-. destruct Hm; discriminate.
Qed.

Lemma checkWin_iff_three_in_line_witness :
  valid_board [VStr "X"; VNull; VStr "O"; VNull; VStr "X"; VStr "O";
               VNull; VNull; VStr "X"]
  /\ checkWin [VStr "X"; VNull; VStr "O"; VNull; VStr "X"; VStr "O";
               VNull; VNull; VStr "X"] = true.
Proof.
  assert (Hv : valid_board [VStr "X"; VNull; VStr "O"; VNull; VStr "X";
                            VStr "O"; VNull; VNull; VStr "X"]).
  { split; [reflexivity|].
    repeat (apply List.Forall_cons; [unfold cell_ok; auto|]). apply List.Forall_nil. }
  split; [exact Hv|].
  apply (proj1 (checkWin_iff_three_in_line _ Hv)).
  exists 0, 4, 8, (VStr "X").
  split; [simpl; tauto|]. split; [by right|]. by repeat split.
Defined.

(** ** The five return statements of [getBestMove] *)

Lemma getBestMove_mistake board player g :
  mistakeTriggers g ->
  getBestMove board player g =
    mkChoice (pickMove (availableMoves board) (g 1)) Mistake board
             (fun k => g (S (S k))).
Proof.
  intros H. unfold getBestMove, Math_random.
  destruct (Qlt_le_dec (g 0) (2 # 10)) as [_|Hle]; [done|].
  exfalso. by apply (Qle_not_lt _ _ Hle).
Qed.

Lemma getBestMove_opening board player g :
  ~ mistakeTriggers g -> marksOnBoard board = 1 ->
  getBestMove board player g =
    mkChoice (pickMove (availableMoves board) (g 1)) Opening board
             (fun k => g (S (S k))).
Proof.
  intros H Hone. unfold getBestMove, Math_random.
  destruct (Qlt_le_dec (g 0) (2 # 10)) as [Hlt|_]; [done|].
  by rewrite Hone.
Qed.

Lemma getBestMove_win board player g i :
  ~ mistakeTriggers g -> marksOnBoard board <> 1 ->
  fst (tryCells player 9 0 board) = Some i ->
  getBestMove board player g = mkChoice (Some i) Win board (fun k => g (S k)).
Proof.
  intros H Hone E. unfold getBestMove, Math_random.
  destruct (Qlt_le_dec (g 0) (2 # 10)) as [Hlt|_]; [done|].
  apply Nat.eqb_neq in Hone. rewrite Hone.
  by rewrite tryCells_eq, E.
Qed.

Lemma getBestMove_block board player g i :
  ~ mistakeTriggers g -> marksOnBoard board <> 1 ->
  fst (tryCells player 9 0 board) = None ->
  fst (tryCells (opponentOf player) 9 0 board) = Some i ->
  getBestMove board player g = mkChoice (Some i) Block board (fun k => g (S k)).
Proof.
  intros H Hone E1 E2. unfold getBestMove, Math_random.
  destruct (Qlt_le_dec (g 0) (2 # 10)) as [Hlt|_]; [done|].
  apply Nat.eqb_neq in Hone. rewrite Hone.
  rewrite tryCells_eq, E1. by rewrite tryCells_eq, E2.
Qed.

Lemma getBestMove_quiet board player g :
  ~ mistakeTriggers g -> marksOnBoard board <> 1 ->
  fst (tryCells player 9 0 board) = None ->
  fst (tryCells (opponentOf player) 9 0 board) = None ->
  getBestMove board player g =
    if strict_eq (index board 4) VNull then
      if Qlt_le_dec (g 1) (7 # 10)
      then mkChoice (Some 4) Center board (fun k => g (S (S k)))
      else mkChoice (pickMove (availableMoves board) (g 2)) Fallback board
                    (fun k => g (S (S (S k))))
    else mkChoice (pickMove (availableMoves board) (g 1)) Fallback board
                  (fun k => g (S (S k))).
Proof.
  intros H Hone E1 E2. unfold getBestMove, Math_random.
  destruct (Qlt_le_dec (g 0) (2 # 10)) as [Hlt|_]; [done|].
  apply Nat.eqb_neq in Hone. rewrite Hone.
  rewrite tryCells_eq, E1. rewrite tryCells_eq, E2.
  destruct (strict_eq (index board 4) VNull); [|done].
  by destruct (Qlt_le_dec (g 1) (7 # 10)).
Qed.

(** The board [getBestMove] leaves is the board it was given. *)
Lemma getBestMove_boardAfter board player g :
  boardAfter (getBestMove board player g) = board.
Proof.
  unfold getBestMove, Math_random.
  destruct (Qlt_le_dec (g 0) (2 # 10)); [done|].
  destruct (marksOnBoard board =? 1); [done|].
  rewrite tryCells_eq. destruct (fst (tryCells player 9 0 board)); [done|].
  rewrite tryCells_eq.
  destruct (fst (tryCells (opponentOf player) 9 0 board)); [done|].
  destruct (strict_eq (index board 4) VNull); [|done].
  by destruct (Qlt_le_dec (g 1) (7 # 10)).
Qed.

(** C9.  Whatever the board, the player and the draws, [getBestMove] returns
    with every cell of its [board] argument as it was at entry: each trial
    placement of the two search loops is undone, in the loop that runs to
    its end as in the one that returns.  Boards with an empty cell are a
    special case. *)
Theorem getBestMove_leaves_board (board : list value) (player : string) (g : RNG) :
  boardAfter (getBestMove board player g) = board
  /\ (forall i, boardAfter (getBestMove board player g) !! i = board !! i)
  /\ (forall mark todo i,
        snd (tryCells mark todo i board) = board).
Proof.
  split; [apply getBestMove_boardAfter|]. split.
  - intros i. by rewrite getBestMove_boardAfter.
  - intros mark todo i. apply tryCells_board.
Qed.

(** C5.  On a board of nine cells, when the mistake branch does not trigger,
    the board does not hold exactly one mark and some empty cell wins at once
    for [player], [getBestMove] returns the least such cell. *)
Theorem getBestMove_takes_least_win (board : list value) (player : string) (g : RNG) :
  length board = 9 ->
  ~ mistakeTriggers g ->
  marksOnBoard board <> 1 ->
  (exists i, winningCell board player i) ->
  exists i, returned (getBestMove board player g) = Some i
            /\ winningCell board player i
            /\ forall j, winningCell board player j -> i <= j.
Proof.
  intros Hlen Hm Hone Hex.
  destruct (tryCells_least player board Hlen Hex) as (i & E & Hw & Hmin).
  exists i. by rewrite (getBestMove_win _ _ _ i).
Qed.

(** C6.  On a board of nine cells, when the mistake branch does not trigger,
    the board does not hold exactly one mark, no empty cell wins at once for
    [player] and some empty cell would win at once for the opposing mark,
    [getBestMove] returns the least such cell. *)
Theorem getBestMove_blocks_least_threat (board : list value) (player : string) (g : RNG) :
  length board = 9 ->
  ~ mistakeTriggers g ->
  marksOnBoard board <> 1 ->
  (forall i, ~ winningCell board player i) ->
  (exists i, winningCell board (opponentOf player) i) ->
  exists i, returned (getBestMove board player g) = Some i
            /\ winningCell board (opponentOf player) i
            /\ forall j, winningCell board (opponentOf player) j -> i <= j.
Proof.
  intros Hlen Hm Hone Hno Hex.
  pose proof (tryCells_no_win player board Hno) as E1.
  destruct (tryCells_least (opponentOf player) board Hlen Hex)
    as (i & E2 & Hw & Hmin).
  exists i. by rewrite (getBestMove_block _ _ _ i).
Qed.

Lemma getBestMove_takes_least_win_witness :
  let board := [VStr "X"; VStr "X"; VNull; VStr "O"; VStr "O"; VNull;
                VNull; VNull; VStr "X"] in
  let g : RNG := fun _ => 1 # 2 in
  winningCell board "X" 2
  /\ exists i, returned (getBestMove board "X" g) = Some i
               /\ winningCell board "X" i
               /\ forall j, winningCell board "X" j -> i <= j.
Proof.
  intros board g.
  assert (Hw : winningCell board "X" 2) by (split; reflexivity).
  split; [exact Hw|].
  apply getBestMove_takes_least_win.
  - reflexivity.
  - unfold mistakeTriggers, Qlt; simpl; lia.
  - intros H; vm_compute in H; discriminate.
  - exists 2. exact Hw.
Defined.

Lemma getBestMove_blocks_least_threat_witness :
  let board := [VStr "O"; VStr "O"; VNull; VStr "X"; VNull; VNull;
                VNull; VNull; VNull] in
  let g : RNG := fun _ => 1 # 2 in
  winningCell board (opponentOf "X") 2
  /\ exists i, returned (getBestMove board "X" g) = Some i
               /\ winningCell board (opponentOf "X") i
               /\ forall j, winningCell board (opponentOf "X") j -> i <= j.
Proof.
  intros board g.
  assert (Hw : winningCell board (opponentOf "X") 2) by (split; reflexivity).
  split; [exact Hw|].
  apply getBestMove_blocks_least_threat.
  - reflexivity.
  - unfold mistakeTriggers, Qlt; simpl; lia.
  - intros H; vm_compute in H; discriminate.
  - intros i [Hi Hc].
    assert (Hlt : i < 9) by (apply lookup_lt_Some in Hi; exact Hi).
    subst board.
    do 9 (destruct i as [|i]; [vm_compute in Hi, Hc; congruence|]).
    simpl in Hlt; lia.
  - exists 2. exact Hw.
Defined.

(** ** The list of available moves *)

Lemma availableMoves_fold cells : forall acc n,
  fold_left
    (fun (st : list nat * nat) (cell : value) =>
       let '(acc, i) := st in
       (if strict_eq cell VNull then acc ++ [i] else acc, S i))
    cells (acc, n)
  = (acc ++ emptyFrom n cells, n + length cells).
Proof.
  induction cells as [|c cells IH]; intros acc n; simpl.
  - by rewrite app_nil_r, Nat.add_0_r.
  - rewrite IH. destruct (strict_eq c VNull).
    + by rewrite <- app_assoc, Nat.add_succ_r.
    + by rewrite Nat.add_succ_r.
Qed.

Lemma availableMoves_emptyFrom board : availableMoves board = emptyFrom 0 board.
Proof. unfold availableMoves. by rewrite availableMoves_fold. Qed.

Lemma elem_of_emptyFrom cells : forall n i,
  In i (emptyFrom n cells) <-> exists k, i = n + k /\ cells !! k = Some VNull.
Proof.
  induction cells as [|c cells IH]; intros n i; simpl.
  - split; [done | by intros (k & _ & ?)].
  - destruct (strict_eq c VNull) eqn:E.
    + apply strict_eq_null in E as ->. simpl. rewrite IH. split.
      * intros [<- | (k & -> & Hk)]; [exists 0 | exists (S k)];
          (split; [lia | done]).
      * intros ([|k] & -> & Hk); [left; lia | right].
        exists k. split; [lia | done].
    + rewrite IH. split.
      * intros (k & -> & Hk). exists (S k). split; [lia | done].
      * intros ([|k] & -> & Hk).
        -- simpl in Hk. injection Hk as ->. done.
        -- exists k. split; [lia | done].
Qed.

Lemma emptyFrom_ge cells : forall n i, In i (emptyFrom n cells) -> n <= i.
Proof. intros n i H. apply elem_of_emptyFrom in H as (k & -> & _). lia. Qed.

Lemma emptyFrom_NoDup cells : forall n, List.NoDup (emptyFrom n cells).
Proof.
  induction cells as [|c cells IH]; intros n; simpl; [constructor|].
  destruct (strict_eq c VNull); [|apply IH].
  constructor; [|apply IH]. intros H. apply emptyFrom_ge in H. lia.
Qed.

Lemma emptyFrom_length cells : forall n,
  length (emptyFrom n cells) + marksOnBoard cells = length cells.
Proof.
  unfold marksOnBoard.
  induction cells as [|c cells IH]; intros n; simpl; [done|].
  destruct (strict_eq c VNull); simpl; rewrite <- (IH (S n)); lia.
Qed.

(** The available moves are the empty cells, each listed once. *)
Lemma availableMoves_spec board :
  (forall i, In i (availableMoves board) <-> board !! i = Some VNull)
  /\ List.NoDup (availableMoves board)
  /\ length (availableMoves board) + marksOnBoard board = length board.
Proof.
  rewrite availableMoves_emptyFrom. split; [|split].
  - intros i. rewrite elem_of_emptyFrom. split.
    + by intros (k & -> & Hk).
    + intros H. by exists i.
  - apply emptyFrom_NoDup.
  - apply emptyFrom_length.
Qed.

(** ** Picking a move with a draw *)

Lemma pickMove_nil r : pickMove [] r = None.
Proof. unfold pickMove. by destruct (_ <? _)%Z. Qed.

(** The draws [r] with [k <= r * n < k + 1] select entry [k] of the [n]
    moves: each entry is selected on an interval of draws of width [1 / n]. *)
Lemma pickMove_interval moves (r : Q) (k : nat) :
  (inject_Z (Z.of_nat k) <= r * inject_Z (Z.of_nat (length moves)))%Q ->
  (r * inject_Z (Z.of_nat (length moves)) < inject_Z (Z.of_nat k + 1))%Q ->
  pickMove moves r = moves !! k.
Proof.
  intros Hlo Hhi. unfold pickMove.
  set (x := (r * inject_Z (Z.of_nat (length moves)))%Q) in *.
  assert (E : Qfloor x = Z.of_nat k).
  { pose proof (Qfloor_le x) as H1. pose proof (Qlt_floor x) as H2.
    assert (Z.of_nat k < Qfloor x + 1)%Z.
    { rewrite Zlt_Qlt. eapply Qle_lt_trans; eassumption. }
    assert (Qfloor x < Z.of_nat k + 1)%Z.
    { rewrite Zlt_Qlt. eapply Qle_lt_trans; eassumption. }
    lia. }
  rewrite E. destruct (Z.ltb_spec (Z.of_nat k) 0); [lia|].
  by rewrite Nat2Z.id.
Qed.

(** A draw in [[0, 1)] selects one of the moves. *)
Lemma pickMove_unit_draw moves (r : Q) :
  moves <> [] -> (0 <= r)%Q -> (r < 1)%Q ->
  exists i, pickMove moves r = Some i /\ In i moves.
Proof.
  intros Hne H0 H1. unfold pickMove.
  set (n := Z.of_nat (length moves)).
  assert (Hn : (0 < n)%Z) by (destruct moves; [done | unfold n; simpl; lia]).
  set (x := (r * inject_Z n)%Q).
  assert (Hx0 : (0 <= x)%Q).
  { unfold x. apply Qmult_le_0_compat; [done|].
    change 0%Q with (inject_Z 0). rewrite <- Zle_Qle. lia. }
  assert (Hx1 : (x < inject_Z n)%Q).
  { unfold x. rewrite <- (Qmult_1_l (inject_Z n)) at 2.
    apply Qmult_lt_compat_r; [|done].
    change 0%Q with (inject_Z 0). rewrite <- Zlt_Qlt. lia. }
  assert (Hf0 : (0 <= Qfloor x)%Z).
  { change 0%Z with (Qfloor 0). by apply Qfloor_resp_le. }
  assert (Hf1 : (Qfloor x < n)%Z).
  { rewrite Zlt_Qlt. eapply Qle_lt_trans; [apply Qfloor_le | done]. }
  destruct (Z.ltb_spec (Qfloor x) 0); [lia|].
  destruct (lookup_lt_is_Some_2 moves (Z.to_nat (Qfloor x))) as [i Hi].
  { unfold n in Hf1. lia. }
  exists i. split; [done|].
  apply list_elem_of_In, list_elem_of_lookup. eauto.
Qed.

(** ** Which branch returns *)

Lemma mistakeTriggers_dec g : {mistakeTriggers g} + {~ mistakeTriggers g}.
Proof.
  unfold mistakeTriggers. destruct (Qlt_le_dec (g 0) (2 # 10)) as [H|H].
  - by left.
  - right. by apply Qle_not_lt.
Qed.

Lemma getBestMove_cases board player g :
  let c := getBestMove board player g in
  (mistakeTriggers g /\ rule c = Mistake)
  \/ (~ mistakeTriggers g /\ marksOnBoard board = 1 /\ rule c = Opening)
  \/ (~ mistakeTriggers g /\ marksOnBoard board <> 1
      /\ exists i, fst (tryCells player 9 0 board) = Some i
                   /\ rule c = Win /\ returned c = Some i)
  \/ (~ mistakeTriggers g /\ marksOnBoard board <> 1
      /\ fst (tryCells player 9 0 board) = None
      /\ exists i, fst (tryCells (opponentOf player) 9 0 board) = Some i
                   /\ rule c = Block /\ returned c = Some i)
  \/ (~ mistakeTriggers g /\ marksOnBoard board <> 1
      /\ fst (tryCells player 9 0 board) = None
      /\ fst (tryCells (opponentOf player) 9 0 board) = None
      /\ (rule c = Center \/ rule c = Fallback)).
Proof.
  intros c. subst c.
  destruct (mistakeTriggers_dec g) as [Hm|Hm].
  { left. by rewrite getBestMove_mistake. }
  right. destruct (decide (marksOnBoard board = 1)) as [Hone|Hone].
  { left. by rewrite getBestMove_opening. }
  right. destruct (fst (tryCells player 9 0 board)) as [i|] eqn:E1.
  { left. rewrite (getBestMove_win _ _ _ i) by done. eauto 10. }
  right.
  destruct (fst (tryCells (opponentOf player) 9 0 board)) as [i|] eqn:E2.
  { left. rewrite (getBestMove_block _ _ _ i) by done. eauto 10. }
  right. rewrite getBestMove_quiet by done.
  repeat (split; [done|]).
  destruct (strict_eq (index board 4) VNull); [|by right].
  destruct (Qlt_le_dec (g 1) (7 # 10)); [by left | by right].
Qed.

(** C7.  On a board of nine cells the opening branch of [getBestMove] is the
    one that returns exactly when the mistake branch has not triggered and
    the board holds exactly one mark.  The branch returns
    [availableMoves[floor(r * 8)]] for the next draw [r]: an empty cell for
    a draw in [[0, 1)], entry [k] of the eight empty cells for the draws with
    [k <= 8 r < k + 1].  With any other number of marks (and no mistake) the
    call goes on to the win test and then to the block test. *)
Theorem opening_branch_scope (board : list value) (player : string) (g : RNG) :
  length board = 9 ->
  let c := getBestMove board player g in
  (rule c = Opening <-> ~ mistakeTriggers g /\ marksOnBoard board = 1)
  /\ (rule c = Opening ->
      returned c = pickMove (availableMoves board) (g 1)
      /\ length (availableMoves board) = 8
      /\ ((0 <= g 1%nat)%Q -> (g 1%nat < 1)%Q ->
          exists i, returned c = Some i /\ board !! i = Some VNull)
      /\ (forall k : nat,
            (inject_Z (Z.of_nat k) <= g 1%nat * 8)%Q ->
            (g 1%nat * 8 < inject_Z (Z.of_nat k + 1))%Q ->
            returned c = availableMoves board !! k))
  /\ (~ mistakeTriggers g -> marksOnBoard board <> 1 ->
      rule c <> Opening
      /\ (rule c = Win <-> exists i, winningCell board player i)
      /\ (rule c = Block <->
          (forall i, ~ winningCell board player i)
          /\ exists i, winningCell board (opponentOf player) i)).
Proof.
  intros Hlen c.
  pose proof (getBestMove_cases board player g) as Hc.
  cbv zeta in Hc. fold c in Hc.
  assert (Hopen : rule c = Opening <-> ~ mistakeTriggers g /\ marksOnBoard board = 1).
  { split.
    - intros Hr. rewrite Hr in Hc.
      destruct Hc as [[_ ?] | [(? & ? & _) | [(_ & _ & ? & _ & ? & _)
        | [(_ & _ & _ & ? & _ & ? & _) | (_ & _ & _ & _ & [?|?])]]]];
        done.
    - intros [Hm Hone]. unfold c. by rewrite getBestMove_opening. }
  split; [exact Hopen|]. split.
  - intros Hr. apply Hopen in Hr as [Hm Hone].
    destruct (availableMoves_spec board) as (Hin & _ & Hcount).
    assert (H8 : length (availableMoves board) = 8) by lia.
    unfold c. rewrite getBestMove_opening by done. simpl.
    split; [done|]. split; [done|]. split.
    + intros H0 H1.
      destruct (pickMove_unit_draw (availableMoves board) (g 1)) as (i & Hi & Hmem);
        try done.
      { intros E. by rewrite E in H8. }
      exists i. split; [done|]. by apply Hin.
    + intros k Hlo Hhi. apply pickMove_interval; by rewrite H8.
  - intros Hm Hone. split; [|split].
    + rewrite Hopen. by intros [_ ?].
    + split.
      * intros Hr. rewrite Hr in Hc.
        destruct Hc as [[_ ?] | [(_ & _ & ?) | [(_ & _ & i & E & _)
          | [(_ & _ & _ & ? & _ & ? & _) | (_ & _ & _ & _ & [?|?])]]]];
          try done.
        exists i. by apply tryCells_found in E as (_ & ? & _).
      * intros Hex.
        destruct (tryCells_least player board Hlen Hex) as (i & E & _).
        unfold c. by rewrite (getBestMove_win _ _ _ i).
    + split.
      * intros Hr. rewrite Hr in Hc.
        destruct Hc as [[_ ?] | [(_ & _ & ?) | [(_ & _ & ? & _ & ? & _)
          | [(_ & _ & E1 & i & E2 & _) | (_ & _ & _ & _ & [?|?])]]]];
          try done.
        split.
        -- intros j Hj. apply (tryCells_none _ _ _ _ E1 j); [|done].
           destruct Hj as [Hj _]. apply lookup_lt_Some in Hj. lia.
        -- exists i. by apply tryCells_found in E2 as (_ & ? & _).
      * intros [Hno Hex].
        pose proof (tryCells_no_win player board Hno) as E1.
        destruct (tryCells_least (opponentOf player) board Hlen Hex) as (i & E2 & _).
        unfold c. by rewrite (getBestMove_block _ _ _ i).
Qed.

Lemma opening_branch_scope_witness :
  let board := [VNull; VNull; VNull; VNull; VStr "O"; VNull;
                VNull; VNull; VNull] in
  let g : RNG := fun _ => 1 # 2 in
  length board = 9
  /\ rule (getBestMove board "X" g) = Opening
  /\ returned (getBestMove board "X" g) = Some 5.
Proof.
  intros board g.
  destruct (opening_branch_scope board "X" g eq_refl) as (Hiff & Hopen & _).
  assert (Hr : rule (getBestMove board "X" g) = Opening).
  { apply Hiff. split.
    - unfold mistakeTriggers, Qlt; simpl; lia.
    - reflexivity. }
  split; [reflexivity|]. split; [exact Hr|].
  destruct (Hopen Hr) as (_ & _ & _ & Hk).
  rewrite (Hk 4).
  - reflexivity.
  - unfold Qle; simpl; lia.
  - unfold Qlt; simpl; lia.
Defined.

(** ** A board without an empty cell *)

Lemma availableMoves_full board :
  (forall i, board !! i <> Some VNull) -> availableMoves board = [].
Proof.
  intros H. destruct (availableMoves board) as [|i l] eqn:E; [done|].
  exfalso. apply (H i). apply (proj1 (availableMoves_spec board)).
  rewrite E. by left.
Qed.

(** C8, amended.  On a board with no empty cell [getBestMove]
    raises no error: every branch reads [availableMoves[k]] in an empty
    array, or finds no cell to try, so the call returns [undefined] and
    leaves the board as it was. *)
Theorem getBestMove_full_board_returns_undefined
    (board : list value) (player : string) (g : RNG) :
  (forall i, board !! i <> Some VNull) ->
  returned (getBestMove board player g) = None
  /\ boardAfter (getBestMove board player g) = board.
Proof.
  intros Hfull. split; [|apply getBestMove_boardAfter].
  pose proof (availableMoves_full board Hfull) as Hav.
  assert (Hno : forall mark i, ~ winningCell board mark i).
  { intros mark i [Hi _]. by apply (Hfull i). }
  destruct (mistakeTriggers_dec g) as [Hm|Hm].
  { rewrite getBestMove_mistake by done. simpl. rewrite Hav. apply pickMove_nil. }
  destruct (decide (marksOnBoard board = 1)) as [Hone|Hone].
  { rewrite getBestMove_opening by done. simpl. rewrite Hav. apply pickMove_nil. }
  rewrite getBestMove_quiet; try done; try (apply tryCells_no_win, Hno).
  destruct (strict_eq (index board 4) VNull) eqn:E.
  { apply strict_eq_null, index_null_lookup in E. by destruct (Hfull 4). }
  simpl. rewrite Hav. apply pickMove_nil.
Qed.

Lemma getBestMove_full_board_returns_undefined_witness :
  let board := [VStr "O"; VStr "X"; VStr "O"; VStr "X"; VStr "O"; VStr "X";
                VStr "X"; VStr "O"; VStr "X"] in
  (forall i, board !! i <> Some VNull)
  /\ returned (getBestMove board "X" (fun _ => 1 # 2)) = None.
Proof.
  intros board.
  assert (Hfull : forall i, board !! i <> Some VNull).
  { intros i. do 9 (destruct i as [|i]; [discriminate|]). discriminate. }
  split; [exact Hfull|].
  apply (getBestMove_full_board_returns_undefined board "X" _ Hfull).
Defined.

(** C8, counterexample.  The specification asks for an error when the
    board has no empty cell; on the full board of a drawn game the call
    completes and its result is [undefined]. *)
Lemma getBestMove_full_board_no_error :
  returned (getBestMove [VStr "O"; VStr "X"; VStr "O"; VStr "X"; VStr "O";
                     VStr "X"; VStr "X"; VStr "O"; VStr "X"]
                    "X" (fun _ => 1 # 2)) = None
  /\ checkWin [VStr "O"; VStr "X"; VStr "O"; VStr "X"; VStr "O";
               VStr "X"; VStr "X"; VStr "O"; VStr "X"] = false.
Proof. split; vm_compute; reflexivity. Qed.

(** ** Strings *)

Lemma string_app_assoc (a b c : string) : ((a ++ b) ++ c = a ++ (b ++ c))%string.
Proof. induction a as [|x a IH]; simpl; [done | by rewrite IH]. Qed.

Lemma string_app_nil_r (a : string) : (a ++ "")%string = a.
Proof. induction a as [|x a IH]; simpl; [done | by rewrite IH]. Qed.

Lemma string_length_app (a b : string) :
  String.length (a ++ b) = String.length a + String.length b.
Proof. induction a as [|x a IH]; simpl; [done | by rewrite IH]. Qed.

(** ** Base64 *)

(** Linear arithmetic with division and remainder by constants. *)
Ltac div_lia := zify; Z.to_euclidean_division_equations; lia.

Lemma unbase64_base64Char (n : N) :
  (n < 64)%N ->
  unbase64 (base64Char n) = Some n /\ (base64Char n =? "=")%char = false.
Proof.
  intros H. assert (Hk : N.to_nat n < 64) by lia. clear H.
  rewrite <- (N2Nat.id n). revert Hk. generalize (N.to_nat n). clear n.
  intros k Hk.
  do 64 (destruct k as [|k]; [vm_compute; split; reflexivity|]). lia.
Qed.

Lemma sextets_cons (n : N) (s : string) :
  (n < 64)%N -> sextets (String (base64Char n) s) = n :: sextets s.
Proof.
  intros H. destruct (unbase64_base64Char n H) as [E1 E2].
  simpl. by rewrite E2, E1.
Qed.

Lemma sextets_pad s : sextets (String "=" s) = [].
Proof. reflexivity. Qed.

Lemma byte_lt (a : ascii) : (N_of_ascii a < 256)%N.
Proof. apply N_ascii_bounded. Qed.

Lemma ascii_of_N_eq (n : N) (a : ascii) : n = N_of_ascii a -> ascii_of_N n = a.
Proof. intros ->. apply ascii_N_embedding. Qed.

Lemma base64_group (a b c : ascii) (rest : string) :
  base64_decode (base64_encode (String a (String b (String c rest))))
  = String a (String b (String c (base64_decode (base64_encode rest)))).
Proof.
  unfold base64_decode.
  change (base64_encode (String a (String b (String c rest)))) with
    (String (base64Char (N_of_ascii a / 4))
       (String (base64Char ((N_of_ascii a mod 4) * 16 + N_of_ascii b / 16))
          (String (base64Char ((N_of_ascii b mod 16) * 4 + N_of_ascii c / 64))
             (String (base64Char (N_of_ascii c mod 64)) (base64_encode rest)))))%N.
  pose proof (byte_lt a) as Ha. pose proof (byte_lt b) as Hb.
  pose proof (byte_lt c) as Hc.
  rewrite !sextets_cons by div_lia.
  cbn [bytesOfSextets].
  repeat (f_equal; try (apply ascii_of_N_eq; div_lia)).
Qed.

Theorem base64_roundtrip (s : string) : base64_decode (base64_encode s) = s.
Proof.
  assert (H : forall n s, String.length s < n ->
                          base64_decode (base64_encode s) = s).
  { clear s. induction n as [|n IH]; intros s Hlen; [lia|].
    destruct s as [|a [|b [|c rest]]].
    - reflexivity.
    - unfold base64_decode. pose proof (byte_lt a) as Ha.
      cbn [base64_encode]. rewrite !sextets_cons by div_lia.
      cbn [bytesOfSextets]. repeat (f_equal; try (apply ascii_of_N_eq; div_lia)).
    - unfold base64_decode. pose proof (byte_lt a) as Ha.
      pose proof (byte_lt b) as Hb.
      cbn [base64_encode]. rewrite !sextets_cons by div_lia.
      cbn [bytesOfSextets]. repeat (f_equal; try (apply ascii_of_N_eq; div_lia)).
    - rewrite base64_group, IH; [done | simpl in Hlen; lia]. }
  apply (H (S (String.length s))). lia.
Qed.

(** ** JSON texts *)

Lemma parse_string_escape (s rest : string) :
  parse_string (escape s ++ String dquote rest) = Some (s, rest).
Proof.
  induction s as [|c s IH].
  - reflexivity.
  - cbn [escape]. rewrite string_app_assoc.
    destruct c as [[] [] [] [] [] [] [] []]; simpl; rewrite IH; reflexivity.
Qed.

Lemma parse_string_quote (s rest : string) :
  exists t, (quote s ++ rest)%string = String dquote t
            /\ parse_string t = Some (s, rest).
Proof.
  exists (escape s ++ String dquote rest)%string. split.
  - unfold quote. simpl. by rewrite string_app_assoc.
  - apply parse_string_escape.
Qed.

(** Induction on values with the hypothesis on every element of an array and
    every member of an object. *)
Lemma value_nested_ind (P : value -> Prop) :
  P VUndefined -> P VNull -> (forall b, P (VBool b)) -> (forall n, P (VNum n)) ->
  (forall s, P (VStr s)) ->
  (forall elems, List.Forall P elems -> P (VArr elems)) ->
  (forall fields, List.Forall (fun kv => P (snd kv)) fields -> P (VObj fields)) ->
  forall v, P v.
Proof.
  intros Hu Hn Hb Hz Hs Ha Ho.
  fix IH 1. intros [| |b|n|s|elems|fields];
    [exact Hu | exact Hn | apply Hb | apply Hz | apply Hs | |].
  - apply Ha. induction elems as [|x l IHl]; constructor; [apply IH | exact IHl].
  - apply Ho. induction fields as [|[k x] l IHl]; constructor;
      [apply IH | exact IHl].
Qed.

Lemma printable_arr elems :
  printable (VArr elems) <-> List.Forall printable elems.
Proof.
  induction elems as [|x l IH]; simpl.
  - split; [constructor | done].
  - split.
    + intros [Hx Hl]. constructor; [done | by apply IH].
    + intros H. inversion H; subst. split; [done | by apply IH].
Qed.

Lemma printable_obj fields :
  printable (VObj fields) <->
  List.NoDup (List.map fst fields)
  /\ List.Forall (fun kv => printable (snd kv)) fields.
Proof.
  simpl. apply and_iff_compat_l.
  induction fields as [|[k x] l IH]; simpl.
  - split; [constructor | done].
  - split.
    + intros [Hx Hl]. constructor; [done | by apply IH].
    + intros H. inversion H; subst. split; [done | by apply IH].
Qed.

Lemma size_arr x l : size (VArr (x :: l)) = size x + size (VArr l).
Proof. simpl. lia. Qed.

Lemma size_obj k x l : size (VObj ((k, x) :: l)) = size x + size (VObj l).
Proof. simpl. lia. Qed.

Lemma size_pos v : 1 <= size v.
Proof. destruct v; simpl; lia. Qed.

(** The first character of the text of a value opens a literal, a string,
    an array or an object. *)
Lemma stringify_head v :
  printable v ->
  exists c t, stringify v = String c t
              /\ List.In c ["n"; "t"; "f"; dquote; "["; "{"]%char.
Proof.
  destruct v as [| |[]|n|s|elems|fields]; simpl; try done; intros _;
    eexists _, _; (split; [reflexivity|]); simpl; tauto.
Qed.

Lemma skip_ws_stringify v rest :
  printable v -> skip_ws (stringify v ++ rest) = (stringify v ++ rest)%string.
Proof.
  intros H. destruct (stringify_head v H) as (c & t & -> & Hc).
  simpl in Hc. by destruct Hc as [<-|[<-|[<-|[<-|[<-|[<-|[]]]]]]].
Qed.

Lemma not_closing_stringify v rest (close : ascii) :
  printable v -> close = "]"%char \/ close = "}"%char ->
  strip_prefix (String close "") (stringify v ++ rest) = None.
Proof.
  intros H Hclose. destruct (stringify_head v H) as (c & t & -> & Hc).
  simpl in Hc.
  destruct Hclose as [-> | ->];
    by destruct Hc as [<-|[<-|[<-|[<-|[<-|[<-|[]]]]]]].
Qed.

Lemma join_cons sep x y l :
  join sep (x :: y :: l) = (x ++ sep ++ join sep (y :: l))%string.
Proof. reflexivity. Qed.

Lemma parse_elements_step fuel n x tail :
  parses x -> size x <= fuel ->
  parse_elements (parse_value fuel) (S n) (stringify x ++ tail)
  = match skip_ws tail with
    | String c r' =>
        if (c =? ",")%char then
          match parse_elements (parse_value fuel) n r' with
          | Some (vs, r'') => Some (x :: vs, r'')
          | None => None
          end
        else if (c =? "]")%char then Some ([x], r')
        else None
    | EmptyString => None
    end.
Proof. intros Hx Sx. cbn [parse_elements]. by rewrite (Hx fuel _ Sx). Qed.

Lemma parse_elements_stringify fuel : forall elems n rest,
  elems <> [] ->
  List.Forall parses elems ->
  List.Forall (fun x => size x <= fuel) elems ->
  length elems <= n ->
  parse_elements (parse_value fuel) n
    (join "," (List.map stringify elems) ++ String "]" rest)
  = Some (elems, rest).
Proof.
  induction elems as [|x l IH]; intros n rest Hne Hp Hs Hn; [done|].
  inversion Hp as [|? ? Hx Hl]; subst. inversion Hs as [|? ? Sx Sl]; subst.
  destruct n as [|n]; [simpl in Hn; lia|].
  destruct l as [|y l].
  - cbn [List.map join]. by rewrite parse_elements_step.
  - specialize (IH n rest).
    cbn [List.map] in *. rewrite join_cons, string_app_assoc.
    rewrite parse_elements_step by done.
    rewrite string_app_assoc.
    remember (join "," (stringify y :: List.map stringify l) ++ String "]" rest)%string
      as tail eqn:E.
    simpl. subst tail. rewrite IH; try done. cbn [length] in *. lia.
Qed.

Lemma obj_set_fresh fields k v :
  ~ List.In k (List.map fst fields) -> obj_set fields k v = fields ++ [(k, v)].
Proof.
  induction fields as [|[k' v'] l IH]; simpl; intros H; [done|].
  destruct (String.eqb_spec k' k) as [->|Hne]; [tauto|].
  rewrite IH; [done | tauto].
Qed.

Lemma member_text_shape k tx r :
  ((quote k ++ ":" ++ tx) ++ r)%string
  = String dquote (escape k ++ String dquote (String ":" (tx ++ r)))%string.
Proof.
  unfold quote. simpl. by rewrite !string_app_assoc.
Qed.

Lemma printable_defined v : printable v -> is_undefined v = false.
Proof. by destruct v. Qed.

Lemma parse_members_step fuel n acc k x tail :
  parses x -> size x <= fuel -> ~ List.In k (List.map fst acc) ->
  parse_members (parse_value fuel) (S n) acc
    ((quote k ++ ":" ++ stringify x) ++ tail)
  = match skip_ws tail with
    | String c r' =>
        if (c =? ",")%char
        then parse_members (parse_value fuel) n (acc ++ [(k, x)]) r'
        else if (c =? "}")%char then Some (acc ++ [(k, x)], r')
        else None
    | EmptyString => None
    end.
Proof.
  intros Hx Sx Hk. rewrite member_text_shape.
  cbn [parse_members]. simpl. rewrite parse_string_escape. simpl.
  rewrite (Hx fuel _ Sx). by rewrite obj_set_fresh.
Qed.

Lemma memberTexts_cons k x l :
  printable x ->
  memberTexts stringify ((k, x) :: l)
  = (quote k ++ ":" ++ stringify x)%string :: memberTexts stringify l.
Proof. intros H. simpl. by rewrite (printable_defined x H). Qed.

Lemma parse_members_stringify fuel : forall fields n acc rest,
  fields <> [] ->
  List.Forall (fun kv => parses (snd kv)) fields ->
  List.Forall (fun kv => printable (snd kv)) fields ->
  List.Forall (fun kv => size (snd kv) <= fuel) fields ->
  length fields <= n ->
  List.NoDup (List.map fst (acc ++ fields)) ->
  parse_members (parse_value fuel) n acc
    (join "," (memberTexts stringify fields) ++ String "}" rest)
  = Some (acc ++ fields, rest).
Proof.
  induction fields as [|[k x] l IH]; intros n acc rest Hne Hp Hpr Hs Hn Hnd;
    [done|].
  inversion Hp as [|? ? Hx Hl]; subst. inversion Hs as [|? ? Sx Sl]; subst.
  inversion Hpr as [|? ? Px Pl]; subst. simpl in Hx, Sx, Px.
  destruct n as [|n]; [simpl in Hn; lia|].
  assert (Hk : ~ List.In k (List.map fst acc)).
  { rewrite List.map_app in Hnd. simpl in Hnd.
    apply List.NoDup_remove_2 in Hnd. rewrite List.in_app_iff in Hnd. tauto. }
  rewrite memberTexts_cons by done.
  destruct l as [|[k' y] l].
  - cbn [memberTexts join]. by rewrite parse_members_step.
  - specialize (IH n (acc ++ [(k, x)]) rest).
    rewrite <- List.app_assoc in IH.
    assert (Py : printable y) by (by inversion Pl).
    rewrite memberTexts_cons in * by done.
    rewrite join_cons, string_app_assoc, parse_members_step by done.
    rewrite string_app_assoc.
    remember (join "," ((quote k' ++ ":" ++ stringify y)%string
                        :: memberTexts stringify l) ++ String "}" rest)%string
      as tail eqn:E.
    simpl. subst tail. apply IH; try done. cbn [length] in *. lia.
Qed.

Lemma size_arr_bounds elems fuel :
  size (VArr elems) <= S fuel ->
  List.Forall (fun x => size x <= fuel) elems /\ length elems <= fuel.
Proof.
  revert fuel. induction elems as [|x l IH]; intros fuel H.
  - split; [constructor | simpl; lia].
  - rewrite size_arr in H. pose proof (size_pos x).
    pose proof (size_pos (VArr l)).
    assert (Hl : size (VArr l) <= S (fuel - size x)) by lia.
    destruct (IH _ Hl) as [IH1 IH2]. split.
    + constructor; [lia|].
      eapply List.Forall_impl; [|exact IH1]. simpl. intros; lia.
    + simpl. lia.
Qed.

Lemma size_obj_bounds fields fuel :
  size (VObj fields) <= S fuel ->
  List.Forall (fun kv => size (snd kv) <= fuel) fields /\ length fields <= fuel.
Proof.
  revert fuel. induction fields as [|[k x] l IH]; intros fuel H.
  - split; [constructor | simpl; lia].
  - rewrite size_obj in H. pose proof (size_pos x).
    pose proof (size_pos (VObj l)).
    assert (Hl : size (VObj l) <= S (fuel - size x)) by lia.
    destruct (IH _ Hl) as [IH1 IH2]. split.
    + constructor; [simpl; lia|].
      eapply List.Forall_impl; [|exact IH1]. simpl. intros; lia.
    + simpl. lia.
Qed.

Lemma parse_value_array fuel r :
  parse_value (S fuel) (String "[" r)
  = match strip_prefix "]" (skip_ws r) with
    | Some r' => Some (VArr [], r')
    | None =>
        match parse_elements (parse_value fuel) fuel r with
        | Some (vs, r') => Some (VArr vs, r')
        | None => None
        end
    end.
Proof. reflexivity. Qed.

Lemma parse_value_object fuel r :
  parse_value (S fuel) (String "{" r)
  = match strip_prefix "}" (skip_ws r) with
    | Some r' => Some (VObj [], r')
    | None =>
        match parse_members (parse_value fuel) fuel [] r with
        | Some (fs, r') => Some (VObj fs, r')
        | None => None
        end
    end.
Proof. reflexivity. Qed.

(** Parsing the text of a printable value gives the value back and leaves
    what follows the text. *)
Theorem parse_stringify v : printable v -> parses v.
Proof.
  induction v as [| |b|n|s|elems IH|fields IH] using value_nested_ind;
    intros Hp fuel rest Hfuel; try done;
    (destruct fuel as [|fuel]; [pose proof (size_pos VNull); simpl in *; lia|]).
  - reflexivity.
  - by destruct b.
  - destruct (parse_string_quote s rest) as (t & E & Ht).
    cbn [stringify]. rewrite E. simpl. by rewrite Ht.
  - apply printable_arr in Hp.
    destruct (size_arr_bounds _ _ Hfuel) as [Hs Hn].
    assert (Hall : List.Forall parses elems).
    { clear -IH Hp. induction IH as [|x l Hx _ IHl]; constructor;
        inversion Hp; subst; auto. }
    cbn [stringify]. rewrite !string_app_assoc.
    destruct elems as [|x l]; [reflexivity|].
    assert (Hx : printable x) by (by inversion Hp).
    set (R := (join "," (List.map stringify (x :: l)) ++ String "]" rest)%string).
    change (parse_value (S fuel) (String "[" R) = Some (VArr (x :: l), rest)).
    rewrite parse_value_array.
    assert (E : strip_prefix "]" (skip_ws R) = None).
    { unfold R. destruct l as [|y l].
      - cbn [List.map join].
        rewrite skip_ws_stringify by done. apply not_closing_stringify; auto.
      - cbn [List.map]. rewrite join_cons, string_app_assoc.
        rewrite skip_ws_stringify by done. apply not_closing_stringify; auto. }
    rewrite E. unfold R. by rewrite parse_elements_stringify.
  - apply printable_obj in Hp as [Hnd Hp].
    destruct (size_obj_bounds _ _ Hfuel) as [Hs Hn].
    assert (Hall : List.Forall (fun kv => parses (snd kv)) fields).
    { clear -IH Hp. induction IH as [|x l Hx _ IHl]; constructor;
        inversion Hp; subst; auto. }
    cbn [stringify]. rewrite !string_app_assoc.
    destruct fields as [|[k x] l]; [reflexivity|].
    assert (Hx : printable x) by (by inversion Hp).
    set (R := (join "," (memberTexts stringify ((k, x) :: l)) ++ String "}" rest)%string).
    change (parse_value (S fuel) (String "{" R) = Some (VObj ((k, x) :: l), rest)).
    rewrite parse_value_object.
    assert (E : strip_prefix "}" (skip_ws R) = None).
    { unfold R. rewrite memberTexts_cons by done.
      destruct (memberTexts stringify l) as [|t ts].
      - cbn [join]. by rewrite member_text_shape.
      - rewrite join_cons, string_app_assoc. by rewrite member_text_shape. }
    rewrite E. unfold R.
    by rewrite (parse_members_stringify fuel ((k, x) :: l) fuel []).
Qed.

Lemma elements_text_length elems :
  List.Forall (fun x => size x <= String.length (stringify x)) elems ->
  size (VArr elems) <= S (String.length (join "," (List.map stringify elems))).
Proof.
  induction elems as [|x l IH]; intros H; [simpl; lia|].
  inversion H as [|? ? Hx Hl]; subst. specialize (IH Hl).
  rewrite size_arr. destruct l as [|y l].
  - simpl in *. lia.
  - cbn [List.map] in *. rewrite join_cons, !string_length_app.
    cbn [String.length]. lia.
Qed.

Lemma members_text_length fields :
  List.Forall (fun kv => printable (snd kv)) fields ->
  List.Forall (fun kv => size (snd kv) <= String.length (stringify (snd kv))) fields ->
  size (VObj fields) <= S (String.length (join "," (memberTexts stringify fields))).
Proof.
  induction fields as [|[k x] l IH]; intros Hp H; [simpl; lia|].
  inversion H as [|? ? Hx Hl]; subst. inversion Hp as [|? ? Px Pl]; subst.
  specialize (IH Pl Hl). simpl in Hx, Px.
  rewrite size_obj, memberTexts_cons by done.
  destruct (memberTexts stringify l) as [|t ts] eqn:E.
  - cbn [join String.length] in *. rewrite !string_length_app.
    cbn [String.length]. lia.
  - rewrite join_cons, !string_length_app. cbn [String.length]. lia.
Qed.

Lemma size_le_text v : printable v -> size v <= String.length (stringify v).
Proof.
  induction v as [| |b|n|s|elems IH|fields IH] using value_nested_ind;
    intros Hp; try done.
  - simpl. lia.
  - destruct b; simpl; lia.
  - simpl. lia.
  - apply printable_arr in Hp.
    assert (Hall : List.Forall (fun x => size x <= String.length (stringify x)) elems).
    { clear -IH Hp. induction IH as [|x l Hx _ IHl]; constructor;
        inversion Hp; subst; auto. }
    pose proof (elements_text_length elems Hall).
    cbn [stringify]. rewrite !string_length_app. cbn [String.length]. lia.
  - apply printable_obj in Hp as [_ Hp].
    assert (Hall : List.Forall
              (fun kv => size (snd kv) <= String.length (stringify (snd kv))) fields).
    { clear -IH Hp. induction IH as [|x l Hx _ IHl]; constructor;
        inversion Hp; subst; auto. }
    pose proof (members_text_length fields Hp Hall).
    cbn [stringify]. rewrite !string_length_app. cbn [String.length]. lia.
Qed.

(** [JSON.parse(JSON.stringify(v))] is [v] for a printable value. *)
Corollary JSON_parse_stringify v :
  printable v -> JSON_parse (stringify v) = Normal v.
Proof.
  intros Hp. unfold JSON_parse.
  rewrite <- (string_app_nil_r (stringify v)) at 2.
  rewrite (parse_stringify v Hp); [done|].
  pose proof (size_le_text v Hp). lia.
Qed.

(** ** The fuel of the parser *)

(** [JSON_parse] gives the parser more fuel than the text has characters.
    The lemmas of this section show that no larger amount changes a
    result: the parser never fails for lack of fuel. *)

Lemma skip_ws_le s : String.length (skip_ws s) <= String.length s.
Proof.
  induction s as [|c s IH]; simpl; [done|].
  destruct (is_ws c); simpl; lia.
Qed.

Lemma strip_prefix_length p : forall s r,
  strip_prefix p s = Some r -> String.length s = String.length p + String.length r.
Proof.
  induction p as [|a p IH]; intros s r; simpl.
  - by intros [= ->].
  - destruct s as [|b s]; [done|]. destruct (a =? b)%char; [|done].
    intros H. apply IH in H. simpl. lia.
Qed.

Lemma prepend_Some p res x r :
  prepend p res = Some (x, r) -> exists x', res = Some (x', r).
Proof. destruct res as [[x' r']|]; simpl; [|done]. intros [= _ ->]. eauto. Qed.

Lemma parse_string_lt s x r :
  parse_string s = Some (x, r) -> String.length r < String.length s.
Proof.
  assert (H : forall n s x r, String.length s <= n ->
            parse_string s = Some (x, r) -> String.length r < String.length s).
  { clear. induction n as [|n IH]; intros s x r Hn.
    - destruct s; [done | simpl in Hn; lia].
    - destruct s as [|c s]; [done|]. cbn [parse_string].
      destruct (c =? dquote)%char; [intros [= _ ->]; simpl; lia|].
      destruct (c =? backslash)%char.
      + destruct s as [|e s]; [done|].
        repeat match goal with
               | |- (if ?b then _ else _) = Some _ -> _ =>
                   destruct b;
                   [intros H; apply prepend_Some in H as (x' & H);
                    apply IH in H; simpl in *; lia|]
               end.
        destruct (e =? "u")%char; [|done].
        destruct s as [|h1 [|h2 [|h3 [|h4 s]]]]; try done.
        destruct (hex4 h1 h2 h3 h4); [|done].
        intros H. apply prepend_Some in H as (x' & H).
        apply IH in H; simpl in *; lia.
      + destruct (N_of_ascii c <? 32)%N; [done|].
        intros H. apply prepend_Some in H as (x' & H).
        apply IH in H; simpl in *; lia. }
  apply (H (String.length s) s x r). lia.
Qed.

Lemma readDigits_le digit radix s : forall acc,
  String.length (snd (readDigits digit radix acc s)) <= String.length s.
Proof.
  induction s as [|c s IH]; intros acc; simpl; [done|].
  destruct (digit c); simpl; [|lia]. specialize (IH (radix * acc + z)%Z). lia.
Qed.

Lemma parse_digits_lt s n r :
  parse_digits s = Some (n, r) -> String.length r < String.length s.
Proof.
  unfold parse_digits. destruct s as [|c s]; [done|].
  destruct (digitValue c) as [d|]; [|done].
  pose proof (readDigits_le digitValue 10 s d) as Hle.
  destruct (d =? 0)%Z.
  - intros [= _ ->]. simpl. lia.
  - intros [= E]. rewrite E in Hle. simpl in *. lia.
Qed.

Lemma parse_number_lt s v r :
  parse_number s = Some (v, r) -> String.length r < String.length s.
Proof.
  unfold parse_number.
  assert (H : forall sign t,
            match parse_digits t with
            | Some (n, rest) =>
                if startsFraction rest then None else Some (VNum (sign * n), rest)
            | None => None
            end = Some (v, r) -> String.length r < String.length t).
  { intros sign t. destruct (parse_digits t) as [[n rest]|] eqn:E; [|done].
    destruct (startsFraction rest); [done|]. intros [= _ ->].
    by apply parse_digits_lt in E. }
  destruct s as [|c s]; [apply H|].
  destruct (c =? "-")%char; [|apply H].
  intros E. apply H in E. simpl. lia.
Qed.

Section Loops.

(** The loops over the elements and the members, for any parser of the
    values that uses up input. *)
Variable parse : string -> option (value * string).
Hypothesis parse_consumes : consumes parse.

Lemma parse_elements_lt n : forall s vs r,
  parse_elements parse n s = Some (vs, r) -> String.length r < String.length s.
Proof.
  induction n as [|n IH]; intros s vs r; [done|]. cbn [parse_elements].
  destruct (parse s) as [[v r1]|] eqn:E1; [|done]. apply parse_consumes in E1.
  pose proof (skip_ws_le r1) as Hws.
  destruct (skip_ws r1) as [|c r2]; [done|]. simpl in Hws.
  destruct (c =? ",")%char.
  - destruct (parse_elements parse n r2) as [[vs' r3]|] eqn:E2; [|done].
    apply IH in E2. intros [= _ ->]. lia.
  - destruct (c =? "]")%char; [|done]. intros [= _ ->]. lia.
Qed.

Lemma parse_members_lt n : forall acc s fs r,
  parse_members parse n acc s = Some (fs, r) -> String.length r < String.length s.
Proof.
  induction n as [|n IH]; intros acc s fs r; [done|].
  cbn [parse_members].
  pose proof (skip_ws_le s) as Hws0.
  destruct (skip_ws s) as [|q s1]; [done|]. simpl in Hws0.
  destruct (q =? dquote)%char; [|done].
  destruct (parse_string s1) as [[k s2]|] eqn:Ek; [|done].
  apply parse_string_lt in Ek.
  pose proof (skip_ws_le s2) as Hws2.
  destruct (skip_ws s2) as [|colon s3]; [done|]. simpl in Hws2.
  destruct (colon =? ":")%char; [|done].
  destruct (parse s3) as [[v r1]|] eqn:E1; [|done]. apply parse_consumes in E1.
  pose proof (skip_ws_le r1) as Hws.
  destruct (skip_ws r1) as [|c r2]; [done|]. simpl in Hws.
  destruct (c =? ",")%char.
  - intros E2. apply IH in E2. lia.
  - destruct (c =? "}")%char; [|done]. intros [= _ ->]. lia.
Qed.

(** The loops give the same result with another parser that agrees on the
    texts no longer than the input, and with any count above its length. *)
Variable parse' : string -> option (value * string).

Lemma parse_elements_fuel n : forall n' s,
  (forall t, String.length t <= String.length s -> parse t = parse' t) ->
  String.length s < n -> String.length s < n' ->
  parse_elements parse n s = parse_elements parse' n' s.
Proof.
  induction n as [|n IH]; intros n' s Hext Hn Hn'; [lia|].
  destruct n' as [|n']; [lia|]. cbn [parse_elements].
  rewrite <- (Hext s) by lia.
  destruct (parse s) as [[v r1]|] eqn:E1; [|done]. apply parse_consumes in E1.
  pose proof (skip_ws_le r1) as Hws.
  destruct (skip_ws r1) as [|c r2]; [done|]. simpl in Hws.
  destruct (c =? ",")%char; [|done].
  rewrite (IH n' r2); [done| |lia|lia].
  intros t Ht. apply Hext. lia.
Qed.

Lemma parse_members_fuel n : forall n' acc s,
  (forall t, String.length t <= String.length s -> parse t = parse' t) ->
  String.length s < n -> String.length s < n' ->
  parse_members parse n acc s = parse_members parse' n' acc s.
Proof.
  induction n as [|n IH]; intros n' acc s Hext Hn Hn'; [lia|].
  destruct n' as [|n']; [lia|]. cbn [parse_members].
  pose proof (skip_ws_le s) as Hws0.
  destruct (skip_ws s) as [|q s1]; [done|]. simpl in Hws0.
  destruct (q =? dquote)%char; [|done].
  destruct (parse_string s1) as [[k s2]|] eqn:Ek; [|done].
  apply parse_string_lt in Ek.
  pose proof (skip_ws_le s2) as Hws2.
  destruct (skip_ws s2) as [|colon s3]; [done|]. simpl in Hws2.
  destruct (colon =? ":")%char; [|done].
  rewrite <- (Hext s3) by lia.
  destruct (parse s3) as [[v r1]|] eqn:E1; [|done]. apply parse_consumes in E1.
  pose proof (skip_ws_le r1) as Hws.
  destruct (skip_ws r1) as [|c r2]; [done|]. simpl in Hws.
  destruct (c =? ",")%char; [|done].
  apply IH; [|lia|lia]. intros t Ht. apply Hext. lia.
Qed.

End Loops.

Lemma parse_value_lt fuel : consumes (parse_value fuel).
Proof.
  induction fuel as [|fuel IH]; intros s v r; [done|]. cbn [parse_value].
  pose proof (skip_ws_le s) as Hws.
  destruct (skip_ws s) as [|c s1] eqn:Es; [done|]. simpl in Hws.
  repeat match goal with
         | |- (if ?b then _ else _) = Some _ -> _ => destruct b
         end.
  - destruct (strip_prefix "ull" s1) as [r'|] eqn:E; [|done].
    apply strip_prefix_length in E. intros [= _ ->]. lia.
  - destruct (strip_prefix "rue" s1) as [r'|] eqn:E; [|done].
    apply strip_prefix_length in E. intros [= _ ->]. lia.
  - destruct (strip_prefix "alse" s1) as [r'|] eqn:E; [|done].
    apply strip_prefix_length in E. intros [= _ ->]. lia.
  - destruct (parse_string s1) as [[x r']|] eqn:E; [|done].
    apply parse_string_lt in E. intros [= _ ->]. lia.
  - pose proof (skip_ws_le s1) as Hws1.
    destruct (strip_prefix "]" (skip_ws s1)) as [r'|] eqn:E.
    + apply strip_prefix_length in E. intros [= _ ->]. simpl in E. lia.
    + destruct (parse_elements (parse_value fuel) fuel s1) as [[vs r']|] eqn:E2;
        [|done].
      apply (parse_elements_lt _ IH) in E2. intros [= _ ->]. lia.
  - pose proof (skip_ws_le s1) as Hws1.
    destruct (strip_prefix "}" (skip_ws s1)) as [r'|] eqn:E.
    + apply strip_prefix_length in E. intros [= _ ->]. simpl in E. lia.
    + destruct (parse_members (parse_value fuel) fuel [] s1) as [[fs r']|] eqn:E2;
        [|done].
      apply (parse_members_lt _ IH) in E2. intros [= _ ->]. lia.
  - intros E. apply parse_number_lt in E. simpl in E. lia.
Qed.

(** More fuel than the text has characters is as good as any larger
    amount. *)
Theorem parse_value_fuel fuel : forall s fuel',
  String.length s < fuel -> fuel <= fuel' ->
  parse_value fuel' s = parse_value fuel s.
Proof.
  induction fuel as [|fuel IH]; intros s fuel' Hs Hf; [lia|].
  destruct fuel' as [|fuel']; [lia|]. cbn [parse_value].
  pose proof (skip_ws_le s) as Hws.
  destruct (skip_ws s) as [|c s1] eqn:Es; [done|]. simpl in Hws.
  assert (Hext : forall t, String.length t <= String.length s1 ->
                           parse_value fuel' t = parse_value fuel t).
  { intros t Ht. apply IH; lia. }
  rewrite (parse_elements_fuel (parse_value fuel') (parse_value_lt fuel')
             (parse_value fuel) fuel' fuel s1) by (done || lia).
  rewrite (parse_members_fuel (parse_value fuel') (parse_value_lt fuel')
             (parse_value fuel) fuel' fuel [] s1) by (done || lia).
  reflexivity.
Qed.

Corollary JSON_parse_fuel text fuel :
  String.length text < fuel ->
  parse_value fuel text = parse_value (S (String.length text)) text.
Proof. intros H. apply parse_value_fuel; lia. Qed.

(** ** The state codec *)

Lemma printable_cells (cells : list (option string)) :
  List.Forall printable (List.map cellValue cells).
Proof. induction cells as [|[s|] l IH]; simpl; constructor; done. Qed.

Lemma printable_toValue p : printable (toValue p).
Proof.
  unfold toValue. apply printable_obj. split.
  - simpl. repeat (constructor; [simpl; intros H; repeat (destruct H as [H|H]; [discriminate|]); exact H|]).
    constructor.
  - repeat constructor; simpl; try done.
    apply printable_arr, printable_cells.
Qed.

Lemma printable_legacyToValue p : printable (Legacy.toValue p).
Proof.
  unfold Legacy.toValue. apply printable_obj. split.
  - simpl. repeat (constructor; [simpl; intros H; repeat (destruct H as [H|H]; [discriminate|]); exact H|]).
    constructor.
  - repeat constructor; simpl; try done.
    apply printable_arr, printable_cells.
Qed.

Lemma decode_encode_text v :
  printable v -> JSON_parse (base64_decode (base64_encode (stringify v))) = Normal v.
Proof. intros H. rewrite base64_roundtrip. by apply JSON_parse_stringify. Qed.

Lemma decodeState_encodeState p :
  decodeState (base64_encode (stringify (toValue p))) = Normal (toValue p).
Proof.
  unfold decodeState. rewrite decode_encode_text by apply printable_toValue.
  unfold toValue. simpl. by destruct (difficulty p).
Qed.

Lemma cellValue_inj c1 c2 : cellValue c1 = cellValue c2 -> c1 = c2.
Proof. destruct c1, c2; simpl; congruence. Qed.

Lemma map_cellValue_inj l1 : forall l2,
  List.map cellValue l1 = List.map cellValue l2 -> l1 = l2.
Proof.
  induction l1 as [|c l1 IH]; intros [|c' l2]; simpl; try done.
  intros [= Hc Hl]. f_equal; [by apply cellValue_inj | by apply IH].
Qed.

Lemma toValue_inj p q : toValue p = toValue q -> p = q.
Proof.
  destruct p as [b1 c1 o1 d1], q as [b2 c2 o2 d2]. unfold toValue. simpl.
  intros [= Hb Hc Ho Hd]. apply map_cellValue_inj in Hb. subst.
  f_equal; [by destruct c1, c2 | by destruct d1, d2].
Qed.

Lemma legacyToValue_inj p q : Legacy.toValue p = Legacy.toValue q -> p = q.
Proof.
  destruct p as [b1 c1 o1], q as [b2 c2 o2]. unfold Legacy.toValue. simpl.
  intros [= Hb Hc Ho]. apply map_cellValue_inj in Hb. subst.
  f_equal; by destruct c1, c2.
Qed.

(** C1.  Decoding the token of a valid game state (nine cells, each [null],
    ['O'] or ['X'], a player, the game-over flag and, where the state carries
    it, a difficulty) gives the state back, field by field: for the states
    with a [difficulty] and [decodeState] of [src/api/index.tsx], and for the
    states without it and the first [decodeState].  Two states with the same
    run-time object are the same state. *)
Theorem codec_roundtrip :
  (forall p : GameState,
     validGameState p ->
     exists token,
       encodeState (toValue p) = Normal token
       /\ decodeState token = Normal (toValue p)
       /\ forall q, decodeState token = Normal (toValue q) -> q = p)
  /\ (forall p : Legacy.GameState,
        validLegacyGameState p ->
        exists token,
          encodeState (Legacy.toValue p) = Normal token
          /\ Legacy.decodeState token = Normal (Legacy.toValue p)
          /\ forall q, Legacy.decodeState token = Normal (Legacy.toValue q) -> q = p).
Proof.
  split; intros p _.
  - exists (base64_encode (stringify (toValue p))).
    split; [reflexivity|]. rewrite decodeState_encodeState.
    split; [reflexivity|]. intros q H. apply toValue_inj. congruence.
  - exists (base64_encode (stringify (Legacy.toValue p))).
    split; [reflexivity|]. unfold Legacy.decodeState.
    rewrite decode_encode_text by apply printable_legacyToValue.
    split; [reflexivity|]. intros q H. apply legacyToValue_inj. congruence.
Qed.

Lemma codec_roundtrip_witness :
  let cells := [Some "O"; Some "X"; None; None; Some "O"; None;
                None; None; Some "X"] in
  let p := mkGameState cells PlayerO false hard in
  let q := Legacy.mkGameState cells PlayerX true in
  validGameState p /\ validLegacyGameState q
  /\ (exists token, encodeState (toValue p) = Normal token
                    /\ decodeState token = Normal (toValue p))
  /\ (exists token, encodeState (Legacy.toValue q) = Normal token
                    /\ Legacy.decodeState token = Normal (Legacy.toValue q)).
Proof.
  intros cells p q.
  assert (Hcells : Forall validCell cells).
  { repeat (apply List.Forall_cons; [unfold validCell; auto|]).
    apply List.Forall_nil. }
  assert (Hp : validGameState p) by (split; [reflexivity | exact Hcells]).
  assert (Hq : validLegacyGameState q) by (split; [reflexivity | exact Hcells]).
  split; [exact Hp|]. split; [exact Hq|]. split.
  - destruct (proj1 codec_roundtrip p Hp) as (token & E & D & _).
    exists token. split; [exact E | exact D].
  - destruct (proj2 codec_roundtrip q Hq) as (token & E & D & _).
    exists token. split; [exact E | exact D].
Defined.

(** ** Move requests *)

Lemma split_no_sep sep t rest :
  List.Forall (fun c => c <> sep) (list_ascii_of_string t) ->
  split sep (t ++ String sep rest) = t :: split sep rest.
Proof.
  induction t as [|c t IH]; simpl; intros H.
  - by rewrite Ascii.eqb_refl.
  - inversion H as [|? ? Hc Ht]; subst.
    apply Ascii.eqb_neq in Hc. rewrite Hc, IH by done. reflexivity.
Qed.


Lemma base64Char_no_colon n : base64Char n <> ":"%char.
Proof.
  unfold base64Char.
  assert (H : List.Forall (fun c => c <> ":"%char) ("="%char :: base64Alphabet)).
  { unfold base64Alphabet. simpl. repeat (constructor; [discriminate|]). constructor. }
  rewrite List.Forall_forall in H. apply H.
  destruct (List.nth_in_or_default (N.to_nat n) base64Alphabet "="%char) as [Hin| ->].
  - by right.
  - by left.
Qed.

Lemma base64_encode_no_colon s :
  List.Forall (fun c => c <> ":"%char) (list_ascii_of_string (base64_encode s)).
Proof.
  assert (H : forall n s, String.length s < n ->
    List.Forall (fun c => c <> ":"%char) (list_ascii_of_string (base64_encode s))).
  { clear s. induction n as [|n IH]; intros s Hlen; [lia|].
    destruct s as [|a [|b [|c rest]]]; cbn [base64_encode list_ascii_of_string].
    - constructor.
    - repeat (constructor; [first [apply base64Char_no_colon | discriminate]|]).
      constructor.
    - repeat (constructor; [first [apply base64Char_no_colon | discriminate]|]).
      constructor.
    - repeat (constructor; [apply base64Char_no_colon|]).
      apply IH. simpl in Hlen. lia. }
  apply (H (S (String.length s))). lia.
Qed.

Lemma split_moveButtonValue text idx :
  split ":" (moveButtonValue (base64_encode text) idx)
  = "move" :: base64_encode text :: split ":" idx.
Proof.
  unfold moveButtonValue.
  change ("move:" ++ base64_encode text ++ ":" ++ idx)%string
    with ("move" ++ String ":" (base64_encode text ++ String ":" idx))%string.
  rewrite split_no_sep by (simpl; repeat (constructor; [discriminate|]); constructor).
  by rewrite split_no_sep by apply base64_encode_no_colon.
Qed.

Lemma parseInt_digit i :
  i <= 9 -> parseInt (Some (string_of_nat i)) = Some (Z.of_nat i).
Proof.
  intros H. do 10 (destruct i as [|i]; [reflexivity|]). lia.
Qed.

(** ** The two rejections *)

Lemma playMove_over username st board over move g :
  truthy over = true ->
  playMove username st board over move g = mkStore st gameOverMessage None.
Proof. intros H. unfold playMove. by rewrite H, andb_false_r. Qed.

Lemma playMove_taken username st board over move g :
  strict_eq (cellAt board move) VNull = false ->
  truthy over = false ->
  playMove username st board over move g = mkStore st takenMessage None.
Proof. intros H1 H2. unfold playMove. by rewrite H1, H2. Qed.

(** A move request that carries the token of a game state runs the move
    step on that state. *)
Lemma tryMove_token username p idx g st0 :
  tryMove username (moveButtonValue (base64_encode (stringify (toValue p))) idx)
          g st0
  = match moveStep username (toValue p) (parseInt (split ":" idx !! 0)) g with
    | Normal result => result
    | Throw _ => mkStore (toValue p) errorMessage (gameResult st0)
    end.
Proof.
  unfold tryMove. rewrite split_moveButtonValue.
  cbn [lookup list_lookup]. simpl (_ !! 1). simpl (_ !! 2).
  by rewrite decodeState_encodeState.
Qed.

Lemma frame_game_token username p idx g :
  frame_game "response"
    (Some (moveButtonValue (base64_encode (stringify (toValue p))) idx))
    username g
  = let st :=
      match moveStep username (toValue p) (parseInt (split ":" idx !! 0)) g with
      | Normal result => result
      | Throw _ => mkStore (toValue p) errorMessage None
      end in
    let* token := encodeState (state st) in
    let* b := get (state st) "board" in
    match b with
    | VArr board => Normal (mkResponse st token (availableMoves board))
    | _ => Throw TypeError
    end.
Proof.
  unfold frame_game.
  change (("response" =? "response")%string) with true.
  change (moveButtonValue (base64_encode (stringify (toValue p))) idx)
    with (String "m" (String "o" (String "v" (String "e" (String ":"
           (base64_encode (stringify (toValue p)) ++ ":" ++ idx)%string))))) at 1 2.
  cbn [strip_prefix String.eqb Ascii.eqb Bool.eqb andb negb].
  change (String "m" (String "o" (String "v" (String "e" (String ":"
           (base64_encode (stringify (toValue p)) ++ ":" ++ idx)%string)))))
    with (moveButtonValue (base64_encode (stringify (toValue p))) idx).
  by rewrite tryMove_token.
Qed.

Lemma lookup_map_cellValue (cells : list (option string)) i :
  List.map cellValue cells !! i = cellValue <$> (cells !! i).
Proof.
  revert i. induction cells as [|c l IH]; intros [|i]; simpl; auto.
Qed.

Lemma parseInt_index i :
  i <= 9 -> parseInt (split ":" (string_of_nat i) !! 0) = Some (Z.of_nat i).
Proof.
  intros H. do 10 (destruct i as [|i]; [reflexivity|]). lia.
Qed.

Lemma cellAt_nat board i : cellAt board (Some (Z.of_nat i)) = index board i.
Proof.
  unfold cellAt. destruct (Z.leb_spec 0 (Z.of_nat i)); [|lia].
  by rewrite Nat2Z.id.
Qed.

Lemma moveStep_toValue username p move g :
  moveStep username (toValue p) move g
  = Normal (playMove username (toValue p) (List.map cellValue (board p))
                     (VBool (isGameOver p)) move g).
Proof. reflexivity. Qed.

Lemma respond_toValue p st message result :
  st = mkStore (toValue p) message result ->
  (let* token := encodeState (state st) in
   let* b := get (state st) "board" in
   match b with
   | VArr board => Normal (mkResponse st token (availableMoves board))
   | _ => Throw TypeError
   end)
  = Normal (mkResponse st (base64_encode (stringify (toValue p)))
                       (availableMoves (List.map cellValue (board p)))).
Proof. intros ->. reflexivity. Qed.

(** A game-over state rejects every move request and comes back as it is. *)
Lemma frame_game_over username p idx g :
  isGameOver p = true ->
  frame_game "response"
    (Some (moveButtonValue (base64_encode (stringify (toValue p))) idx))
    username g
  = Normal (mkResponse (mkStore (toValue p) gameOverMessage None)
                       (base64_encode (stringify (toValue p)))
                       (availableMoves (List.map cellValue (board p)))).
Proof.
  intros Hover. rewrite frame_game_token, moveStep_toValue.
  rewrite playMove_over by (by rewrite Hover).
  cbv zeta. exact (respond_toValue p _ gameOverMessage None eq_refl).
Qed.

(** ** Moves never overwrite a mark *)

Lemma obj_get_set_eq fields k v : obj_get (obj_set fields k v) k = v.
Proof.
  induction fields as [|[k' v'] l IH]; simpl.
  - by rewrite String.eqb_refl.
  - destruct (String.eqb_spec k' k) as [->|Hne]; simpl.
    + by rewrite String.eqb_refl.
    + apply String.eqb_neq in Hne. by rewrite Hne.
Qed.

Lemma obj_get_set_ne fields k k' v :
  k <> k' -> obj_get (obj_set fields k' v) k = obj_get fields k.
Proof.
  intros Hne. induction fields as [|[k0 v0] l IH]; simpl.
  - apply not_eq_sym, String.eqb_neq in Hne. by rewrite Hne.
  - destruct (String.eqb_spec k0 k') as [->|Hne0]; simpl.
    + apply not_eq_sym, String.eqb_neq in Hne. by rewrite Hne.
    + by rewrite IH.
Qed.

Lemma keepsMarks_refl b : keepsMarks b b.
Proof. by intros j c. Qed.

Lemma keepsMarks_trans b1 b2 b3 :
  keepsMarks b1 b2 -> keepsMarks b2 b3 -> keepsMarks b1 b3.
Proof. intros H12 H23 j c Hj Hc. apply H23; [by apply H12 | done]. Qed.

Lemma keepsMarks_place b i v :
  b !! i = Some VNull -> keepsMarks b (array_set b i v).
Proof.
  intros Hi j c Hj Hc.
  rewrite array_set_in_range by (by eapply lookup_lt_Some).
  rewrite list_lookup_insert_ne; [done|]. intros ->. congruence.
Qed.

Lemma pickMove_Some moves r i : pickMove moves r = Some i -> In i moves.
Proof.
  unfold pickMove. destruct (_ <? _)%Z; [done|]. intros H.
  apply list_elem_of_In, list_elem_of_lookup. eauto.
Qed.

(** The cell [getBestMove] returns, if any, is empty. *)
Lemma getBestMove_returns_empty board player g i :
  returned (getBestMove board player g) = Some i -> board !! i = Some VNull.
Proof.
  assert (Hpick : forall r, pickMove (availableMoves board) r = Some i ->
                            board !! i = Some VNull).
  { intros r H. apply pickMove_Some in H.
    by apply (proj1 (availableMoves_spec board)). }
  destruct (mistakeTriggers_dec g) as [Hm|Hm].
  { rewrite getBestMove_mistake by done. apply Hpick. }
  destruct (decide (marksOnBoard board = 1)) as [Hone|Hone].
  { rewrite getBestMove_opening by done. apply Hpick. }
  destruct (fst (tryCells player 9 0 board)) as [k|] eqn:E1.
  { rewrite (getBestMove_win _ _ _ k) by done. intros [= ->].
    by apply tryCells_found in E1 as (_ & [? _] & _). }
  destruct (fst (tryCells (opponentOf player) 9 0 board)) as [k|] eqn:E2.
  { rewrite (getBestMove_block _ _ _ k) by done. intros [= ->].
    by apply tryCells_found in E2 as (_ & [? _] & _). }
  rewrite getBestMove_quiet by done.
  destruct (strict_eq (index board 4) VNull) eqn:E4; [|apply Hpick].
  destruct (Qlt_le_dec (g 1) (7 # 10)); [|apply Hpick].
  intros [= <-]. by apply index_null_lookup, strict_eq_null.
Qed.

Lemma cellAt_null board move :
  strict_eq (cellAt board move) VNull = true ->
  board !! Z.to_nat (default 0%Z move) = Some VNull.
Proof.
  intros H. apply strict_eq_null in H. unfold cellAt in H.
  destruct move as [z|]; [|done]. destruct (0 <=? z)%Z; [|done].
  by apply index_null_lookup.
Qed.

(** The board of the state a move request leaves keeps every mark of the
    board it started from. *)
Lemma playMove_keeps_marks username fields board over move g :
  obj_get fields "board" = VArr board ->
  exists fields' after,
    state (playMove username (VObj fields) board over move g) = VObj fields'
    /\ obj_get fields' "board" = VArr after
    /\ keepsMarks board after.
Proof.
  intros Hb. unfold playMove.
  destruct (strict_eq (cellAt board move) VNull && negb (truthy over)) eqn:E.
  - apply andb_true_iff in E as [E _]. apply cellAt_null in E.
    set (i := Z.to_nat (default 0%Z move)) in *.
    pose proof (keepsMarks_place board i (VStr "O") E) as K1.
    set (b1 := array_set board i (VStr "O")) in *.
    destruct (checkWin b1); [|destruct (boardFull b1)].
    + eexists _, b1. split; [reflexivity|]. split; [|done].
      rewrite obj_get_set_ne by done. apply obj_get_set_eq.
    + eexists _, b1. split; [reflexivity|]. split; [|done].
      rewrite obj_get_set_ne by done. apply obj_get_set_eq.
    + pose proof (getBestMove_returns_empty b1 "X" g) as Hret.
      rewrite getBestMove_boardAfter.
      set (b2 := placeComputer b1 (returned (getBestMove b1 "X" g))).
      assert (K2 : keepsMarks board b2).
      { apply (keepsMarks_trans _ b1); [done|]. unfold b2.
        destruct (returned (getBestMove b1 "X" g)) as [k|]; simpl.
        - apply keepsMarks_place. by apply Hret.
        - apply keepsMarks_refl. }
      destruct (checkWin b2); [|destruct (boardFull b2)];
        eexists _, b2; (split; [reflexivity|]); (split; [|done]);
        cbn [assign]; rewrite ?obj_get_set_ne by done; apply obj_get_set_eq.
  - destruct (truthy over); eexists _, board;
      (split; [reflexivity|]); split; [done | apply keepsMarks_refl | done
                                      | apply keepsMarks_refl].
Qed.

(** Every move request on the token of a game state is answered, and the
    board of the answer keeps the marks of the state. *)
Lemma frame_game_keeps_marks username p idx g :
  exists r after,
    frame_game "response"
      (Some (moveButtonValue (base64_encode (stringify (toValue p))) idx))
      username g = Normal r
    /\ get (state (store r)) "board" = Normal (VArr after)
    /\ keepsMarks (List.map cellValue (board p)) after.
Proof.
  rewrite frame_game_token, moveStep_toValue. cbv zeta.
  destruct (playMove_keeps_marks username
              [ ("board", VArr (List.map cellValue (board p)));
                ("currentPlayer", VStr (playerText (currentPlayer p)));
                ("isGameOver", VBool (isGameOver p));
                ("difficulty", VStr (difficultyText (difficulty p))) ]
              (List.map cellValue (board p)) (VBool (isGameOver p))
              (parseInt (split ":" idx !! 0)) g eq_refl)
    as (fields' & after & Hst & Hget & Hkeep).
  fold (toValue p) in Hst.
  set (st := playMove username (toValue p) (List.map cellValue (board p))
                      (VBool (isGameOver p)) (parseInt (split ":" idx !! 0)) g) in *.
  exists (mkResponse st (base64_encode (stringify (VObj fields')))
                     (availableMoves after)), after.
  rewrite Hst. cbn [encodeState JSON_stringify bind get]. rewrite Hget.
  cbn [store state]. rewrite Hst. cbn [get]. by rewrite Hget.
Qed.

(** C3.  On a valid state that is not over, a move request for a cell that
    already holds a mark is rejected with the message that the spot is
    taken; the response carries the state as it was (every cell,
    [currentPlayer], [isGameOver], [difficulty]) and the same token.  And
    whatever cell a move request names, the board of the response keeps
    every mark the state held: no move overwrites a non-empty cell. *)
Theorem taken_cell_is_rejected
    (p : GameState) (username : string) (i : nat) (mark : string) :
  validGameState p ->
  isGameOver p = false ->
  board p !! i = Some (Some mark) ->
  let token := base64_encode (stringify (toValue p)) in
  encodeState (toValue p) = Normal token
  /\ (forall g,
        frame_game "response"
          (Some (moveButtonValue token (string_of_nat i))) username g
        = Normal (mkResponse (mkStore (toValue p) takenMessage None) token
                             (availableMoves (List.map cellValue (board p)))))
  /\ (forall idx g,
        exists r after,
          frame_game "response" (Some (moveButtonValue token idx)) username g
          = Normal r
          /\ get (state (store r)) "board" = Normal (VArr after)
          /\ forall j c, board p !! j = Some (Some c) ->
                         after !! j = Some (VStr c)).
Proof.
  intros [Hlen _] Hover Hi token. split; [reflexivity|]. split.
  - intros g. unfold token. rewrite frame_game_token, moveStep_toValue.
    assert (Hi9 : i <= 9) by (apply lookup_lt_Some in Hi; lia).
    rewrite parseInt_index by done.
    rewrite playMove_taken.
    + cbv zeta. exact (respond_toValue p _ takenMessage None eq_refl).
    + rewrite cellAt_nat. unfold index.
      by rewrite lookup_map_cellValue, Hi.
    + by rewrite Hover.
  - intros idx g.
    destruct (frame_game_keeps_marks username p idx g)
      as (r & after & Hr & Hget & Hkeep).
    exists r, after. split; [done|]. split; [done|].
    intros j c Hj. apply Hkeep; [|done].
    by rewrite lookup_map_cellValue, Hj.
Qed.

Lemma taken_cell_is_rejected_witness :
  let p := mkGameState [Some "O"; Some "O"; None; Some "X"; Some "X"; None;
                        None; None; None] PlayerO false easy in
  validGameState p
  /\ frame_game "response"
       (Some (moveButtonValue (base64_encode (stringify (toValue p))) "3"))
       "player" (fun _ => 1 # 2)
     = Normal (mkResponse (mkStore (toValue p) takenMessage None)
                          (base64_encode (stringify (toValue p)))
                          [2; 5; 6; 7; 8]).
Proof.
  intros p.
  assert (Hv : validGameState p).
  { split; [reflexivity|].
    repeat (apply List.Forall_cons; [unfold validCell; auto|]).
    apply List.Forall_nil. }
  split; [exact Hv|].
  destruct (taken_cell_is_rejected p "player" 3 "X" Hv eq_refl eq_refl)
    as (_ & Hstep & _).
  exact (Hstep (fun _ => 1 # 2)).
Defined.

(** ** The states of a game *)

Lemma map_cellValue_insert (cells : list (option string)) i c :
  <[i:=cellValue c]> (List.map cellValue cells)
  = List.map cellValue (<[i:=c]> cells).
Proof.
  revert i. induction cells as [|x l IH]; intros [|i]; simpl; try done.
  by rewrite <- IH.
Qed.

Lemma place_on_cells (cells : list (option string)) i mark :
  List.map cellValue cells !! i = Some VNull ->
  array_set (List.map cellValue cells) i (VStr mark)
  = List.map cellValue (<[i:=Some mark]> cells).
Proof.
  intros H. rewrite array_set_in_range by (by eapply lookup_lt_Some).
  apply (map_cellValue_insert cells i (Some mark)).
Qed.

Lemma validCell_insert (cells : list (option string)) i mark :
  mark = "O" \/ mark = "X" ->
  Forall validCell cells -> Forall validCell (<[i:=Some mark]> cells).
Proof.
  intros Hm H. apply Forall_insert; [done|].
  unfold validCell. destruct Hm as [-> | ->]; auto.
Qed.

(** The state a move request leaves is again a [GameState]: the one it
    started from if that one was over, and a valid one if that one was. *)
Lemma playMove_GameState username p move g :
  exists p' message result,
    playMove username (toValue p) (List.map cellValue (board p))
             (VBool (isGameOver p)) move g
    = mkStore (toValue p') message result
    /\ (isGameOver p = true -> p' = p)
    /\ (validGameState p -> validGameState p').
Proof.
  destruct p as [cells player over level]. cbn [board isGameOver].
  unfold playMove.
  destruct (strict_eq (cellAt (List.map cellValue cells) move) VNull) eqn:E;
    cbn [andb].
  2:{ destruct over; cbn [truthy negb];
        eexists (mkGameState cells player _ level), _, _;
        (split; [reflexivity|]); split; done. }
  destruct over; cbn [truthy negb].
  { eexists (mkGameState cells player true level), _, _.
    split; [reflexivity|]. split; done. }
  apply cellAt_null in E. set (i := Z.to_nat (default 0%Z move)) in *.
  rewrite (place_on_cells cells i "O" E).
  set (cells1 := <[i:=Some "O"]> cells).
  assert (V1 : validGameState (mkGameState cells player false level) ->
               length cells1 = 9 /\ Forall validCell cells1).
  { intros [Hlen Hall]. cbn [board] in *. split.
    - unfold cells1. by rewrite length_insert.
    - apply validCell_insert; auto. }
  destruct (checkWin (List.map cellValue cells1));
    [|destruct (boardFull (List.map cellValue cells1))].
  - eexists (mkGameState cells1 player true level), _, _.
    split; [reflexivity|]. split; [done|]. intros Hv. by apply V1.
  - eexists (mkGameState cells1 player true level), _, _.
    split; [reflexivity|]. split; [done|]. intros Hv. by apply V1.
  - rewrite getBestMove_boardAfter.
    pose proof (getBestMove_returns_empty (List.map cellValue cells1) "X" g) as Hret.
    assert (Hplace : exists cells2,
      placeComputer (List.map cellValue cells1)
        (returned (getBestMove (List.map cellValue cells1) "X" g))
      = List.map cellValue cells2
      /\ (length cells1 = 9 /\ Forall validCell cells1 ->
          length cells2 = 9 /\ Forall validCell cells2)).
    { destruct (returned (getBestMove (List.map cellValue cells1) "X" g)) as [k|];
        cbn [placeComputer].
      - exists (<[k:=Some "X"]> cells1). split.
        + by apply place_on_cells, Hret.
        + intros [Hlen Hall]. split.
          * by rewrite length_insert.
          * apply validCell_insert; auto.
      - by exists cells1. }
    destruct Hplace as (cells2 & -> & V2).
    destruct (checkWin (List.map cellValue cells2));
      [|destruct (boardFull (List.map cellValue cells2))].
    + eexists (mkGameState cells2 player true level), _, _.
      split; [reflexivity|]. split; [done|]. intros Hv. by apply V2, V1.
    + eexists (mkGameState cells2 player true level), _, _.
      split; [reflexivity|]. split; [done|]. intros Hv. by apply V2, V1.
    + eexists (mkGameState cells2 player false level), _, _.
      split; [reflexivity|]. split; [done|]. intros Hv. by apply V2, V1.
Qed.

(** Every move request on the token of a [GameState] is answered with the
    token of a [GameState]. *)
Lemma frame_game_GameState username p idx g :
  exists p' message result,
    frame_game "response"
      (Some (moveButtonValue (base64_encode (stringify (toValue p))) idx))
      username g
    = Normal (mkResponse (mkStore (toValue p') message result)
                         (base64_encode (stringify (toValue p')))
                         (availableMoves (List.map cellValue (board p'))))
    /\ (isGameOver p = true -> p' = p)
    /\ (validGameState p -> validGameState p').
Proof.
  destruct (playMove_GameState username p (parseInt (split ":" idx !! 0)) g)
    as (p' & message & result & E & Hover & Hvalid).
  exists p', message, result. split; [|split; done].
  rewrite frame_game_token, moveStep_toValue, E. cbv zeta.
  exact (respond_toValue p' _ message result eq_refl).
Qed.

(** ** A finished game stays finished *)

(** C4.  A move request on a state whose [isGameOver] is [true] applies no
    move: the response carries the same state and the same token, with the
    message that the game is over, whatever the requested cell and the draws
    (so no cell changes and no computer reply is made).  Hence over any run
    of move requests that starts from such a state, each carrying the token of
    the response before it, every response still holds that state; and over
    any run of move requests from any state, [isGameOver] never goes from
    true to false. *)
Theorem game_over_is_final (p : GameState) (username : string) :
  isGameOver p = true ->
  let token := base64_encode (stringify (toValue p)) in
  let rejected :=
    mkResponse (mkStore (toValue p) gameOverMessage None) token
               (availableMoves (List.map cellValue (board p))) in
  encodeState (toValue p) = Normal token
  /\ (forall idx g,
        frame_game "response" (Some (moveButtonValue token idx)) username g
        = Normal rejected)
  /\ (forall requests,
        exists responses,
          playRequests username token requests = Normal responses
          /\ length responses = length requests
          /\ List.Forall (fun r => r = rejected) responses
          /\ List.Forall (fun r => isOver r = true) responses)
  /\ (forall (q : GameState) requests,
        exists responses,
          playRequests username (base64_encode (stringify (toValue q))) requests
          = Normal responses
          /\ neverReverts (isGameOver q) responses).
Proof.
  intros Hover token rejected. split; [reflexivity|].
  assert (Hstep : forall idx g,
    frame_game "response" (Some (moveButtonValue token idx)) username g
    = Normal rejected).
  { intros idx g. by apply frame_game_over. }
  split; [exact Hstep|]. split.
  - induction requests as [|[idx g] rest (responses & E & Hlen & Hall & Hover')].
    + exists []. repeat split; constructor.
    + exists (rejected :: responses). cbn [playRequests].
      rewrite Hstep. cbn [bind encodedState rejected]. fold token. rewrite E.
      repeat split.
      * simpl. by rewrite Hlen.
      * by constructor.
      * constructor; [|done]. unfold isOver. simpl. by rewrite Hover.
  - intros q requests. revert q.
    induction requests as [|[idx g] rest IH]; intros q.
    + by exists [].
    + destruct (frame_game_GameState username q idx g)
        as (q' & message & result & E & Hq & _).
      destruct (IH q') as (responses & E' & Hrest).
      eexists (_ :: responses). cbn [playRequests].
      rewrite E. cbn [bind encodedState]. rewrite E'. split; [reflexivity|].
      assert (Hflag : isOver (mkResponse (mkStore (toValue q') message result)
                        (base64_encode (stringify (toValue q')))
                        (availableMoves (List.map cellValue (board q'))))
                      = isGameOver q') by reflexivity.
      cbn [neverReverts]. rewrite Hflag. split; [|done].
      intros Hq1. by rewrite (Hq Hq1).
Qed.

Lemma game_over_is_final_witness :
  let p := mkGameState [Some "O"; Some "O"; Some "O"; Some "X"; Some "X"; None;
                        None; None; None] PlayerO true easy in
  isGameOver p = true
  /\ frame_game "response"
       (Some (moveButtonValue (base64_encode (stringify (toValue p))) "5"))
       "player" (fun _ => 1 # 2)
     = Normal (mkResponse (mkStore (toValue p) gameOverMessage None)
                          (base64_encode (stringify (toValue p)))
                          [5; 6; 7; 8]).
Proof.
  intros p. split; [reflexivity|].
  destruct (game_over_is_final p "player" eq_refl) as (_ & Hstep & _).
  exact (Hstep "5" (fun _ => 1 # 2)).
Defined.

(** ** Tokens that do not decode *)

(** A token on which [decodeState] throws is answered with the error
    message and a fresh game. *)
Lemma frame_game_decode_error username rest g e :
  match split ":" rest !! 0 with
  | Some encodedState => decodeState encodedState
  | None => Throw TypeError
  end = Throw e ->
  exists token,
    frame_game "response" (Some ("move:" ++ rest)%string) username g
    = Normal (mkResponse (mkStore freshState errorMessage None) token
                         [0; 1; 2; 3; 4; 5; 6; 7; 8]).
Proof.
  intros H. eexists. unfold frame_game.
  change (("response" =? "response")%string) with true.
  cbn [String.append strip_prefix String.eqb Ascii.eqb Bool.eqb andb negb].
  unfold tryMove.
  change (String "m" (String "o" (String "v" (String "e" (String ":" rest)))))
    with ("move" ++ String ":" rest)%string.
  rewrite split_no_sep by (simpl; repeat (constructor; [discriminate|]); constructor).
  change (("move" :: split ":" rest) !! 1) with (split ":" rest !! 0).
  rewrite H. reflexivity.
Qed.

(** C10, on the code.  The token [e30=] is the base64 text of [{}].  It
    decodes without error to an object that has no board; the error raised
    on [state.board[move]] is caught, but [state] already holds the decoded
    object, and [state.board.reduce] after the [try] block raises a second
    error that nothing catches.  A token that is not base64 of JSON text, in
    contrast, is answered with a fresh game; in the first version of the
    handler, which has no [try] block, that token too ends the request with
    an error. *)
Theorem boardless_token_escapes_catch (username : string) (g : RNG) :
  base64_decode "e30=" = "{}"
  /\ decodeState "e30=" = Normal (VObj [("difficulty", VStr "medium")])
  /\ tryMove username "move:e30=:0" g
       (mkStore freshState ("New game started! Your turn, " ++ username)%string None)
     = mkStore (VObj [("difficulty", VStr "medium")]) errorMessage None
  /\ frame_game "response" (Some "move:e30=:0") username g = Throw TypeError
  /\ (exists token,
        frame_game "response" (Some "move:!!!:0") username g
        = Normal (mkResponse (mkStore freshState errorMessage None) token
                             [0; 1; 2; 3; 4; 5; 6; 7; 8]))
  /\ Legacy.frame_game "response" (Some "move:!!!:0") username g
     = Throw SyntaxError.
Proof.
  repeat split; try reflexivity.
  apply (frame_game_decode_error username "!!!:0" g SyntaxError). reflexivity.
Qed.

(** ** Scenarios *)

(** The human completes the top row from [O,O,_,X,X,_,_,_,_]: the win is
    detected, the state is over and the computer makes no move. *)
Example human_wins_top_row :
  let p := mkGameState [Some "O"; Some "O"; None; Some "X"; Some "X"; None;
                        None; None; None] PlayerO false easy in
  let q := mkGameState [Some "O"; Some "O"; Some "O"; Some "X"; Some "X"; None;
                        None; None; None] PlayerO true easy in
  frame_game "response"
    (Some (moveButtonValue (base64_encode (stringify (toValue p))) "2"))
    "player" (fun _ => 1 # 2)
  = Normal (mkResponse (mkStore (toValue q) "player wins! Game over." (Some win))
                       (base64_encode (stringify (toValue q)))
                       [5; 6; 7; 8]).
Proof. vm_compute. reflexivity. Qed.

(** A full board without three in a row: no win, and the board is full. *)
Example drawn_board :
  let b := [VStr "O"; VStr "X"; VStr "O"; VStr "X"; VStr "O"; VStr "X";
            VStr "X"; VStr "O"; VStr "X"] in
  checkWin b = false /\ boardFull b = true.
Proof. split; reflexivity. Qed.

(** The human opens in the centre: the reply to the opening is the opening
    branch; two moves later, with three marks on the board, it is not. *)
Example opening_only_on_first_reply :
  let g : RNG := fun _ => 1 # 2 in
  rule (getBestMove [VNull; VNull; VNull; VNull; VStr "O"; VNull;
                     VNull; VNull; VNull] "X" g) = Opening
  /\ rule (getBestMove [VStr "X"; VNull; VNull; VNull; VStr "O"; VNull;
                        VNull; VNull; VStr "O"] "X" g) = Fallback.
Proof. split; vm_compute; reflexivity. Qed.

(** The computer blocks the top row, and takes its own win before it
    blocks. *)
Example computer_blocks_then_wins :
  let g : RNG := fun _ => 1 # 2 in
  returned (getBestMove [VStr "O"; VStr "O"; VNull; VStr "X"; VNull; VNull;
                         VNull; VNull; VNull] "X" g) = Some 2
  /\ returned (getBestMove [VStr "O"; VStr "O"; VNull; VStr "X"; VStr "X"; VNull;
                            VNull; VNull; VNull] "X" g) = Some 5.
Proof. split; vm_compute; reflexivity. Qed.

(** * Further properties *)

(** ** Button values *)

Lemma readDigits_uint d : forall acc,
  readDigits digitValue 10 (Z.of_nat acc) (NilEmpty.string_of_uint d)
  = (Z.of_nat (Nat.of_uint_acc d acc), ""%string).
Proof.
  induction d as [|d IH|d IH|d IH|d IH|d IH|d IH|d IH|d IH|d IH|d IH];
    intros acc; [reflexivity|..];
    cbn [NilEmpty.string_of_uint readDigits Nat.of_uint_acc];
    match goal with
    | |- context [digitValue ?c] =>
        let v := eval vm_compute in (digitValue c) in
        change (digitValue c) with v; cbv iota
    end;
    rewrite <- IH; f_equal; rewrite Nat.tail_mul_spec; lia.
Qed.

Lemma to_uint_nonnil n : Nat.to_uint n <> Decimal.Nil.
Proof.
  intros H. pose proof (DecimalNat.Unsigned.to_of (Nat.to_uint n)) as E.
  rewrite DecimalNat.Unsigned.of_to, H in E. discriminate.
Qed.

(** [parseInt] reads a decimal text back. *)
Lemma parseInt_uint d :
  d <> Decimal.Nil ->
  parseInt (Some (NilEmpty.string_of_uint d)) = Some (Z.of_nat (Nat.of_uint d)).
Proof.
  intros Hd. unfold Nat.of_uint.
  rewrite <- (Z.mul_1_l (Z.of_nat (Nat.of_uint_acc d 0))).
  change (Z.of_nat (Nat.of_uint_acc d 0))
    with (fst (Z.of_nat (Nat.of_uint_acc d 0), ""%string)).
  rewrite <- (readDigits_uint d 0).
  destruct d as [|d|d|d|d|d|d|d|d|d|d]; [done|..]; try reflexivity.
  destruct d; reflexivity.
Qed.

Lemma parseInt_string_of_nat n :
  parseInt (Some (string_of_nat n)) = Some (Z.of_nat n).
Proof.
  unfold string_of_nat, NilZero.string_of_uint.
  pose proof (to_uint_nonnil n) as Hn.
  rewrite <- (DecimalNat.Unsigned.of_to n) at 2.
  destruct (Nat.to_uint n) eqn:E; [done|..]; rewrite <- E in *;
    by apply parseInt_uint.
Qed.

Lemma string_of_uint_digits d :
  List.Forall (fun c => c <> ":"%char)
              (list_ascii_of_string (NilEmpty.string_of_uint d)).
Proof.
  induction d; cbn [NilEmpty.string_of_uint list_ascii_of_string];
    constructor; done.
Qed.

Lemma split_whole sep s :
  List.Forall (fun c => c <> sep) (list_ascii_of_string s) -> split sep s = [s].
Proof.
  induction s as [|c s IH]; simpl; intros H; [done|].
  inversion H as [|? ? Hc Hs]; subst.
  apply Ascii.eqb_neq in Hc. by rewrite Hc, IH.
Qed.

Lemma split_string_of_nat n : split ":" (string_of_nat n) = [string_of_nat n].
Proof.
  apply split_whole. unfold string_of_nat, NilZero.string_of_uint.
  destruct (Nat.to_uint n) eqn:E; rewrite <- ?E;
    first [apply string_of_uint_digits
          | simpl; repeat (constructor; [done|]); constructor].
Qed.

Lemma parseInt_cell n :
  parseInt (split ":" (string_of_nat n) !! 0) = Some (Z.of_nat n).
Proof. rewrite split_string_of_nat. apply parseInt_string_of_nat. Qed.


Lemma strip_prefix_app p r : strip_prefix p (p ++ r) = Some r.
Proof. induction p as [|a p IH]; simpl; [done|]. by rewrite Ascii.eqb_refl. Qed.

(** X1.  The value of a move button reads back: for the token of any state
    and any cell index [i], the value [move:<token>:<i>] starts with
    [move:], splits at [:] into exactly the word [move], the token and the
    decimal text of [i], and [parseInt] of the last part is [i]. *)
Theorem move_button_value_reads_back (st : value) (token : string) (i : nat) :
  encodeState st = Normal token ->
  let buttonValue := moveButtonValue token (string_of_nat i) in
  split ":" buttonValue = ["move"%string; token; string_of_nat i]
  /\ parseInt (split ":" buttonValue !! 2) = Some (Z.of_nat i)
  /\ exists rest, strip_prefix "move:" buttonValue = Some rest.
Proof.
  unfold encodeState. destruct (JSON_stringify st) as [text|]; [|done].
  intros [= <-]. cbv zeta.
  rewrite split_moveButtonValue, split_string_of_nat.
  split; [done|]. split.
  - apply parseInt_string_of_nat.
  - eexists. apply (strip_prefix_app "move:").
Qed.

Lemma move_button_value_reads_back_witness :
  let buttonValue := moveButtonValue (tokenOf freshGame) (string_of_nat 12) in
  split ":" buttonValue = ["move"%string; tokenOf freshGame; string_of_nat 12]
  /\ parseInt (split ":" buttonValue !! 2) = Some 12%Z
  /\ exists rest, strip_prefix "move:" buttonValue = Some rest.
Proof.
  apply (move_button_value_reads_back (toValue freshGame) (tokenOf freshGame) 12).
  reflexivity.
Defined.

(** ** The computer opponent, branch by branch *)

Lemma boardFull_false board :
  boardFull board = false -> exists j, board !! j = Some VNull.
Proof.
  unfold boardFull. induction board as [|c l IH]; simpl; [done|].
  destruct (strict_eq c VNull) eqn:E; simpl.
  - intros _. exists 0. simpl. by apply strict_eq_null in E as ->.
  - intros H. destruct (IH H) as [j Hj]. by exists (S j).
Qed.

(** With draws in [[0, 1)], [getBestMove] returns an empty cell of a board
    that has one. *)
Lemma getBestMove_finds board player g :
  unitDraws g -> (exists j, board !! j = Some VNull) ->
  exists i, returned (getBestMove board player g) = Some i
            /\ board !! i = Some VNull.
Proof.
  intros Hg [j Hj].
  assert (Hne : availableMoves board <> []).
  { apply (proj1 (availableMoves_spec board)) in Hj.
    intros E. by rewrite E in Hj. }
  assert (Hpick : forall k, exists i,
            pickMove (availableMoves board) (g k) = Some i
            /\ board !! i = Some VNull).
  { intros k. destruct (Hg k) as [H0 H1].
    destruct (pickMove_unit_draw _ _ Hne H0 H1) as (i & E & Hin).
    exists i. split; [done|]. by apply (proj1 (availableMoves_spec board)). }
  destruct (mistakeTriggers_dec g) as [Hm|Hm].
  { rewrite getBestMove_mistake by done. apply Hpick. }
  destruct (decide (marksOnBoard board = 1)) as [Hone|Hone].
  { rewrite getBestMove_opening by done. apply Hpick. }
  destruct (fst (tryCells player 9 0 board)) as [k|] eqn:E1.
  { rewrite (getBestMove_win _ _ _ k) by done. exists k. split; [done|].
    by apply tryCells_found in E1 as (_ & [? _] & _). }
  destruct (fst (tryCells (opponentOf player) 9 0 board)) as [k|] eqn:E2.
  { rewrite (getBestMove_block _ _ _ k) by done. exists k. split; [done|].
    by apply tryCells_found in E2 as (_ & [? _] & _). }
  rewrite getBestMove_quiet by done.
  destruct (strict_eq (index board 4) VNull) eqn:E4; [|apply Hpick].
  destruct (Qlt_le_dec (g 1) (7 # 10)); [|apply Hpick].
  exists 4. split; [done|]. by apply index_null_lookup, strict_eq_null.
Qed.

(** X2.  With draws in [[0, 1)], as [Math.random()] gives them,
    [getBestMove] returns the index of an empty cell of every board that has
    one, whichever of its branches returns. *)
Theorem getBestMove_replies_on_empty_cell
    (board : list value) (player : string) (g : RNG) :
  unitDraws g ->
  (exists j, board !! j = Some VNull) ->
  exists i, returned (getBestMove board player g) = Some i
            /\ board !! i = Some VNull.
Proof. apply getBestMove_finds. Qed.

Lemma getBestMove_replies_on_empty_cell_witness :
  let board := [VStr "O"; VStr "X"; VStr "O"; VStr "X"; VStr "O"; VStr "X";
                VStr "X"; VStr "O"; VNull] in
  exists i, returned (getBestMove board "X" (fun _ => 1 # 2)) = Some i
            /\ board !! i = Some VNull.
Proof.
  intros board.
  apply (getBestMove_replies_on_empty_cell board "X" (fun _ => 1 # 2)).
  - intros k. split; [unfold Qle; simpl; lia | unfold Qlt; simpl; lia].
  - exists 8. reflexivity.
Defined.




Lemma emptyFrom_ascending cells : forall n j k x y,
  j < k -> emptyFrom n cells !! j = Some x -> emptyFrom n cells !! k = Some y ->
  x < y.
Proof.
  induction cells as [|c cells IH]; intros n j k x y Hjk Hj Hk; [done|].
  cbn [emptyFrom] in Hj, Hk. destruct (strict_eq c VNull); [|by eapply IH].
  destruct k as [|k]; [lia|]. cbn in Hk.
  destruct j as [|j]; cbn in Hj.
  - injection Hj as <-.
    assert (In y (emptyFrom (S n) cells)).
    { apply list_elem_of_In. by eapply list_elem_of_lookup_2. }
    apply emptyFrom_ge in H. lia.
  - apply (IH (S n) j k); [lia | done | done].
Qed.

(** X5.  The list of available moves, in [getBestMove] as in the [/game]
    handler, holds exactly the indices of the cells that are [null], each
    once and in ascending order; with the number of marks its length makes
    up the length of the board. *)
Theorem available_moves_are_the_empty_cells (board : list value) :
  (forall i, In i (availableMoves board) <-> board !! i = Some VNull)
  /\ (forall j k x y,
        j < k -> availableMoves board !! j = Some x ->
        availableMoves board !! k = Some y -> x < y)
  /\ length (availableMoves board) + marksOnBoard board = length board.
Proof.
  destruct (availableMoves_spec board) as (Hin & _ & Hlen).
  split; [exact Hin|]. split; [|exact Hlen].
  rewrite availableMoves_emptyFrom. apply emptyFrom_ascending.
Qed.

(** ** One move request *)

Lemma lookup_cell_null (cells : list (option string)) i :
  List.map cellValue cells !! i = Some VNull <-> cells !! i = Some None.
Proof.
  rewrite lookup_map_cellValue. destruct (cells !! i) as [[s|]|]; simpl;
    split; congruence.
Qed.

(** An accepted move: the cell named by the request is empty and the game
    is not over.  ['O'] is placed; the game ends there on a line or a full
    board, and otherwise the computer replies. *)
Lemma playMove_accepted username p i g :
  isGameOver p = false -> board p !! i = Some None ->
  let cells1 := <[i:=Some "O"]> (board p) in
  let b1 := List.map cellValue cells1 in
  let reply := returned (getBestMove b1 "X" g) in
  exists p' message result,
    playMove username (toValue p) (List.map cellValue (board p))
             (VBool (isGameOver p)) (Some (Z.of_nat i)) g
    = mkStore (toValue p') message result
    /\ currentPlayer p' = currentPlayer p
    /\ difficulty p' = difficulty p
    /\ ((board p' = cells1 /\ isGameOver p' = true
         /\ (checkWin b1 = true /\ result = Some win
             \/ checkWin b1 = false /\ boardFull b1 = true
                /\ result = Some draw))
        \/ (checkWin b1 = false /\ boardFull b1 = false
            /\ board p' = replyOn cells1 reply
            /\ let b2 := List.map cellValue (board p') in
               (checkWin b2 = true /\ isGameOver p' = true
                /\ result = Some lose
                \/ checkWin b2 = false /\ boardFull b2 = true
                   /\ isGameOver p' = true /\ result = Some draw
                \/ checkWin b2 = false /\ boardFull b2 = false
                   /\ isGameOver p' = false /\ result = None))).
Proof.
  destruct p as [cells player over level].
  cbn [board isGameOver currentPlayer difficulty].
  intros -> Hi. cbv zeta.
  set (cells1 := <[i:=Some "O"]> cells). set (b1 := List.map cellValue cells1).
  unfold playMove.
  rewrite cellAt_nat. unfold index at 1.
  rewrite (proj2 (lookup_cell_null cells i) Hi).
  change (default VUndefined (Some VNull)) with VNull.
  change (default 0%Z (Some (Z.of_nat i))) with (Z.of_nat i).
  cbn [strict_eq truthy negb andb]. rewrite Nat2Z.id.
  rewrite (place_on_cells cells i "O") by (by apply lookup_cell_null).
  fold cells1. fold b1.
  destruct (checkWin b1) eqn:W1.
  { eexists (mkGameState cells1 player true level), _, _.
    split; [reflexivity|]. cbn. repeat split. left. repeat split. by left. }
  destruct (boardFull b1) eqn:F1.
  { eexists (mkGameState cells1 player true level), _, _.
    split; [reflexivity|]. cbn. repeat split. left. repeat split. by right. }
  rewrite getBestMove_boardAfter.
  pose proof (getBestMove_returns_empty b1 "X" g) as Hret.
  set (reply := returned (getBestMove b1 "X" g)) in *.
  set (cells2 := replyOn cells1 reply).
  assert (E2 : placeComputer b1 reply = List.map cellValue cells2).
  { unfold cells2. destruct reply as [k|]; cbn [placeComputer replyOn]; [|done].
    apply place_on_cells. by apply Hret. }
  rewrite !E2.
  destruct (checkWin (List.map cellValue cells2)) eqn:W2;
    [|destruct (boardFull (List.map cellValue cells2)) eqn:F2].
  - eexists (mkGameState cells2 player true level), _, _.
    split; [reflexivity|]. cbn. repeat split. right.
    repeat split; try done. left. done.
  - eexists (mkGameState cells2 player true level), _, _.
    split; [reflexivity|]. cbn. repeat split. right.
    repeat split; try done. right. left. done.
  - eexists (mkGameState cells2 player false level), _, _.
    split; [reflexivity|]. cbn. repeat split. right.
    repeat split; try done. right. right. done.
Qed.

(** A request is turned down when the game is over or the cell it names is
    not an empty cell of the board. *)
Lemma playMove_rejected username p move g :
  isGameOver p = true
  \/ strict_eq (cellAt (List.map cellValue (board p)) move) VNull = false ->
  exists message,
    playMove username (toValue p) (List.map cellValue (board p))
             (VBool (isGameOver p)) move g
    = mkStore (toValue p) message None.
Proof.
  intros H. destruct (isGameOver p) eqn:Hover.
  - eexists. by apply playMove_over.
  - destruct H as [|H]; [done|]. eexists. by apply playMove_taken.
Qed.

(** The cell an accepted request names. *)
Lemma cellAt_accepts (cells : list (option string)) move :
  strict_eq (cellAt (List.map cellValue cells) move) VNull = true ->
  exists i, move = Some (Z.of_nat i) /\ cells !! i = Some None.
Proof.
  intros H. apply strict_eq_null in H. unfold cellAt in H.
  destruct move as [z|]; [|done].
  destruct (Z.leb_spec 0 z) as [Hz|]; [|done].
  exists (Z.to_nat z). split; [by rewrite Z2Nat.id|].
  by apply lookup_cell_null, index_null_lookup.
Qed.

Lemma frame_game_respond username p idx g p' message result :
  playMove username (toValue p) (List.map cellValue (board p))
           (VBool (isGameOver p)) (parseInt (split ":" idx !! 0)) g
  = mkStore (toValue p') message result ->
  frame_game "response" (Some (moveButtonValue (tokenOf p) idx)) username g
  = Normal (respond p' message result).
Proof.
  intros E. unfold tokenOf. rewrite frame_game_token, moveStep_toValue, E.
  cbv zeta. exact (respond_toValue p' _ message result eq_refl).
Qed.

(** Whatever the request, the move step leaves the state as it was or
    applies an accepted move. *)
Lemma playMove_cases username p move g :
  (exists message,
     playMove username (toValue p) (List.map cellValue (board p))
              (VBool (isGameOver p)) move g
     = mkStore (toValue p) message None)
  \/ (exists i, move = Some (Z.of_nat i)
                /\ isGameOver p = false /\ board p !! i = Some None).
Proof.
  destruct (decide (isGameOver p = true)) as [Hover|Hover].
  { left. apply playMove_rejected. by left. }
  apply not_true_is_false in Hover.
  destruct (strict_eq (cellAt (List.map cellValue (board p)) move) VNull) eqn:E.
  - right. destruct (cellAt_accepts _ _ E) as (i & -> & Hi). by exists i.
  - left. apply playMove_rejected. by right.
Qed.



(** X7.  The [gameResult] of the response to a move request on the token of
    a game state tells how the request went. With no result [isGameOver] is
    as it was. A result is only reported for a state that was not over, and
    the answer is then over: with ['win'] the board is that of the request
    with ['O'] on one more cell and has a line, with ['lose'] the board has
    a line, with ['draw'] it has no line and no empty cell. *)
Theorem game_result_matches_board
    (p : GameState) (username idx : string) (g : RNG) :
  exists p' message result,
    frame_game "response" (Some (moveButtonValue (tokenOf p) idx)) username g
    = Normal (respond p' message result)
    /\ match result with
       | None => isGameOver p' = isGameOver p
       | Some r =>
           isGameOver p = false /\ isGameOver p' = true
           /\ match r with
              | win =>
                  checkWin (List.map cellValue (board p')) = true
                  /\ exists i, board p !! i = Some None
                               /\ board p' = <[i:=Some "O"]> (board p)
              | lose => checkWin (List.map cellValue (board p')) = true
              | draw =>
                  checkWin (List.map cellValue (board p')) = false
                  /\ boardFull (List.map cellValue (board p')) = true
              end
       end.
Proof.
  destruct (playMove_cases username p (parseInt (split ":" idx !! 0)) g)
    as [[message E]|(i & Ei & Hover & Hi)].
  { exists p, message, None. split; [by apply frame_game_respond | done]. }
  destruct (playMove_accepted username p i g Hover Hi)
    as (p' & message & result & E & _ & _ & Hcase).
  exists p', message, result. rewrite <- Ei in E.
  split; [by apply frame_game_respond|]. cbv zeta in Hcase.
  destruct Hcase as [(Hb & Hover' & [[W ->]|(W & F & ->)])
                    |(_ & _ & _ & [(W & Hover' & ->)
                                  |[(W & F & Hover' & ->)|(_ & _ & Hover' & ->)]])].
  - rewrite Hb. repeat split; try done. by exists i.
  - rewrite Hb. by repeat split.
  - by repeat split.
  - by repeat split.
  - congruence.
Qed.

(** ** The invariant of a game *)

Lemma countMark_insert (cells : list (option string)) i mark s :
  cells !! i = Some None ->
  countMark mark (<[i:=Some s]> cells)
  = countMark mark cells + (if (s =? mark)%string then 1 else 0).
Proof.
  unfold countMark. revert i.
  induction cells as [|c l IH]; intros [|i]; simpl; try done.
  - intros [= ->]. destruct (s =? mark)%string; simpl; lia.
  - intros H. destruct c as [t|]; [destruct (t =? mark)%string|];
      simpl; rewrite (IH i H); lia.
Qed.

Lemma countMark_le (cells : list (option string)) :
  countMark "O" cells + countMark "X" cells <= length cells.
Proof.
  unfold countMark. induction cells as [|c l IH]; simpl; [done|].
  destruct c as [s|]; [|lia].
  destruct (String.eqb_spec s "O") as [->|]; simpl; [lia|].
  destruct (s =? "X")%string; simpl; lia.
Qed.

Lemma consistent_freshGame : consistent freshGame.
Proof.
  split; [|repeat split; try done; auto].
  - split; [reflexivity|]. apply Forall_replicate. by left.
  - intros [H|H]; vm_compute in H; discriminate.
Qed.

Lemma playMove_consistent username p move g :
  unitDraws g -> consistent p ->
  exists p' message result,
    playMove username (toValue p) (List.map cellValue (board p))
             (VBool (isGameOver p)) move g
    = mkStore (toValue p') message result
    /\ consistent p'.
Proof.
  intros Hg Hp.
  destruct (playMove_cases username p move g) as [[message E]|(i & -> & Hover & Hi)].
  { by exists p, message, None. }
  destruct (playMove_accepted username p i g Hover Hi)
    as (p' & message & result & E & Hplayer & Hlevel & Hcase).
  exists p', message, result. split; [done|].
  destruct Hp as ([Hlen Hcells] & Hp1 & Hp2 & _ & Hcount & Hflag).
  specialize (Hcount Hover).
  set (cells1 := <[i:=Some "O"]> (board p)) in *.
  assert (Hlen1 : length cells1 = 9) by (unfold cells1; by rewrite length_insert).
  assert (Hcells1 : Forall validCell cells1) by (apply validCell_insert; auto).
  assert (HO1 : countMark "O" cells1 = S (countMark "O" (board p))).
  { unfold cells1. rewrite countMark_insert by done. simpl. lia. }
  assert (HX1 : countMark "X" cells1 = countMark "X" (board p)).
  { unfold cells1. rewrite countMark_insert by done. simpl. lia. }
  destruct Hcase as [(Hb & Hover' & Hres)|(W1 & F1 & Hb & Hres)].
  - unfold consistent, validGameState. rewrite Hb, Hover', Hplayer, Hlevel.
    repeat split; try done.
    + right. lia.
    + intros _. destruct Hres as [[? _]|(_ & ? & _)]; auto.
  - destruct (getBestMove_finds (List.map cellValue cells1) "X" g Hg
                (boardFull_false _ F1)) as (k & Ek & Hk).
    rewrite Ek in Hb. cbn [replyOn] in Hb. apply lookup_cell_null in Hk.
    assert (HO2 : countMark "O" (board p') = S (countMark "O" (board p))).
    { rewrite Hb, countMark_insert by done. simpl. lia. }
    assert (HX2 : countMark "X" (board p') = S (countMark "X" (board p))).
    { rewrite Hb, countMark_insert by done. simpl. lia. }
    unfold consistent, validGameState. rewrite Hplayer, Hlevel.
    split; [|repeat split; try done].
    + rewrite Hb. split; [by rewrite length_insert|].
      apply validCell_insert; auto.
    + left. lia.
    + intros _. lia.
    + intros Hover'. cbv zeta in Hres.
      destruct Hres as [(? & _)|[(_ & ? & _)|(_ & _ & ? & _)]];
        [by left | by right | congruence].
    + intros HW. cbv zeta in Hres.
      destruct Hres as [(_ & ? & _)|[(_ & _ & ? & _)|(W2 & F2 & _)]]; try done.
      destruct HW; congruence.
Qed.

Lemma playRequests_consistent username requests : forall p,
  consistent p ->
  List.Forall (fun request => unitDraws (snd request)) requests ->
  exists responses,
    playRequests username (tokenOf p) requests = Normal responses
    /\ List.Forall (fun r => exists p' message result,
                      r = respond p' message result /\ consistent p')
                   responses.
Proof.
  induction requests as [|[idx g] rest IH]; intros p Hp Hgs.
  { exists []. split; [done | constructor]. }
  inversion Hgs as [|? ? Hg Hrest]; subst. cbn [snd] in Hg.
  destruct (playMove_consistent username p (parseInt (split ":" idx !! 0)) g Hg Hp)
    as (p' & message & result & E & Hp').
  destruct (IH p' Hp' Hrest) as (responses & Erest & Hall).
  exists (respond p' message result :: responses).
  cbn [playRequests]. rewrite (frame_game_respond _ _ _ _ _ _ _ E).
  cbn [bind respond encodedState]. fold (tokenOf p'). rewrite Erest.
  split; [done|]. constructor; [|done]. by exists p', message, result.
Qed.

(** X8.  A game starts with a request that carries no button value: the
    answer is the fresh game. From there on, over any run of move requests
    that each carry the token of the response before them, with draws in
    [[0, 1)], every response carries a game state of nine cells, each empty
    or marked ['O'] or ['X'], with ['O'] to move and difficulty ['easy'];
    ['O'] has as many marks as ['X'] while the game goes on and at most one
    more at its end; [isGameOver] is set exactly when the board has a line
    or no empty cell; no game has more than five ['O'] or four ['X'], and a
    game that goes on has at most four of each, so that the fifth move of
    the player ends it. *)
Theorem game_states_are_consistent
    (status username : string) (g0 : RNG) (requests : list (string * RNG)) :
  List.Forall (fun request => unitDraws (snd request)) requests ->
  exists responses,
    frame_game status None username g0
    = Normal (respond freshGame ("New game started! Your turn, " ++ username) None)
    /\ playRequests username (tokenOf freshGame) requests = Normal responses
    /\ List.Forall (fun r => exists p message result,
                      r = respond p message result
                      /\ consistent p
                      /\ countMark "O" (board p) <= 5
                      /\ countMark "X" (board p) <= 4
                      /\ (isGameOver p = false -> countMark "O" (board p) <= 4))
                   responses.
Proof.
  intros Hgs.
  destruct (playRequests_consistent username requests freshGame
              consistent_freshGame Hgs) as (responses & E & Hall).
  exists responses. split; [reflexivity|]. split; [done|].
  eapply List.Forall_impl; [|exact Hall].
  intros r (p & message & result & -> & Hp).
  exists p, message, result. split; [done|]. split; [done|].
  destruct Hp as ([Hlen _] & _ & _ & Hcount & Hsame & _).
  pose proof (countMark_le (board p)).
  split; [lia|]. split; [lia|]. intros Hover. specialize (Hsame Hover). lia.
Qed.

Lemma game_states_are_consistent_witness :
  exists responses,
    frame_game "initial" None "player" (fun _ => 1 # 2)
    = Normal (respond freshGame "New game started! Your turn, player" None)
    /\ playRequests "player" (tokenOf freshGame)
         [("4", fun _ => 1 # 2); ("4", fun _ => 1 # 2); ("0", fun _ => 1 # 2)]
       = Normal responses
    /\ List.Forall (fun r => exists p message result,
                      r = respond p message result
                      /\ consistent p
                      /\ countMark "O" (board p) <= 5
                      /\ countMark "X" (board p) <= 4
                      /\ (isGameOver p = false -> countMark "O" (board p) <= 4))
                   responses.
Proof.
  apply (game_states_are_consistent "initial" "player" (fun _ => 1 # 2)).
  repeat (apply List.Forall_cons;
          [intros k; split; [unfold Qle; simpl; lia | unfold Qlt; simpl; lia]|]).
  apply List.Forall_nil.
Defined.

(** ** Requests of any kind *)






(** X10.  A request that is not a move request (no button value, a status
    other than [response], or a button value that does not start with
    [move:], such as the values [start:easy], [start:medium] and
    [start:hard] of the difficulty buttons) is answered with the fresh game:
    nine empty cells, ['O'] to move, not over, difficulty ['easy']. *)
Theorem other_requests_start_a_fresh_game
    (status : string) (buttonValue : option string) (username : string) (g : RNG) :
  status <> "response"
  \/ buttonValue = None
  \/ (exists bv, buttonValue = Some bv /\ strip_prefix "move:" bv = None) ->
  frame_game status buttonValue username g
  = Normal (respond freshGame ("New game started! Your turn, " ++ username) None).
Proof.
  intros H. unfold frame_game.
  destruct buttonValue as [bv|]; [|reflexivity].
  destruct H as [H|[H|(bv' & [= <-] & H)]]; [|done|].
  - apply String.eqb_neq in H. by rewrite H.
  - by rewrite H, andb_false_r.
Qed.

Lemma other_requests_start_a_fresh_game_witness :
  frame_game "response" (Some "start:hard") "player" (fun _ => 1 # 2)
  = Normal (respond freshGame "New game started! Your turn, player" None).
Proof.
  apply (other_requests_start_a_fresh_game "response" (Some "start:hard")).
  right. right. exists "start:hard"%string. split; reflexivity.
Defined.

(** ** The move buttons *)

Lemma Qfloor_unit_draw (r : Q) (n : nat) :
  (0 <= r)%Q -> (r < 1)%Q -> 0 < n ->
  (0 <= Qfloor (r * inject_Z (Z.of_nat n)) < Z.of_nat n)%Z.
Proof.
  intros H0 H1 Hn.
  set (x := (r * inject_Z (Z.of_nat n))%Q).
  assert (Hx0 : (0 <= x)%Q).
  { unfold x. apply Qmult_le_0_compat; [done|].
    change 0%Q with (inject_Z 0). rewrite <- Zle_Qle. lia. }
  assert (Hx1 : (x < inject_Z (Z.of_nat n))%Q).
  { unfold x. rewrite <- (Qmult_1_l (inject_Z (Z.of_nat n))) at 2.
    apply Qmult_lt_compat_r; [|done].
    change 0%Q with (inject_Z 0). rewrite <- Zlt_Qlt. lia. }
  split.
  - change 0%Z with (Qfloor 0). by apply Qfloor_resp_le.
  - rewrite Zlt_Qlt. eapply Qle_lt_trans; [apply Qfloor_le | done].
Qed.

Lemma elementAt_lookup {A} (undefined : A) (a : list A) n x :
  a !! n = Some x -> elementAt undefined a (Z.of_nat n) = x.
Proof.
  intros H. unfold elementAt.
  destruct (Z.ltb_spec (Z.of_nat n) 0); [lia|].
  rewrite Nat2Z.id. by apply nth_lookup_Some.
Qed.

Lemma elementSet_in_range {A} (undefined : A) (a : list A) n x :
  n < length a -> elementSet undefined a (Z.of_nat n) x = <[n:=x]> a.
Proof.
  intros H. unfold elementSet.
  destruct (Z.ltb_spec (Z.of_nat n) 0); [lia|].
  rewrite Nat2Z.id. by destruct (decide (n < length a)).
Qed.

Lemma unitDraws_tail g : unitDraws g -> unitDraws (fun k => g (S k)).
Proof. intros H k. apply H. Qed.

Lemma shuffleLoop_Permutation {A} (undefined : A) i : forall (array : list A) g,
  unitDraws g -> i < length array ->
  fst (shuffleLoop undefined i array g) ≡ₚ array.
Proof.
  induction i as [|i IH]; intros array g Hg Hi; [done|].
  cbn [shuffleLoop Math_random].
  destruct (Hg 0) as [H0 H1].
  pose proof (Qfloor_unit_draw (g 0) (S i + 1) H0 H1 ltac:(lia)) as Hj.
  set (j := Qfloor (g 0 * inject_Z (Z.of_nat (S i + 1)))) in *.
  rewrite <- (Z2Nat.id j) by lia.
  destruct (lookup_lt_is_Some_2 array (S i) Hi) as [ai Hai].
  destruct (lookup_lt_is_Some_2 array (Z.to_nat j)) as [aj Haj]; [lia|].
  rewrite (elementAt_lookup _ _ _ _ Hai), (elementAt_lookup _ _ _ _ Haj).
  rewrite (elementSet_in_range undefined array (S i)) by done.
  rewrite elementSet_in_range by (rewrite length_insert; lia).
  rewrite IH.
  - by apply Permutation_insert_swap.
  - by apply unitDraws_tail.
  - rewrite !length_insert. lia.
Qed.

Lemma shuffleArray_Permutation {A} (undefined : A) (array : list A) g :
  unitDraws g -> fst (shuffleArray undefined array g) ≡ₚ array.
Proof.
  intros Hg. unfold shuffleArray. destruct array as [|x l]; [done|].
  apply shuffleLoop_Permutation; [done|]. simpl. lia.
Qed.

Lemma shuffleLoop_draws {A} (undefined : A) i : forall (array : list A) g k,
  snd (shuffleLoop undefined i array g) k = g (i + k).
Proof.
  induction i as [|i IH]; intros array g k; [done|].
  cbn [shuffleLoop Math_random]. by rewrite IH.
Qed.

(** X11.  With draws in [[0, 1)], [shuffleArray] returns the elements of its
    argument in some order: none is lost, repeated or replaced by
    [undefined], and the array keeps its length. Whatever the draws, it uses
    one draw for each element but the first. *)
Theorem shuffleArray_permutes {A} (undefined : A) (array : list A) (g : RNG) :
  (unitDraws g -> Permutation (fst (shuffleArray undefined array g)) array)
  /\ (forall k, snd (shuffleArray undefined array g) k
                = g (length array - 1 + k)).
Proof.
  split.
  - apply shuffleArray_Permutation.
  - intros k. apply shuffleLoop_draws.
Qed.

Lemma omap_id_Some (l : list nat) : omap id (Some <$> l) = l.
Proof. induction l as [|x l IH]; csimpl; [done|]. by rewrite IH. Qed.

Lemma Forall_is_Some_omap (l : list (option nat)) :
  Forall is_Some l -> l = Some <$> omap id l.
Proof.
  induction 1 as [|x l [i ->] _ IH]; csimpl; [done|]. by rewrite <- IH.
Qed.

(** The moves the buttons are made from: at most four of the available
    moves, none of them twice. *)
Lemma shuffledMoves_spec (moves : list nat) g :
  unitDraws g -> NoDup moves ->
  exists cells,
    shuffledMoves moves g = Some <$> cells
    /\ NoDup cells
    /\ (forall i, i ∈ cells -> i ∈ moves)
    /\ length cells = Nat.min 4 (length moves).
Proof.
  intros Hg Hnd. unfold shuffledMoves.
  pose proof (shuffleArray_Permutation None (List.map Some moves) g Hg) as Hperm.
  set (l := fst (shuffleArray None (List.map Some moves) g)) in *.
  change (List.map Some moves) with (Some <$> moves) in Hperm.
  assert (Hsome : Forall is_Some l).
  { rewrite Hperm. apply Forall_fmap, Forall_true. by eexists. }
  assert (Hcells : omap id l ≡ₚ moves).
  { rewrite Hperm. by rewrite omap_id_Some. }
  exists (take 4 (omap id l)). split; [|split; [|split]].
  - rewrite fmap_take. by rewrite <- Forall_is_Some_omap.
  - eapply sublist_NoDup; [|apply sublist_take]. by rewrite Hcells.
  - intros i Hi. rewrite <- Hcells.
    apply elem_of_take in Hi as (n & Hn & _). by eapply list_elem_of_lookup_2.
  - by rewrite length_take, Hcells.
Qed.

Lemma isOver_respond p message result :
  isOver (respond p message result) = isGameOver p.
Proof. reflexivity. Qed.

Lemma intents_respond p message result g :
  unitDraws g ->
  if isGameOver p then
    intents (respond p message result) g
    = [NewGame; Next result; YourStats; ShareResults (tokenOf p) result]
  else
    exists cells,
      intents (respond p message result) g
      = List.map (fun i => MoveButton
                             (moveButtonValue (tokenOf p) (string_of_nat i))
                             (COORDINATES !! i))
                 cells
      /\ NoDup cells
      /\ (forall i, i ∈ cells -> board p !! i = Some None)
      /\ length cells
         = Nat.min 4 (length (availableMoves (List.map cellValue (board p)))).
Proof.
  intros Hg. unfold intents. rewrite isOver_respond.
  destruct (isGameOver p); [done|].
  destruct (availableMoves_spec (List.map cellValue (board p)))
    as (Hin & Hnd & _).
  destruct (shuffledMoves_spec (availableMoves (List.map cellValue (board p))) g Hg)
    as (cells & E & Hnd' & Hsub & Hlen).
  { by apply NoDup_ListNoDup. }
  exists cells. cbn [respond available encodedState]. rewrite E.
  split; [|split; [done|split; [|done]]].
  - change (List.map ?f (Some <$> cells)) with (f <$> (Some <$> cells)).
    rewrite <- list_fmap_compose. done.
  - intros i Hi. apply lookup_cell_null, Hin, list_elem_of_In. by apply Hsub.
Qed.

(** X12.  The buttons of a [/game] response that carries a game state. Once
    the game is over they are the four end-of-game buttons, whose links
    carry the [gameResult] and the token of the response. Before that, with
    draws in [[0, 1)] for the shuffle, they are move buttons only: one for
    each of [min 4 n] distinct empty cells of the board, [n] being the
    number of empty cells; the button of cell [i] is labelled
    [COORDINATES[i]] and its value is [move:], the token of the response,
    [:] and the decimal text of [i]. *)
Theorem move_buttons_of_a_response
    (p : GameState) (message : string) (result : option GameResult) (g : RNG) :
  unitDraws g ->
  (isGameOver p = true ->
   intents (respond p message result) g
   = [NewGame; Next result; YourStats; ShareResults (tokenOf p) result])
  /\ (isGameOver p = false ->
      exists cells,
        intents (respond p message result) g
        = List.map (fun i => MoveButton
                               (moveButtonValue (tokenOf p) (string_of_nat i))
                               (COORDINATES !! i))
                   cells
        /\ NoDup cells
        /\ (forall i, i ∈ cells -> board p !! i = Some None)
        /\ length cells
           = Nat.min 4 (length (availableMoves (List.map cellValue (board p))))).
Proof.
  intros Hg. pose proof (intents_respond p message result g Hg) as H.
  split; intros Hover; by rewrite Hover in H.
Qed.

Lemma move_buttons_of_a_response_witness :
  exists cells,
    intents (respond freshGame "New game started! Your turn, player" None)
            (fun _ => 1 # 2)
    = List.map (fun i => MoveButton
                           (moveButtonValue (tokenOf freshGame) (string_of_nat i))
                           (COORDINATES !! i))
               cells
    /\ NoDup cells
    /\ (forall i, i ∈ cells -> board freshGame !! i = Some None)
    /\ length cells = 4.
Proof.
  destruct (move_buttons_of_a_response freshGame
              "New game started! Your turn, player" None (fun _ => 1 # 2))
    as [_ H].
  - intros k. split; [unfold Qle; simpl; lia | unfold Qlt; simpl; lia].
  - exact (H eq_refl).
Defined.

(** X13.  Every move button of a response is accepted when it is pressed: a
    request with the value of the button is answered with a game state that
    has ['O'] on the cell of the button, a cell that was empty and whose
    coordinate is the label of the button. *)
Theorem offered_move_is_accepted
    (p : GameState) (username message : string) (result : option GameResult)
    (g : RNG) (buttonValue : string) (label : option string) :
  unitDraws g ->
  MoveButton buttonValue label ∈ intents (respond p message result) g ->
  exists i,
    board p !! i = Some None
    /\ label = COORDINATES !! i
    /\ forall g', exists p' message' result',
         frame_game "response" (Some buttonValue) username g'
         = Normal (respond p' message' result')
         /\ board p' !! i = Some (Some "O").
Proof.
  intros Hg Hin. pose proof (intents_respond p message result g Hg) as H.
  destruct (isGameOver p) eqn:Hover.
  { rewrite H in Hin.
    repeat (apply elem_of_cons in Hin as [Hin|Hin]; [discriminate|]).
    by apply elem_of_nil in Hin. }
  destruct H as (cells & E & _ & Hcells & _). rewrite E in Hin.
  apply list_elem_of_In, in_map_iff in Hin as (i & [= <- <-] & Hi).
  apply list_elem_of_In, Hcells in Hi.
  exists i. split; [done|]. split; [done|]. intros g'.
  destruct (playMove_accepted username p i g' Hover Hi)
    as (p' & message' & result' & E' & _ & _ & Hcase).
  exists p', message', result'. rewrite <- (parseInt_cell i) in E'.
  split; [by apply frame_game_respond|].
  assert (H1 : <[i:=Some "O"]> (board p) !! i = Some (Some "O")).
  { apply list_lookup_insert_eq. by eapply lookup_lt_Some. }
  destruct Hcase as [(-> & _)|(_ & _ & -> & _)]; [done|].
  pose proof (getBestMove_returns_empty
                (List.map cellValue (<[i:=Some "O"]> (board p))) "X" g') as Hret.
  destruct (returned _) as [k|]; cbn [replyOn]; [|done].
  specialize (Hret k eq_refl). apply lookup_cell_null in Hret.
  rewrite list_lookup_insert_ne; [done|]. intros ->. congruence.
Qed.

Lemma offered_move_is_accepted_witness :
  exists i,
    board freshGame !! i = Some None
    /\ Some "B3"%string = COORDINATES !! i
    /\ forall g', exists p' message' result',
         frame_game "response" (Some (moveButtonValue (tokenOf freshGame) "5"))
                    "player" g'
         = Normal (respond p' message' result')
         /\ board p' !! i = Some (Some "O").
Proof.
  apply (offered_move_is_accepted freshGame "player"
           "New game started! Your turn, player" None (fun _ => 1 # 2)).
  - intros k. split; [unfold Qle; simpl; lia | unfold Qlt; simpl; lia].
  - vm_compute. apply list_elem_of_further, list_elem_of_here.
Defined.

(** X14.  A game that goes on can go on: for a state as the handler keeps
    it, not over, the response offers at least one move button, with draws
    in [[0, 1)] for the shuffle. *)
Theorem game_in_progress_offers_a_move
    (p : GameState) (message : string) (result : option GameResult) (g : RNG) :
  consistent p -> isGameOver p = false -> unitDraws g ->
  exists buttonValue label,
    MoveButton buttonValue label ∈ intents (respond p message result) g.
Proof.
  intros Hp Hover Hg.
  pose proof (intents_respond p message result g Hg) as H. rewrite Hover in H.
  destruct H as (cells & -> & _ & _ & Hlen).
  destruct Hp as (_ & _ & _ & _ & _ & Hflag).
  assert (F : boardFull (List.map cellValue (board p)) = false).
  { destruct (boardFull _) eqn:F; [|done].
    rewrite (proj2 Hflag) in Hover; [done | by right]. }
  destruct (boardFull_false _ F) as [j Hj].
  apply (proj1 (availableMoves_spec _)) in Hj.
  destruct (availableMoves _) as [|a l]; [done|].
  destruct cells as [|i cells]; [simpl in Hlen; lia|].
  eexists _, _. apply list_elem_of_here.
Qed.

Lemma game_in_progress_offers_a_move_witness :
  exists buttonValue label,
    MoveButton buttonValue label
    ∈ intents (respond freshGame "New game started! Your turn, player" None)
              (fun _ => 1 # 2).
Proof.
  apply game_in_progress_offers_a_move.
  - split; [|repeat split; try done; auto].
    + split; [reflexivity|].
      repeat (apply List.Forall_cons; [by left|]). apply List.Forall_nil.
    + intros [H|H]; vm_compute in H; discriminate.
  - reflexivity.
  - intros k. split; [unfold Qle; simpl; lia | unfold Qlt; simpl; lia].
Defined.

(** ** Tokens of the first version *)

(** X15.  A token issued by the first version of the server, whose states
    have no [difficulty], is decoded by the latest version as the same game
    with difficulty ['medium']: same board, same player to move, same
    [isGameOver]. *)
Theorem legacy_token_decodes_as_medium (q : Legacy.GameState) :
  exists token,
    encodeState (Legacy.toValue q) = Normal token
    /\ Legacy.decodeState token = Normal (Legacy.toValue q)
    /\ decodeState token
       = Normal (toValue (mkGameState (Legacy.board q) (Legacy.currentPlayer q)
                                      (Legacy.isGameOver q) medium)).
Proof.
  exists (base64_encode (stringify (Legacy.toValue q))).
  split; [reflexivity|].
  assert (E : JSON_parse (base64_decode (base64_encode (stringify (Legacy.toValue q))))
              = Normal (Legacy.toValue q)).
  { rewrite base64_roundtrip. apply JSON_parse_stringify, printable_legacyToValue. }
  split; [exact E|].
  unfold decodeState. rewrite E. reflexivity.
Qed.








(** ** User records *)

Lemma set_merge_same users fid update :
  set_merge users fid update fid
  = Some (fun field =>
            let doc : Doc := match users fid with
                             | Some doc => doc
                             | None => fun _ => None
                             end in
            if existsb (String.eqb field) update
            then Some (orZero (doc field) + 1)%Z
            else doc field).
Proof. unfold set_merge. by rewrite String.eqb_refl. Qed.

Lemma set_merge_other users fid update id :
  id <> fid -> set_merge users fid update id = users id.
Proof. intros H. unfold set_merge. apply String.eqb_neq in H. by rewrite H. Qed.

(** X18.  A win or a loss in the record. With the database at hand,
    [updateUserRecord] on a win adds one to [wins] and one to the counter of
    the difficulty, on a loss one to [losses], whether the user had a
    document or not; the other counters of the user, and the records of all
    other users, are as before. When the database is not at hand nothing is
    written and every record reads as zeros. *)
Theorem updateUserRecord_counts_one_game
    (users : Users) (fid : string) (isWin : bool) (level : Difficulty) :
  let db' := updateUserRecord (Some users) fid isWin (difficultyText level) in
  let r := getUserRecord (Some users) fid in
  let one (b : bool) : Z := if b then 1%Z else 0%Z in
  getUserRecord db' fid
  = mkUserRecord
      (wins r + one isWin) (losses r + one (negb isWin)) (ties r)
      (easyWins r + one (isWin && match level with easy => true | _ => false end))
      (mediumWins r + one (isWin && match level with medium => true | _ => false end))
      (hardWins r + one (isWin && match level with hard => true | _ => false end))
  /\ (forall other, other <> fid ->
        getUserRecord db' other = getUserRecord (Some users) other)
  /\ updateUserRecord None fid isWin (difficultyText level) = None
  /\ getUserRecord None fid = noRecord.
Proof.
  cbv zeta. split; [|split; [|done]].
  - unfold updateUserRecord, getUserRecord. rewrite set_merge_same.
    destruct (users fid) as [doc|]; destruct isWin, level;
      cbn [difficultyText app String.append existsb String.eqb Ascii.eqb
           Bool.eqb orb andb negb orZero wins losses ties easyWins mediumWins
           hardWins noRecord];
      f_equal; lia.
  - intros other Hne. unfold updateUserRecord, getUserRecord.
    by rewrite set_merge_other.
Qed.

Lemma wins_field_fresh (difficulty field : string) :
  field = "wins"%string \/ field = "losses"%string \/ field = "ties"%string ->
  (field =? difficulty ++ "Wins")%string = false.
Proof.
  intros H. apply String.eqb_neq. intros E.
  pose proof (f_equal String.length E) as Hlen.
  rewrite string_length_app in Hlen.
  destruct H as [-> | [-> | ->]]; simpl in Hlen.
  - destruct difficulty; [discriminate | simpl in Hlen; lia].
  - destruct difficulty as [|a [|b [|c d]]]; simpl in Hlen; try lia.
    discriminate.
  - destruct difficulty; [discriminate | simpl in Hlen; lia].
Qed.

Lemma total_is_sum db fid :
  getTotalGamesPlayed db fid
  = (wins (getUserRecord db fid) + losses (getUserRecord db fid)
     + ties (getUserRecord db fid))%Z.
Proof.
  unfold getTotalGamesPlayed, getUserRecord.
  destruct db as [users|]; [|done]. by destruct (users fid).
Qed.

(** The three counters a write changes, whatever the text of the
    difficulty. *)
Lemma runCall_counters users call :
  let r := getUserRecord (Some users) (userOf call) in
  let r' := getUserRecord (runCall (Some users) call) (userOf call) in
  match call with
  | RecordResult _ true _ =>
      wins r' = (wins r + 1)%Z /\ losses r' = losses r /\ ties r' = ties r
  | RecordResult _ false _ =>
      wins r' = wins r /\ losses r' = (losses r + 1)%Z /\ ties r' = ties r
  | RecordTie _ =>
      wins r' = wins r /\ losses r' = losses r /\ ties r' = (ties r + 1)%Z
  end.
Proof.
  destruct call as [fid [|] d|fid];
    cbn [runCall userOf updateUserRecord updateUserTie getUserRecord];
    rewrite set_merge_same; cbv zeta;
    cbn [app existsb]; rewrite ?wins_field_fresh by auto;
    destruct (users fid) as [doc|];
    cbn [String.eqb Ascii.eqb Bool.eqb orb orZero wins losses ties noRecord];
    repeat split; lia.
Qed.

Lemma runCall_other users call other :
  other <> userOf call ->
  getUserRecord (runCall (Some users) call) other
  = getUserRecord (Some users) other.
Proof.
  intros H. destruct call as [fid isWin d|fid];
    cbn [runCall userOf updateUserRecord updateUserTie getUserRecord] in *;
    by rewrite set_merge_other.
Qed.

Lemma runCall_total users call :
  getTotalGamesPlayed (runCall (Some users) call) (userOf call)
  = (getTotalGamesPlayed (Some users) (userOf call) + 1)%Z.
Proof.
  rewrite !total_is_sum. pose proof (runCall_counters users call) as H.
  cbv zeta in H. destruct call as [fid [|] d|fid]; lia.
Qed.

(** X19.  Every write of the statistics counts one game, whatever the text
    of the difficulty: the total of games of the user, which is the sum of
    the [wins], [losses] and [ties] of the record, goes up by exactly one,
    and the totals of the other users stay. *)
Theorem every_write_counts_one_game (users : Users) (call : StatsCall) :
  getTotalGamesPlayed (runCall (Some users) call) (userOf call)
  = (getTotalGamesPlayed (Some users) (userOf call) + 1)%Z
  /\ (forall other, other <> userOf call ->
        getTotalGamesPlayed (runCall (Some users) call) other
        = getTotalGamesPlayed (Some users) other)
  /\ (forall db fid,
        getTotalGamesPlayed db fid
        = (wins (getUserRecord db fid) + losses (getUserRecord db fid)
           + ties (getUserRecord db fid))%Z).
Proof.
  split; [apply runCall_total|]. split; [|apply total_is_sum].
  intros other Hne. rewrite !total_is_sum. by rewrite runCall_other.
Qed.

Lemma getUserRecord_readField db fid :
  getUserRecord db fid
  = mkUserRecord (orZero (readField db fid "wins"))
                 (orZero (readField db fid "losses"))
                 (orZero (readField db fid "ties"))
                 (orZero (readField db fid "easyWins"))
                 (orZero (readField db fid "mediumWins"))
                 (orZero (readField db fid "hardWins")).
Proof.
  unfold getUserRecord, readField. destruct db as [users|]; [|done].
  by destruct (users fid).
Qed.

Lemma set_merge_comm users f1 u1 f2 u2 user field :
  readField (Some (set_merge (set_merge users f1 u1) f2 u2)) user field
  = readField (Some (set_merge (set_merge users f2 u2) f1 u1)) user field.
Proof.
  unfold readField, set_merge.
  destruct (String.eqb_spec user f1) as [E1|H1];
    destruct (String.eqb_spec user f2) as [E2|H2]; subst;
    rewrite ?String.eqb_refl;
    repeat match goal with
      | H : ?a <> ?b |- context [(?a =? ?b)%string] =>
          rewrite (proj2 (String.eqb_neq a b) H)
      | H : ?a <> ?b |- context [(?b =? ?a)%string] =>
          rewrite (proj2 (String.eqb_neq b a) (not_eq_sym H))
      end;
    try done.
  all: destruct (existsb (String.eqb field) u1), (existsb (String.eqb field) u2);
    cbn [orZero]; try done; f_equal; lia.
Qed.

(** X20.  Two writes of the statistics give the same database in either
    order: every field of every document, and so every record and every
    total, is the same. (The [/game] handler starts its writes without
    waiting for them.) *)
Theorem writes_commute (db : Db) (call1 call2 : StatsCall) :
  let db12 := runCall (runCall db call1) call2 in
  let db21 := runCall (runCall db call2) call1 in
  (forall fid field, readField db12 fid field = readField db21 fid field)
  /\ (forall fid, getUserRecord db12 fid = getUserRecord db21 fid)
  /\ (forall fid, getTotalGamesPlayed db12 fid = getTotalGamesPlayed db21 fid).
Proof.
  cbv zeta.
  assert (H : forall fid field,
    readField (runCall (runCall db call1) call2) fid field
    = readField (runCall (runCall db call2) call1) fid field).
  { intros fid field. destruct db as [users|].
    - destruct call1, call2;
        cbn [runCall updateUserRecord updateUserTie]; apply set_merge_comm.
    - by destruct call1, call2. }
  split; [exact H|]. split.
  - intros fid. rewrite !getUserRecord_readField. by rewrite !H.
  - intros fid. rewrite !total_is_sum, !getUserRecord_readField. by rewrite !H.
Qed.

Lemma runCall_Some users call : exists users', runCall (Some users) call = Some users'.
Proof. destruct call; by eexists. Qed.

Lemma runCall_typed_sum users call :
  typedCall call ->
  let r := getUserRecord (Some users) (userOf call) in
  let r' := getUserRecord (runCall (Some users) call) (userOf call) in
  (wins r' - easyWins r' - mediumWins r' - hardWins r'
   = wins r - easyWins r - mediumWins r - hardWins r)%Z.
Proof.
  destruct call as [fid isWin d|fid]; cbn [typedCall].
  - intros [level ->].
    cbn [runCall userOf updateUserRecord getUserRecord].
    rewrite set_merge_same.
    destruct (users fid) as [doc|]; destruct isWin, level;
      cbn [difficultyText app String.append existsb String.eqb Ascii.eqb
           Bool.eqb orb orZero wins losses ties easyWins mediumWins
           hardWins noRecord];
      lia.
  - intros _. cbn [runCall userOf updateUserTie getUserRecord].
    rewrite set_merge_same.
    destruct (users fid) as [doc|];
      cbn [existsb String.eqb Ascii.eqb Bool.eqb orb orZero wins losses ties
           easyWins mediumWins hardWins noRecord];
      lia.
Qed.

(** X21.  From a database with no document, after any sequence of writes
    whose difficulties are ['easy'], ['medium'] or ['hard'], every record
    has as many [wins] as its three counters by difficulty together, and the
    total of games of a user is the number of writes made for that user. *)
Theorem records_add_up (calls : list StatsCall) (fid : string) :
  List.Forall typedCall calls ->
  let db := fold_left runCall calls emptyDb in
  let r := getUserRecord db fid in
  wins r = (easyWins r + mediumWins r + hardWins r)%Z
  /\ getTotalGamesPlayed db fid
     = Z.of_nat (length (List.filter (fun call => (userOf call =? fid)%string)
                                     calls)).
Proof.
  intros Htyped. cbv zeta.
  induction calls as [|call calls IH] using rev_ind.
  { split; reflexivity. }
  apply Forall_app in Htyped as [Hcalls Hcall].
  inversion Hcall as [|? ? Hc _]; subst.
  destruct (IH Hcalls) as [IH1 IH2]. clear IH.
  rewrite fold_left_app. cbn [fold_left].
  assert (Hdb : exists users, fold_left runCall calls emptyDb = Some users).
  { clear. induction calls as [|c l IH] using rev_ind; [by eexists|].
    rewrite fold_left_app. cbn [fold_left]. destruct IH as [users ->].
    apply runCall_Some. }
  destruct Hdb as [users Hdb]. rewrite Hdb in *.
  rewrite List.filter_app, length_app. cbn [List.filter].
  destruct (String.eqb_spec (userOf call) fid) as [<-|Hne].
  - split.
    + pose proof (runCall_typed_sum users call Hc) as H. cbv zeta in H. lia.
    + rewrite runCall_total, IH2. simpl. lia.
  - split.
    + by rewrite runCall_other.
    + rewrite !total_is_sum, runCall_other by done.
      rewrite <- total_is_sum, IH2. simpl. lia.
Qed.

Lemma records_add_up_witness :
  let calls := [RecordResult "7" true "easy"; RecordTie "7";
                RecordResult "8" false "hard"] in
  let r := getUserRecord (fold_left runCall calls emptyDb) "7" in
  wins r = (easyWins r + mediumWins r + hardWins r)%Z
  /\ getTotalGamesPlayed (fold_left runCall calls emptyDb) "7" = 2%Z.
Proof.
  intros calls.
  apply (records_add_up calls "7").
  repeat (apply List.Forall_cons;
          [first [exact I | by exists easy | by exists hard]|]).
  apply List.Forall_nil.
Defined.

(** ** The POD score *)

Lemma Qfloor_half (z : Z) : Qfloor (inject_Z z + (1 # 2)) = z.
Proof.
  unfold Qfloor, Qplus, inject_Z. simpl.
  symmetry. apply Z.div_unique with (r := 1%Z); lia.
Qed.

Lemma Math_round_integer (q : Q) (z : Z) :
  q == inject_Z z -> Math_round q = inject_Z z.
Proof. intros H. unfold Math_round. by rewrite H, Qfloor_half. Qed.

Lemma Qle_bool_inject (a b : Z) : Qle_bool (inject_Z a) (inject_Z b) = (a <=? b)%Z.
Proof. unfold Qle_bool, inject_Z. simpl. by rewrite !Z.mul_1_r. Qed.

Lemma calculatePODScore_counts (w t l n : Z) (b : Q) :
  calculatePODScore (inject_Z w) (inject_Z t) (inject_Z l) (inject_Z n) b
  == inject_Z (4 * w + 2 * t + l + (if (25 <=? n)%Z then 20 else 0)
               + 50 * Qfloor b) / 2.
Proof.
  unfold calculatePODScore, Math_floor.
  change (Qle_bool 25%Q (inject_Z n))
    with (Qle_bool (inject_Z 25) (inject_Z n)).
  rewrite Qle_bool_inject.
  rewrite (Math_round_integer _
             (20 * w + 10 * t + 5 * l + (if (25 <=? n)%Z then 100 else 0)
              + 250 * Qfloor b)).
  - destruct (25 <=? n)%Z; unfold Qeq, Qdiv, Qmult, Qinv, inject_Z; simpl; lia.
  - destruct (25 <=? n)%Z; unfold Qeq, Qplus, Qmult, inject_Z; simpl; lia.
Qed.

(** X22.  On whole numbers of wins, ties, losses and games the rounding step
    of [calculatePODScore] changes nothing: the score is exactly two points
    a win, one a tie, half a point a loss, ten points from twenty-five games
    on, and twenty-five points for each whole token of the balance. *)
Theorem calculatePODScore_on_counts (w t l n : Z) (tokenBalance : Q) :
  calculatePODScore (inject_Z w) (inject_Z t) (inject_Z l) (inject_Z n)
                    tokenBalance
  == inject_Z (2 * w + t) + inject_Z l / 2
     + (if (25 <=? n)%Z then 10 else 0)
     + inject_Z (25 * Qfloor tokenBalance).
Proof.
  rewrite calculatePODScore_counts.
  destruct (25 <=? n)%Z;
    unfold Qeq, Qdiv, Qplus, Qmult, Qinv, inject_Z; simpl; lia.
Qed.



(** X24.  With the database at hand, every recorded game raises the score
    the [/share] frame shows for the user: by two points for a win, one for
    a tie and half a point for a loss, and by ten more when it is the
    twenty-fifth game of the user. *)
Theorem every_game_raises_the_score
    (users : Users) (call : StatsCall) (thepodTokenBalance : Q) :
  let fid := userOf call in
  let gain : Q := match call with
                  | RecordResult _ true _ => 2%Q
                  | RecordResult _ false _ => (1 # 2)%Q
                  | RecordTie _ => 1%Q
                  end in
  let bonus : Q :=
    if (getTotalGamesPlayed (Some users) fid =? 24)%Z then 10%Q else 0%Q in
  (share_podScore (runCall (Some users) call) (Some fid) thepodTokenBalance
   == share_podScore (Some users) (Some fid) thepodTokenBalance + gain + bonus)%Q.
Proof.
  cbv zeta. unfold share_podScore. rewrite !calculatePODScore_counts.
  rewrite runCall_total.
  pose proof (runCall_counters users call) as H. cbv zeta in H.
  set (r := getUserRecord (Some users) (userOf call)) in *.
  set (r' := getUserRecord (runCall (Some users) call) (userOf call)) in *.
  set (n := getTotalGamesPlayed (Some users) (userOf call)).
  destruct (Z.eqb_spec n 24) as [->|Hn].
  - change (25 <=? 24 + 1)%Z with true. change (25 <=? 24)%Z with false.
    destruct call as [fid [|] d|fid]; destruct H as (-> & -> & ->);
      unfold Qeq, Qdiv, Qplus, Qmult, Qinv, inject_Z; simpl; lia.
  - assert (E : (25 <=? n + 1)%Z = (25 <=? n)%Z).
    { destruct (Z.leb_spec 25 (n + 1)), (Z.leb_spec 25 n); lia. }
    rewrite E.
    destruct call as [fid [|] d|fid]; destruct H as (-> & -> & ->);
      destruct (25 <=? n)%Z;
      unfold Qeq, Qdiv, Qplus, Qmult, Qinv, inject_Z; simpl; lia.
Qed.

(** ** The statistics of a game *)

(** How one move request ends: without a result and with [isGameOver] as it
    was, or with a result on a game that was going on and is now over. *)
Lemma frame_game_result username p idx g :
  exists p' message result,
    frame_game "response" (Some (moveButtonValue (tokenOf p) idx)) username g
    = Normal (respond p' message result)
    /\ difficulty p' = difficulty p
    /\ (result = None /\ isGameOver p' = isGameOver p
        \/ result <> None /\ isGameOver p = false /\ isGameOver p' = true).
Proof.
  destruct (playMove_cases username p (parseInt (split ":" idx !! 0)) g)
    as [[message E]|(i & Ei & Hover & Hi)].
  { exists p, message, None. split; [by apply frame_game_respond|]. auto. }
  destruct (playMove_accepted username p i g Hover Hi)
    as (p' & message & result & E & _ & Hlevel & Hcase).
  exists p', message, result. rewrite <- Ei in E.
  split; [by apply frame_game_respond|]. split; [done|]. cbv zeta in Hcase.
  destruct Hcase as [(_ & Hover' & [[_ ->]|(_ & _ & ->)])
                    |(_ & _ & _ & [(_ & Hover' & ->)
                                  |[(_ & _ & Hover' & ->)|(_ & _ & Hover' & ->)]])];
    first [by right | left; split; [done | congruence]].
Qed.

Lemma statsCall_respond fid p message result :
  statsCall (Some fid) (store (respond p message result))
  = match result with
    | Some win => Some (RecordResult fid true (difficultyText (difficulty p)))
    | Some lose => Some (RecordResult fid false (difficultyText (difficulty p)))
    | Some draw => Some (RecordTie fid)
    | None => None
    end.
Proof. by destruct result as [[| |]|]. Qed.

Lemma playRequests_calls username fid requests : forall p,
  difficulty p = easy ->
  exists responses,
    playRequests username (tokenOf p) requests = Normal responses
    /\ let calls := omap (fun r => statsCall (Some fid) (store r)) responses in
       (isGameOver p = true -> calls = [])
       /\ length calls <= 1
       /\ (forall call, call ∈ calls ->
             call = RecordResult fid true "easy"
             \/ call = RecordResult fid false "easy"
             \/ call = RecordTie fid)
       /\ (isGameOver p = false ->
           (calls <> [] <-> exists r, r ∈ responses /\ isOver r = true)).
Proof.
  induction requests as [|[idx g] rest IH]; intros p Hlevel.
  { exists []. split; [done|]. cbv zeta.
    change (omap _ []) with (@nil StatsCall).
    split; [done|]. split; [simpl; lia|].
    split; [intros call H; by apply elem_of_nil in H|].
    intros _. split; [done|]. intros (r & H & _). by apply elem_of_nil in H. }
  destruct (frame_game_result username p idx g)
    as (p' & message & result & E & Hlevel' & Hcase).
  rewrite Hlevel in Hlevel'.
  destruct (IH p' Hlevel') as (responses & Erest & Hover & Hlen & Hcalls & Hiff).
  exists (respond p' message result :: responses).
  cbn [playRequests]. rewrite E. cbn [bind respond encodedState].
  fold (tokenOf p'). rewrite Erest. split; [done|].
  cbv zeta in *. fold (respond p' message result).
  change (omap ?f (?r :: ?l))
    with (match f r with Some y => y :: omap f l | None => omap f l end).
  cbv beta. rewrite statsCall_respond, Hlevel'. cbn [difficultyText].
  set (calls := omap (fun r => statsCall (Some fid) (store r)) responses) in *.
  destruct Hcase as [(-> & Hsame)|(Hres & Hp & Hp')].
  - cbv iota. rewrite <- Hsame.
    split; [done|]. split; [done|]. split; [done|].
    intros Hp'. rewrite (Hiff Hp'). split.
    + intros (r & Hr & Hr'). exists r. split; [by apply list_elem_of_further|done].
    + intros (r & Hr & Hr'). apply elem_of_cons in Hr as [->|Hr].
      * rewrite isOver_respond in Hr'. congruence.
      * by exists r.
  - rewrite (Hover Hp').
    assert (Hhead : exists r, r ∈ respond p' message result :: responses
                              /\ isOver r = true).
    { eexists. split; [apply list_elem_of_here|]. by rewrite isOver_respond. }
    destruct result as [[| |]|]; [| | |done];
      (split; [congruence|]); (split; [cbn; lia|]);
      (split; [intros call Hc; apply list_elem_of_singleton in Hc as ->; auto|]);
      intros _; split; done.
Qed.

(** X25.  Over a run of move requests on one game, from the fresh game on
    and each carrying the token of the response before it, the handler
    starts at most one write of the statistics of the user; it starts one
    exactly if a response of the run has the game over; the write is a win
    or a loss with difficulty ['easy'], or a tie, of that user. Without a
    user no write is started. *)
Theorem a_game_is_recorded_once
    (username fid : string) (requests : list (string * RNG)) :
  exists responses,
    playRequests username (tokenOf freshGame) requests = Normal responses
    /\ let calls := omap (fun r => statsCall (Some fid) (store r)) responses in
       length calls <= 1
       /\ (forall call, call ∈ calls ->
             call = RecordResult fid true "easy"
             \/ call = RecordResult fid false "easy"
             \/ call = RecordTie fid)
       /\ (calls <> [] <-> exists r, r ∈ responses /\ isOver r = true)
       /\ omap (fun r => statsCall None (store r)) responses = [].
Proof.
  destruct (playRequests_calls username fid requests freshGame eq_refl)
    as (responses & E & _ & Hlen & Hcalls & Hiff).
  exists responses. split; [done|]. cbv zeta in *.
  split; [done|]. split; [done|]. split; [by apply Hiff|].
  clear. induction responses as [|r l IH]; [done|]. by csimpl.
Qed.

(** ** Showing a board *)




(** X27.  The labels of the cells follow the rows and columns of the board
    as [renderBoard] lays it out: cell [3 r + c], shown in row [r] and
    column [c], is named by the letter of the row, [A] to [C], and the
    number of the column, [1] to [3]. Two cells of the board never have the
    same label, and an index past the board has none (in a message it
    reads [undefined]). *)
Theorem coordinates_name_rows_and_columns :
  (forall row col, row < 3 -> col < 3 ->
     COORDINATES !! (row * 3 + col)
     = Some (String (ascii_of_nat (65 + row))
                    (String (ascii_of_nat (49 + col)) "")))
  /\ (forall i j label,
        COORDINATES !! i = Some label -> COORDINATES !! j = Some label -> i = j)
  /\ (forall i, 9 <= i ->
        COORDINATES !! i = None /\ coordinate (Some i) = "undefined"%string).
Proof.
  split; [|split].
  - intros row col Hr Hc.
    do 3 (destruct row as [|row]; [do 3 (destruct col as [|col]; [reflexivity|]); lia|]).
    lia.
  - intros i j label Hi Hj.
    assert (i < 9) by (apply lookup_lt_Some in Hi; simpl in Hi; lia).
    assert (j < 9) by (apply lookup_lt_Some in Hj; simpl in Hj; lia).
    rewrite <- Hj in Hi. clear Hj.
    do 9 (destruct i as [|i];
          [do 9 (destruct j as [|j]; [first [reflexivity | discriminate]|]); lia|]).
    lia.
  - intros i Hi. do 9 (destruct i as [|i]; [lia|]). split; by destruct i.
Qed.
